(** * Search aggregation and caching service of hdo-transcript-search

    A shallow embedding of the [SearchAPI] class (the server side search
    facade: [summary], [hits], [cached], [getContext], the aggregation
    response builder and the hit builder) together with the properties
    of it that the specification states.

    Conventions of the embedding.
    - JavaScript values that occur in option bags and in stored documents
      are the primitives of [value]; numbers there are integers.
    - A JavaScript object used as a record or as a dictionary is an
      association list in property (insertion) order, the order that
      [Object.keys] and [JSON.stringify] enumerate.  Property names are
      ordinary names: none is an array index (those are enumerated first
      by the language) and none shadows a member of [Object.prototype].
    - Strings are sequences of 8-bit code units.
    - Bucket counts are natural numbers; a percentage is an exact
      rational (the rounding of binary floating point is not modelled).
    - A call that returns a promise is modelled together with the
      settlement of that promise: the state a call returns is the state
      at the moment the promise has settled, with no other call
      interleaved.

    The module [Js] embeds the computation of the percentages a second
    time, without the conventions on property names and on percentages:
    there a dictionary is a plain object, with the members that it
    inherits and the order in which the language lists its keys, and a
    percentage is a double.  On objects with ordinary property names
    the two embeddings give the same entries, the percentages up to
    rounding. *)

From stdpp Require Import base option gmap.
From Stdlib Require Import ZArith QArith Qpower String Ascii List Bool Lia.
From Stdlib Require Import DecimalString DecimalZ DecimalPos.
From Stdlib Require Import Sorting.Sorted Sorting.Permutation Lqa.
From Stdlib Require Import Floats.SpecFloat.
Import ListNotations.

Local Open Scope list_scope.
Local Open Scope string_scope.

#[local] Arguments String.append !s1 s2 : simpl nomatch.

(** ** JavaScript values *)

Inductive value : Type :=
| VUndefined
| VNull
| VBool (b : bool)
| VNum (z : Z)
| VStr (s : string).

Definition value_eqb (a b : value) : bool :=
  match a, b with
  | VUndefined, VUndefined => true
  | VNull, VNull => true
  | VBool x, VBool y => Bool.eqb x y
  | VNum x, VNum y => Z.eqb x y
  | VStr x, VStr y => String.eqb x y
  | _, _ => false
  end.

(** [ToBoolean]. *)
Definition truthy (v : value) : bool :=
  match v with
  | VUndefined | VNull => false
  | VBool b => b
  | VNum z => negb (Z.eqb z 0)
  | VStr s => negb (String.eqb s EmptyString)
  end.

(** [a || b]. *)
Definition js_or (a b : value) : value := if truthy a then a else b.

(** Decimal rendering of an integer number. *)
Definition number_to_string (z : Z) : string :=
  NilZero.string_of_int (Z.to_int z).

(** [ToString], as used by a template literal. *)
Definition to_string (v : value) : string :=
  match v with
  | VUndefined => "undefined"
  | VNull => "null"
  | VBool true => "true"
  | VBool false => "false"
  | VNum z => number_to_string z
  | VStr s => s
  end.

(** ** Objects as property lists *)

(** A dictionary object: its properties in insertion order. *)
Definition dict (A : Type) : Type := list (string * A).

(** The own property [k], if there is one. *)
Fixpoint dict_get {A} (k : string) (o : dict A) : option A :=
  match o with
  | [] => None
  | (k', v) :: o' => if String.eqb k k' then Some v else dict_get k o'
  end.

(** [o[k] = v]: an existing property keeps its place, a new one is
    added last. *)
Fixpoint dict_set {A} (k : string) (v : A) (o : dict A) : dict A :=
  match o with
  | [] => [(k, v)]
  | (k', v') :: o' =>
      if String.eqb k k' then (k', v) :: o' else (k', v') :: dict_set k v o'
  end.

Definition Object_keys {A} (o : dict A) : list string := map fst o.

Definition obj : Type := dict value.

(** [o[k]] on an object of values: [undefined] when there is no such
    property. *)
Definition obj_get (k : string) (o : obj) : value :=
  match dict_get k o with
  | Some v => v
  | None => VUndefined
  end.

Definition obj_set (k : string) (v : value) (o : obj) : obj := dict_set k v o.

(** [Object.assign(target, source)]. *)
Definition Object_assign (target source : obj) : obj :=
  fold_left (fun t p => obj_set (fst p) (snd p) t) source target.

(** ** Arrays *)

(** [l.indexOf(x)], with [-1] for an absent element. *)
Fixpoint indexOf {A} (eqb : A -> A -> bool) (x : A) (l : list A) : Z :=
  match l with
  | [] => (-1)%Z
  | y :: l' =>
      if eqb y x then 0%Z
      else let i := indexOf eqb x l' in
           if Z.eqb i (-1) then (-1)%Z else (i + 1)%Z
  end.

(** [l.filter((x, i) => f(x, i))], the index counted from [i0]. *)
Fixpoint filter_indexed {A} (f : A -> Z -> bool) (i0 : Z) (l : list A) : list A :=
  match l with
  | [] => []
  | x :: l' =>
      if f x i0 then x :: filter_indexed f (i0 + 1)%Z l'
      else filter_indexed f (i0 + 1)%Z l'
  end.

(** A relative index of [slice] on an array of length [len]. *)
Definition slice_index (len : nat) (k : Z) : nat :=
  if Z.ltb k 0 then Z.to_nat (Z.max (Z.of_nat len + k) 0)
  else Nat.min (Z.to_nat k) len.

(** [l.slice(from, to)]. *)
Definition slice {A} (from to : Z) (l : list A) : list A :=
  let i := slice_index (length l) from in
  let j := slice_index (length l) to in
  firstn (j - i) (skipn i l).

(** [l.sort(cmp)]: a stable insertion sort, which is what the engine
    runs on short arrays and what the language asks of every array
    since ES2019.  [cmp x y] is the number the comparator returns; only
    its sign is used. *)
Fixpoint sort_insert {A} (cmp : A -> A -> Q) (x : A) (l : list A) : list A :=
  match l with
  | [] => [x]
  | y :: l' =>
      if Qle_bool (cmp x y) 0 then x :: y :: l' else y :: sort_insert cmp x l'
  end.

Definition Array_sort {A} (cmp : A -> A -> Q) (l : list A) : list A :=
  fold_right (sort_insert cmp) [] l.

(** ** JSON.stringify on option bags *)

Definition dquote : ascii := ascii_of_nat 34.
Definition backslash : ascii := ascii_of_nat 92.

Definition hex_digit (n : nat) : ascii :=
  if Nat.ltb n 10 then ascii_of_nat (48 + n) else ascii_of_nat (87 + n).

(** One code unit of a string inside a JSON string literal. *)
Definition escape_char (c : ascii) : string :=
  let n := nat_of_ascii c in
  if Nat.eqb n 34 then String backslash (String dquote EmptyString)
  else if Nat.eqb n 92 then String backslash (String backslash EmptyString)
  else if Nat.eqb n 8 then String backslash "b"
  else if Nat.eqb n 9 then String backslash "t"
  else if Nat.eqb n 10 then String backslash "n"
  else if Nat.eqb n 12 then String backslash "f"
  else if Nat.eqb n 13 then String backslash "r"
  else if Nat.ltb n 32 then
    String backslash
      (String "u" (String "0" (String "0"
        (String (hex_digit (n / 16)) (String (hex_digit (n mod 16)) EmptyString)))))
  else String c EmptyString.

Fixpoint escape (s : string) : string :=
  match s with
  | EmptyString => EmptyString
  | String c s' => escape_char c ++ escape s'
  end.

Definition quote (s : string) : string :=
  String dquote (escape s ++ String dquote EmptyString).

(** The text of a property value; [None] for [undefined], whose property
    [JSON.stringify] leaves out. *)
Definition stringify_value (v : value) : option string :=
  match v with
  | VUndefined => None
  | VNull => Some "null"
  | VBool true => Some "true"
  | VBool false => Some "false"
  | VNum z => Some (number_to_string z)
  | VStr s => Some (quote s)
  end.

Fixpoint stringify_props (o : obj) : list string :=
  match o with
  | [] => []
  | (k, v) :: o' =>
      match stringify_value v with
      | None => stringify_props o'
      | Some s => (quote k ++ ":" ++ s) :: stringify_props o'
      end
  end.

Fixpoint join_comma (l : list string) : string :=
  match l with
  | [] => EmptyString
  | [s] => s
  | s :: l' => s ++ "," ++ join_comma l'
  end.

Definition JSON_stringify (o : obj) : string :=
  "{" ++ join_comma (stringify_props o) ++ "}".

(** The properties that [JSON.stringify] writes. *)
Definition defined_props (o : obj) : obj :=
  List.filter (fun p => negb (value_eqb (snd p) VUndefined)) o.

(** [name + ':' + JSON.stringify(data)], the key computed by [cached]. *)
Definition cacheKey (name : string) (data : obj) : string :=
  name ++ ":" ++ JSON_stringify data.

(** ** Exceptions and promises *)

Inductive error : Type :=
| Error (message : string)
| TypeError (message : string).

(** How a synchronous call ends. *)
Inductive completion (A : Type) : Type :=
| Normal (a : A)
| Throw (e : error).
Arguments Normal {A} a.
Arguments Throw {A} e.

(** How a promise settles. *)
Inductive promise (A : Type) : Type :=
| Fulfilled (a : A)
| Rejected (e : error).
Arguments Fulfilled {A} a.
Arguments Rejected {A} e.

(** [p.then(f)] for a synchronous [f]: a throw in [f] rejects. *)
Definition promise_then {A B} (p : promise A) (f : A -> completion B) : promise B :=
  match p with
  | Fulfilled a =>
      match f a with
      | Normal b => Fulfilled b
      | Throw e => Rejected e
      end
  | Rejected e => Rejected e
  end.

(** [l.map(f)] for an [f] that may throw: the first throw ends the loop. *)
Fixpoint map_completion {A B} (f : A -> completion B) (l : list A) : completion (list B) :=
  match l with
  | [] => Normal []
  | x :: l' =>
      match f x with
      | Throw e => Throw e
      | Normal y =>
          match map_completion f l' with
          | Throw e => Throw e
          | Normal ys => Normal (y :: ys)
          end
      end
  end.

(** ** The cache of the [lru-cache] package

    The entries are kept most recently used first.  [get] and [set] make
    the entry they touch the most recent one; [set] drops the least
    recently used entries beyond [max], a positive number; [peek] reads
    without touching. *)

Record lru (V : Type) : Type := mkLru {
  lru_max : nat;
  lru_entries : list (string * V)
}.
Arguments mkLru {V} _ _.
Arguments lru_max {V} _.
Arguments lru_entries {V} _.

Definition LRU {V} (max : nat) : lru V := mkLru max [].

Fixpoint lru_remove {V} (k : string) (l : list (string * V)) : list (string * V) :=
  match l with
  | [] => []
  | (k', v) :: l' => if String.eqb k k' then lru_remove k l' else (k', v) :: lru_remove k l'
  end.

Definition lru_peek {V} (k : string) (c : lru V) : option V :=
  dict_get k (lru_entries c).

Definition lru_get {V} (k : string) (c : lru V) : option V * lru V :=
  match dict_get k (lru_entries c) with
  | Some v => (Some v, mkLru (lru_max c) ((k, v) :: lru_remove k (lru_entries c)))
  | None => (None, c)
  end.

Definition lru_set {V} (k : string) (v : V) (c : lru V) : lru V :=
  mkLru (lru_max c) (firstn (lru_max c) ((k, v) :: lru_remove k (lru_entries c))).

(** ** The index boundary: requests and responses *)

(** [{query_string: {query: str, default_operator: 'AND',
    default_field: 'text'}}]. *)
Record query_string : Type := mkQueryString { qs_query : value }.

#[warnings="-register-all"] Inductive es_filter : Type :=
| MatchAll                                        (* {} *)
| NotTerm (field : string) (v : value)          (* {not: {filter: {term: ..}}} *)
| Term (field : string) (v : value)             (* {term: {field: v}} *)
| Range (field : string) (gte lte : Z)          (* {range: {field: {gte, lte}}} *)
| AndFilters (filters : list es_filter).        (* {and: {filters: [..]}} *)

(** [+(v)]: the number that the unary plus makes of [v]; what number
    that is for a string is left to the reader of the request. *)
Inductive js_number : Type := ToNumber (v : value).

(** The three request bodies that the service sends to index
    [hdo-transcripts], type [speech]; the parts that never vary (the
    highlight markers, the aggregated fields, the time zone) are not
    repeated here. *)
Inductive request : Type :=
| SearchHits (query : query_string) (filter : es_filter)
             (size from : js_number) (sort : value)
| SearchAggregations (interval : value) (query : query_string)
| SearchContext (filter : es_filter) (size : Z) (sort : string).

Record highlight_obj : Type := mkHighlight { text : option (list string) }.

Record raw_hit : Type := mkHit {
  _id : value;
  _score : value;
  highlight : option highlight_obj;
  _source : obj
}.

Record bucket : Type := mkBucket {
  key : string;
  key_as_string : option string;
  doc_count : nat;
  person : option (list raw_hit)      (* person.hits.hits, when present *)
}.

Record aggregation : Type := mkAggregation { buckets : list bucket }.

Record aggregations : Type := mkAggregations {
  agg_timeline : aggregation;             (* aggregations.timeline *)
  agg_parties : aggregation;              (* aggregations.parties *)
  agg_people : aggregation;               (* aggregations.people *)
  agg_filteredTimeline : aggregation;     (* aggregations.filteredTimeline.timeline *)
  agg_filteredParties : aggregation;      (* aggregations.filteredParties.parties *)
  agg_filteredPeople : aggregation        (* aggregations.filteredPeople.people *)
}.

Record response : Type := mkResponse {
  hits_hits : option (list raw_hit);      (* response.hits.hits *)
  hits_total : nat;                       (* response.hits.total *)
  resp_aggregations : option aggregations (* response.aggregations *)
}.

(** ** Results *)

Record PercentageEntry : Type := mkEntry {
  entry_key : string;
  entry_count : nat;
  entry_total : nat;
  entry_pct : Q;
  entry_meta : option obj
}.

Record SummaryResult : Type := mkSummary {
  counts_total : nat;
  timeline : list PercentageEntry;
  parties : list PercentageEntry;
  people_count : list PercentageEntry;    (* people.count *)
  people_pct : list PercentageEntry       (* people.pct *)
}.

Record HitsResult : Type := mkHits {
  hr_query : value;
  hr_hits : list obj;
  hr_total : nat                          (* counts.total *)
}.

(** What the cache of the service holds. *)
Inductive result : Type :=
| RSummary (s : SummaryResult)
| RHits (h : HitsResult).

(** ** State *)

Definition loc : Type := nat.

(** The store of option bags that callers hold by reference, the cache
    of the [SearchAPI] instance, and the requests sent to the index so
    far, oldest first. *)
Record state (V : Type) : Type := mkState {
  heap : gmap loc obj;
  cache : lru V;
  es_log : list request
}.
Arguments mkState {V} _ _ _.
Arguments heap {V} _.
Arguments cache {V} _.
Arguments es_log {V} _.

Definition set_heap {V} (h : gmap loc obj) (st : state V) : state V :=
  mkState h (cache st) (es_log st).
Definition set_cache {V} (c : lru V) (st : state V) : state V :=
  mkState (heap st) c (es_log st).
Definition log_request {V} (r : request) (st : state V) : state V :=
  mkState (heap st) (cache st) (es_log st ++ [r])%list.

(** A computation on the state. *)
Definition M (V A : Type) : Type := state V -> A * state V.

(** [constructor() { this.cache = LRU({max: 500}) }]. *)
Definition new_SearchAPI {V} (h : gmap loc obj) : state V :=
  mkState h (LRU 500) [].

(** ** The cache layer *)

Section CacheLayer.
Context {V : Type}.
(** [ToBoolean] on the values that the cache holds. *)
Variable truthyV : V -> bool.

Definition _cacheResponse (key : string) (value : V) : M V V :=
  fun st => (value, set_cache (lru_set key value (cache st)) st).

(** [cached(name, data, fetchFunc)]; [data] is the option bag as it is
    when the call is made. *)
Definition cached (name : string) (data : obj)
    (fetchFunc : M V (completion (promise V))) : M V (completion (promise V)) :=
  fun st =>
    let key := cacheKey name data in
    let (hit, c) := lru_get key (cache st) in
    let st1 := set_cache c st in
    let miss :=
      match fetchFunc st1 with
      | (Normal (Fulfilled value), st2) =>
          let (value', st3) := _cacheResponse key value st2 in
          (Normal (Fulfilled value'), st3)
      | other => other
      end in
    match hit with
    | Some v => if truthyV v then (Normal (Fulfilled v), st1) else miss
    | None => miss
    end.

End CacheLayer.

(** ** The service *)

Definition ALLOWED_INTERVALS : list value :=
  [VStr "month"; VStr "12w"; VStr "24w"; VStr "year"].

(** [_intervalFrom(opts)]. *)
Definition _intervalFrom (opts : obj) : completion value :=
  let interval := js_or (obj_get "interval" opts) (VStr "month") in
  if Z.eqb (indexOf value_eqb interval ALLOWED_INTERVALS) (-1)
  then Throw (Error ("invalid interval: " ++ to_string interval))
  else Normal interval.

Definition _queryFor (str : value) : query_string := mkQueryString str.

Definition _filterFor (opts : obj) : es_filter :=
  if truthy (obj_get "includePresident" opts) then MatchAll
  else NotTerm "name" (VStr "Presidenten").

Definition _buildHitsQuery (opts : obj) : request :=
  SearchHits
    (_queryFor (obj_get "query" opts))
    (_filterFor opts)
    (ToNumber (js_or (obj_get "size" opts) (VNum 10)))
    (ToNumber (js_or (obj_get "start" opts) (VNum 0)))
    (js_or (obj_get "sort" opts) (VStr "_score")).

Definition _buildAggregationsQuery (opts : obj) : request :=
  SearchAggregations (obj_get "interval" opts) (_queryFor (obj_get "query" opts)).

(** [bucket.key_as_string || bucket.key]. *)
Definition bucket_key (b : bucket) : string :=
  match key_as_string b with
  | Some s => if String.eqb s EmptyString then key b else s
  | None => key b
  end.

(** [_parseAggregation(aggregation)]. *)
Definition _parseAggregation (a : aggregation) : dict nat :=
  fold_left (fun counts b => dict_set (bucket_key b) (doc_count b) counts)
            (buckets a) [].

(** [counts[key] || 0.0]. *)
Definition count_or_zero (k : string) (counts : dict nat) : nat :=
  match dict_get k counts with
  | Some n => n
  | None => 0%nat
  end.

Definition number (n : nat) : Q := inject_Z (Z.of_nat n).

(** [_calculatePercentages(subset, set, opts)]; [combineKeys] is
    [opts && opts.combineKeys]. *)
Definition _calculatePercentages (subset set : dict nat) (combineKeys : bool)
    : list PercentageEntry :=
  let keys :=
    if combineKeys then
      let keys := (Object_keys subset ++ Object_keys set)%list in
      filter_indexed (fun k i => Z.eqb (indexOf String.eqb k keys) i) 0 keys
    else Object_keys subset in
  map (fun key =>
         let total := count_or_zero key set in
         let val := count_or_zero key subset in
         mkEntry key val total
                 (if Nat.eqb total 0 then 0 else (number val / number total) * 100)
                 None)
      keys.

(** [_buildPersonMap(aggregation)]: reading [person.hits.hits[0]._source]
    of a bucket that has no such hit is a [TypeError]. *)
Definition _buildPersonMap (a : aggregation) : completion (dict obj) :=
  fold_left
    (fun (acc : completion (dict obj)) b =>
       match acc with
       | Throw e => Throw e
       | Normal map =>
           match person b with
           | Some (h :: _) => Normal (dict_set (key b) (_source h) map)
           | _ => Throw (TypeError "Cannot read property of undefined")
           end
       end)
    (buckets a) (Normal []).

Definition set_meta (personMap : dict obj) (d : PercentageEntry) : PercentageEntry :=
  mkEntry (entry_key d) (entry_count d) (entry_total d) (entry_pct d)
          (dict_get (entry_key d) personMap).

Section ResponseBuilder.
(** [Parties.isCurrent]. *)
Variable isCurrent : string -> bool.
(** [moment(key).valueOf()], the instant that a timeline key stands for. *)
Variable instant : string -> Z.

Definition by_instant (a b : PercentageEntry) : Q :=
  inject_Z (instant (entry_key a) - instant (entry_key b)).
Definition by_count_desc (a b : PercentageEntry) : Q :=
  number (entry_count b) - number (entry_count a).
Definition by_pct_desc (a b : PercentageEntry) : Q :=
  entry_pct b - entry_pct a.

(** The [people] array of [_buildResponse], before it is sorted. *)
Definition people_entries (aggs : aggregations) (personMap : dict obj)
    : list PercentageEntry :=
  map (set_meta personMap)
      (_calculatePercentages (_parseAggregation (agg_filteredPeople aggs))
                             (_parseAggregation (agg_people aggs)) false).

(** The [timeline] array of [_buildResponse], before it is sorted and
    trimmed. *)
Definition timeline_entries (aggs : aggregations) : list PercentageEntry :=
  _calculatePercentages (_parseAggregation (agg_filteredTimeline aggs))
                        (_parseAggregation (agg_timeline aggs)) true.

(** The percentages of the parties, before the current ones are kept. *)
Definition parties_entries (aggs : aggregations) : list PercentageEntry :=
  _calculatePercentages (_parseAggregation (agg_filteredParties aggs))
                        (_parseAggregation (agg_parties aggs)) false.

(** [_buildResponse(aggResponse)]. *)
Definition _buildResponse (aggResponse : response) : completion SummaryResult :=
  match resp_aggregations aggResponse with
  | None => Throw (TypeError "Cannot read property of undefined")
  | Some aggs =>
      match _buildPersonMap (agg_filteredPeople aggs) with
      | Throw e => Throw e
      | Normal personMap =>
          let people := people_entries aggs personMap in
          let timeline := Array_sort by_instant (timeline_entries aggs) in
          let timeline := slice 1 (-1) timeline in
          let parties :=
            List.filter (fun e => isCurrent (entry_key e)) (parties_entries aggs) in
          let people := Array_sort by_count_desc people in
          let count := slice 0 20 people in
          let people := Array_sort by_pct_desc people in
          let pct := slice 0 20 people in
          Normal (mkSummary (hits_total aggResponse) timeline parties count pct)
      end
  end.

End ResponseBuilder.

(** [_buildHit(hit)]. *)
Definition _buildHit (hit : raw_hit) : completion obj :=
  match
    match highlight hit with
    | Some h =>
        match text h with
        | Some (fragment :: _) => Normal (VStr fragment)
        | Some [] => Normal VUndefined
        | None => Throw (TypeError "Cannot read property 0 of undefined")
        end
    | None => Normal (VStr EmptyString)
    end
  with
  | Throw e => Throw e
  | Normal hl =>
      Normal (Object_assign
                [("id", _id hit); ("score", _score hit); ("highlight", hl)]
                (_source hit))
  end.

Section Service.
(** [es.search], the index as the service sees it: the settlement of the
    promise that each request gets. *)
Variable es_search : request -> promise response.
Variable isCurrent : string -> bool.
Variable instant : string -> Z.

(** Results are objects, which are always truthy. *)
Definition truthy_result (r : result) : bool := true.

(** One round trip to the index. *)
Definition search {V} (req : request) : M V (promise response) :=
  fun st => (es_search req, log_request req st).

(** The function that [summary] hands to [then]. *)
Definition summary_response (r : response) : completion result :=
  match _buildResponse isCurrent instant r with
  | Normal s => Normal (RSummary s)
  | Throw e => Throw e
  end.

(** The fetch function of [summary]: the arrow function that it hands to
    [cached], closed over the caller's option bag. *)
Definition summary_fetch (opts : loc) : M result (completion (promise result)) :=
  fun st =>
    match heap st !! opts with
    | None => (Throw (TypeError "Cannot read property query of undefined"), st)
    | Some o =>
        let (p, st) := search (_buildAggregationsQuery o) st in
        (Normal (promise_then p summary_response), st)
    end.

(** [summary(opts)], [opts] being the caller's option bag. *)
Definition summary (opts : loc) : M result (completion (promise result)) :=
  fun st =>
    match heap st !! opts with
    | None => (Throw (TypeError "Cannot read property interval of undefined"), st)
    | Some o =>
        match _intervalFrom o with
        | Throw e => (Throw e, st)
        | Normal interval =>
            let o := obj_set "interval" interval o in
            let st := set_heap (<[opts := o]> (heap st)) st in
            cached truthy_result "summary" o (summary_fetch opts) st
        end
    end.

(** The function that [hits] hands to [then]. *)
Definition hits_response (o : obj) (response : response) : completion result :=
  match hits_hits response with
  | None => Throw (TypeError "Cannot read property map of undefined")
  | Some hs =>
      match map_completion _buildHit hs with
      | Throw e => Throw e
      | Normal l => Normal (RHits (mkHits (obj_get "query" o) l (hits_total response)))
      end
  end.

(** The fetch function of [hits]. *)
Definition hits_fetch (opts : loc) : M result (completion (promise result)) :=
  fun st =>
    match heap st !! opts with
    | None => (Throw (TypeError "Cannot read property query of undefined"), st)
    | Some o =>
        let (p, st) := search (_buildHitsQuery o) st in
        (Normal (promise_then p (hits_response o)), st)
    end.

(** [hits(opts)]. *)
Definition hits (opts : loc) : M result (completion (promise result)) :=
  fun st =>
    match heap st !! opts with
    | None => (Throw (TypeError "Cannot read property interval of undefined"), st)
    | Some o =>
        match _intervalFrom o with
        | Throw e => (Throw e, st)
        | Normal interval =>
            let o := obj_set "interval" interval o in
            let st := set_heap (<[opts := o]> (heap st)) st in
            cached truthy_result "hits" o (hits_fetch opts) st
        end
    end.

(** [getContext(id, start, end)]. *)
Definition getContext {V} (id : string) (start end_ : Z) : M V (promise (list obj)) :=
  fun st =>
    let body :=
      SearchContext
        (AndFilters [Term "transcript" (VStr id); Range "order" start end_])
        (end_ - start + 1)
        "order" in
    let (p, st) := search body st in
    (promise_then p
       (fun response =>
          match hits_hits response with
          | Some hs => Normal (map _source hs)
          | None => Normal []
          end), st).

End Service.

(** ** The index, for context queries

    The search index and the module [./es-client] that reaches it are
    not among the sources.  The specification describes the index at
    its boundary: a document store with query capability, whose
    [search] takes a request with a filter, a sort key and the
    pagination [size] and returns [{hits: {hits, total}}]. *)

(** Modelled from the spec: whether a stored document passes a filter
    of a request ([term]: the field has that value; [range]: the field
    is a number within the bounds; [and]: every filter passes; [not]:
    the term filter does not pass; the empty filter: every document
    passes). *)
Fixpoint matches (f : es_filter) (doc : obj) : bool :=
  match f with
  | MatchAll => true
  | NotTerm field v => negb (value_eqb (obj_get field doc) v)
  | Term field v => value_eqb (obj_get field doc) v
  | Range field gte lte =>
      match obj_get field doc with
      | VNum z => Z.leb gte z && Z.leb z lte
      | _ => false
      end
  | AndFilters filters => forallb (fun g => matches g doc) filters
  end.

(** Modelled from the spec: the number in the sort field of a document,
    by which the index orders the hits. *)
Definition sort_value (field : string) (h : raw_hit) : Z :=
  match obj_get field (_source h) with
  | VNum z => z
  | _ => 0%Z
  end.

(** Modelled from the spec: ascending order by the sort field. *)
Definition by_field (field : string) (a b : raw_hit) : Q :=
  inject_Z (sort_value field a - sort_value field b).

(** Modelled from the spec: the answer of the search index (which is
    not among the sources) to a context request: of the stored
    documents that pass the filter, sorted ascending by the sort field,
    the first [size] are the hits, none of them for a page size below
    one; [total] counts all that pass. *)
Definition index_answer (corpus : list raw_hit) (filter : es_filter)
    (size : Z) (sort : string) : response :=
  let found := List.filter (fun h => matches filter (_source h)) corpus in
  mkResponse (Some (firstn (Z.to_nat size) (Array_sort (by_field sort) found)))
             (length found) None.

(** Modelled from the spec: an index client [es.search] that answers
    the context requests as the index holding [corpus] does. *)
Definition answers_context (es_search : request -> promise response)
    (corpus : list raw_hit) : Prop :=
  forall filter size sort,
    es_search (SearchContext filter size sort)
    = Fulfilled (index_answer corpus filter size sort).

(** The documents of [corpus] that belong to transcript [id]. *)
Definition of_transcript (id : string) (h : raw_hit) : bool :=
  value_eqb (obj_get "transcript" (_source h)) (VStr id).

(** [Some z] when the [order] field of the document is the number [z]. *)
Definition order_of (h : raw_hit) : option Z :=
  match obj_get "order" (_source h) with
  | VNum z => Some z
  | _ => None
  end.

(** ** Reading a string literal back

    The inverse of [escape_char], used to show that [JSON_stringify]
    loses nothing. *)

Definition unhex (c : ascii) : option nat :=
  let n := nat_of_ascii c in
  if Nat.leb 48 n && Nat.leb n 57 then Some (n - 48)%nat
  else if Nat.leb 97 n && Nat.leb n 102 then Some (n - 87)%nat
  else None.

(** The code unit that the text [s] starts with inside a string
    literal, and the rest of [s]; [None] at the closing quote. *)
Definition unescape_char (s : string) : option (ascii * string) :=
  match s with
  | EmptyString => None
  | String c r =>
      if Ascii.eqb c dquote then None
      else if Ascii.eqb c backslash then
        match r with
        | EmptyString => None
        | String e r' =>
            if Ascii.eqb e dquote then Some (dquote, r')
            else if Ascii.eqb e backslash then Some (backslash, r')
            else if Ascii.eqb e "b" then Some (ascii_of_nat 8, r')
            else if Ascii.eqb e "t" then Some (ascii_of_nat 9, r')
            else if Ascii.eqb e "n" then Some (ascii_of_nat 10, r')
            else if Ascii.eqb e "f" then Some (ascii_of_nat 12, r')
            else if Ascii.eqb e "r" then Some (ascii_of_nat 13, r')
            else if Ascii.eqb e "u" then
              match r' with
              | String _ (String _ (String h1 (String h2 r''))) =>
                  match unhex h1, unhex h2 with
                  | Some a, Some b => Some (ascii_of_nat (16 * a + b), r'')
                  | _, _ => None
                  end
              | _ => None
              end
            else None
        end
      else Some (c, r)
  end.

Definition is_digit (c : ascii) : bool :=
  let n := nat_of_ascii c in Nat.leb 48 n && Nat.leb n 57.

(** The text [r] does not go on with a digit. *)
Definition starts_nondigit (r : string) : Prop :=
  match r with
  | EmptyString => True
  | String c _ => is_digit c = false
  end.

(** The text [r] starts with what follows a property in an object. *)
Definition delimited (r : string) : Prop :=
  match r with
  | EmptyString => False
  | String c _ => c = ","%char \/ c = "}"%char
  end.

(** What follows the first property in the text of an object. *)
Definition props_tail (l : list string) (r : string) : string :=
  match l with
  | [] => String "}" r
  | _ :: _ => String "," (join_comma l ++ String "}" r)
  end.

(** ** Notions used in the statements *)

(** A call did not end with a fulfilled promise. *)
Definition failed {A} (out : completion (promise A)) : Prop :=
  match out with
  | Normal (Fulfilled _) => False
  | _ => True
  end.

(** The state in which [cached] proceeds after its lookup of [key]. *)
Definition after_lookup {V} (key : string) (st : state V) : state V :=
  set_cache (snd (lru_get key (cache st))) st.

(** What [summary] and [hits] have in common: the interval is checked
    and written back into the caller's option bag, then the call goes
    through [cached] under [name]. *)
Definition normalized_call (name : string)
    (fetch : loc -> M result (completion (promise result)))
    (opts : loc) : M result (completion (promise result)) :=
  fun st =>
    match heap st !! opts with
    | None => (Throw (TypeError "Cannot read property interval of undefined"), st)
    | Some o =>
        match _intervalFrom o with
        | Throw e => (Throw e, st)
        | Normal interval =>
            let o := obj_set "interval" interval o in
            let st := set_heap (<[opts := o]> (heap st)) st in
            cached truthy_result name o (fetch opts) st
        end
    end.

(** A fetch function that makes one round trip to the index with the
    request [req o] built from the option bag and hands the response to
    [build o]. *)
Definition round_trip (es_search : request -> promise response)
    (req : obj -> request) (build : obj -> response -> completion result)
    (opts : loc) : M result (completion (promise result)) :=
  fun st =>
    match heap st !! opts with
    | None => (Throw (TypeError "Cannot read property query of undefined"), st)
    | Some o =>
        (Normal (promise_then (es_search (req o)) (build o)),
         log_request (req o) st)
    end.

(** ** An index for the examples *)

Definition example_person (id party : string) : option (list raw_hit) :=
  Some [mkHit (VStr "speech-1") (VNum 1) None
              [("external_id", VStr id); ("party", VStr party)]].

Definition example_aggregations : aggregations :=
  mkAggregations
    (mkAggregation
       [mkBucket "1388534400000" (Some "2014-01-01") 10 None;
        mkBucket "1391212800000" (Some "2014-02-01") 20 None;
        mkBucket "1393632000000" (Some "2014-03-01") 30 None])
    (mkAggregation
       [mkBucket "A" None 30 None; mkBucket "NKP" None 5 None;
        mkBucket "H" None 25 None])
    (mkAggregation
       [mkBucket "Kari" None 10 None; mkBucket "Ola" None 10 None;
        mkBucket "Per" None 40 None])
    (mkAggregation
       [mkBucket "1391212800000" (Some "2014-02-01") 5 None])
    (mkAggregation
       [mkBucket "A" None 3 None; mkBucket "NKP" None 2 None])
    (mkAggregation
       [mkBucket "Kari" None 3 (example_person "KN" "A");
        mkBucket "Ola" None 2 (example_person "ON" "NKP")]).

Definition example_response : response :=
  mkResponse (Some []) 5 (Some example_aggregations).

(** An index that answers every request with [example_response]. *)
Definition example_es (r : request) : promise response :=
  Fulfilled example_response.

(** The parties of the example that are current. *)
Definition example_isCurrent (k : string) : bool :=
  String.eqb k "A" || String.eqb k "H".

(** The instants of the timeline keys of the example. *)
Definition example_instant (k : string) : Z :=
  if String.eqb k "2014-01-01" then 1388534400000
  else if String.eqb k "2014-02-01" then 1391212800000
  else if String.eqb k "2014-03-01" then 1393632000000
  else 0.

(** ** Notions used in the statements on summaries *)

(** [k] is the key of a bucket of the aggregation [a]. *)
Definition has_key (a : aggregation) (k : string) : Prop :=
  exists b, In b (buckets a) /\ bucket_key b = k.

(** ** Notions used in the statements on [getContext] *)

(** The document belongs to transcript [id] and its order is a number
    between [start] and [end_]. *)
Definition in_context (id : string) (start end_ : Z) (h : raw_hit) : bool :=
  of_transcript id h
  && match order_of h with
     | Some z => Z.leb start z && Z.leb z end_
     | None => false
     end.

(** An index client that holds [corpus] and answers context requests
    only. *)
Definition context_es (corpus : list raw_hit) (r : request) : promise response :=
  match r with
  | SearchContext filter size sort => Fulfilled (index_answer corpus filter size sort)
  | _ => Rejected (Error "not a context request")
  end.

Definition example_speech (id : string) (order : Z) (text : string) : raw_hit :=
  mkHit (VStr id) VNull None
        [("transcript", VStr "T1"); ("order", VNum order); ("text", VStr text)].

(** A transcript of ten speeches, stored out of order. *)
Definition example_corpus : list raw_hit :=
  [example_speech "s4" 4 "fire"; example_speech "s9" 9 "ni";
   example_speech "s1" 1 "en"; example_speech "s7" 7 "sju";
   example_speech "s3" 3 "tre"; example_speech "s10" 10 "ti";
   example_speech "s5" 5 "fem"; example_speech "s2" 2 "to";
   example_speech "s8" 8 "atte"; example_speech "s6" 6 "seks"].

(** A transcript in which two speeches carry the same order. *)
Definition example_corpus_repeated : list raw_hit :=
  [example_speech "s3a" 3 "tre"; example_speech "s3b" 3 "tre igjen"].

(** ** The export of hits as tab separated values *)

Definition TSV_HEADERS : list string :=
  ["transcript"; "order"; "session"; "time"; "presidents"; "title"; "name";
   "party"; "text"].

(** The search that the [ReadableSearch] of [getHitStreamAsTsv] runs for
    the page that starts at [start]:
    [es.search(this._buildHitsQuery(Object.assign({}, opts, {start: start})), callback)]. *)
Definition export_page_request (opts : obj) (start : Z) : request :=
  _buildHitsQuery (Object_assign (Object_assign [] opts) [("start", VNum start)]).

(** A field of a stored document as the export reads it: a primitive,
    or an array such as the list of presidents. *)
Inductive field : Type :=
| Prim (v : value)
| Arr (items : list value).

Definition document : Type := dict field.

(** The text of one element in [items.join(sep)]. *)
Definition join_item (v : value) : string :=
  match v with
  | VUndefined | VNull => EmptyString
  | _ => to_string v
  end.

(** [items.join(sep)]. *)
Fixpoint Array_join (sep : string) (items : list value) : string :=
  match items with
  | [] => EmptyString
  | [x] => join_item x
  | x :: l => join_item x ++ sep ++ Array_join sep l
  end.

(** The handler that [getHitStreamAsTsv] gives to [csv.transform], on
    the [_source] of a record: the row of cells, [None] for a column
    that the document lacks, and the document as the handler leaves it.
    Only an array has a [join]. *)
Definition tsv_row (source : document) : completion (list (option field) * document) :=
  match dict_get "presidents" source with
  | Some (Arr items) =>
      let source :=
        dict_set "presidents" (Prim (VStr (Array_join "," items))) source in
      Normal (map (fun k => dict_get k source) TSV_HEADERS, source)
  | _ => Throw (TypeError "record._source.presidents.join is not a function")
  end.

(** ** Notions used in the statements on the other operations *)

(** The character [c] occurs in [s]. *)
Fixpoint has_char (c : ascii) (s : string) : bool :=
  match s with
  | EmptyString => false
  | String x s' => Ascii.eqb x c || has_char c s'
  end.

(** A raw hit on which [_buildHit] does not throw: its highlight, if it
    has one, has fragments for the text field. *)
Definition well_highlighted (h : raw_hit) : Prop :=
  forall hl, highlight h = Some hl -> text hl <> None.

(** A request for aggregations with an allowed interval. *)
Definition allowed_aggregations_request (q : request) : Prop :=
  exists i query,
    q = SearchAggregations i (_queryFor query) /\ In i ALLOWED_INTERVALS.

(** The context request of [getContext]. *)
Definition context_request (id : string) (start end_ : Z) : request :=
  SearchContext
    (AndFilters [Term "transcript" (VStr id); Range "order" start end_])
    (end_ - start + 1) "order".

(** An example document with its list of presidents. *)
Definition example_document : document :=
  [("transcript", Prim (VStr "T1")); ("order", Prim (VNum 3));
   ("presidents", Arr [VStr "Olemic Thommessen"; VStr "Marit Nybakk"]);
   ("name", Prim (VStr "Kari")); ("text", Prim (VStr "tre"))].





(** An index that answers every request with the ten speeches of the
    example transcript as hits. *)
Definition example_hits_es (r : request) : promise response :=
  Fulfilled (mkResponse (Some example_corpus) 10 None).

(** ** Notions used in the statements on the aggregations *)

(** [b] is the last bucket of [bs] with its key, [kf] giving the key of
    a bucket. *)
Definition last_with_key (kf : bucket -> string) (bs : list bucket) (b : bucket)
    : Prop :=
  exists pre post,
    bs = (pre ++ b :: post)%list /\ forall b', In b' post -> kf b' <> kf b.

(** [bucket.person.hits.hits[0]], when the bucket has it. *)
Definition top_hit (b : bucket) : option raw_hit :=
  match person b with
  | Some (h :: _) => Some h
  | _ => None
  end.




(** An aggregation in which a key comes twice. *)
Definition example_counts : aggregation :=
  mkAggregation
    [mkBucket "A" None 1 None; mkBucket "B" None 2 None; mkBucket "A" None 3 None].

(** ** A service in use *)







(** * The percentages on the objects and numbers of the language

    The module [Js] embeds the part of the service that builds the
    percentages once more, without the two conventions on property
    names and on numbers: a dictionary is a plain object, which
    inherits the members of [Object.prototype], which lists its array
    indices first, and in which an assignment to [__proto__] creates no
    property; a number is a double, [NaN] or [Infinity]. *)

Module Js.

(** ** Plain objects *)

(** The names of the members of [Object.prototype]. *)
Definition prototype_members : list string :=
  ["constructor"; "__defineGetter__"; "__defineSetter__"; "hasOwnProperty";
   "__lookupGetter__"; "__lookupSetter__"; "isPrototypeOf";
   "propertyIsEnumerable"; "toString"; "valueOf"; "__proto__";
   "toLocaleString"].

Definition is_member (k : string) : bool :=
  existsb (String.eqb k) prototype_members.

(** The number that the property name [k] is an array index of: [k] is
    the decimal numeral, without leading zeros, of a number below
    [2^32 - 1]. *)
Definition array_index (k : string) : option N :=
  match NilEmpty.uint_of_string k with
  | Some u =>
      let n := N.of_uint u in
      if String.eqb (NilZero.string_of_uint (N.to_uint n)) k
         && N.leb n 4294967294
      then Some n
      else None
  | None => None
  end.

Definition by_index (a b : N * string) : Q :=
  inject_Z (Z.of_N (fst a) - Z.of_N (fst b)).

Definition index_keys (ks : list string) : list (N * string) :=
  flat_map (fun k => match array_index k with
                     | Some n => [(n, k)]
                     | None => []
                     end) ks.

Definition named_keys (ks : list string) : list string :=
  filter (fun k => match array_index k with
                   | Some _ => false
                   | None => true
                   end) ks.

(** [Object.keys(o)]: the array indices in ascending order, then the
    other property names in the order in which they were created. *)
Definition Object_keys {A} (o : dict A) : list string :=
  (map snd (Array_sort by_index (index_keys (map fst o)))
   ++ named_keys (map fst o))%list.

(** [counts[k] = n] for a number [n]: the setter that [__proto__] names
    ignores a number. *)
Definition count_set (k : string) (n : nat) (counts : dict nat) : dict nat :=
  if String.eqb k "__proto__" then counts else dict_set k n counts.

(** [_parseAggregation(aggregation)]. *)
Definition _parseAggregation (a : aggregation) : dict nat :=
  fold_left (fun counts b => count_set (bucket_key b) (doc_count b) counts)
            (buckets a) [].

(** What [counts[key] || 0.0] can be: a number, or the member of
    [Object.prototype] that [key] names. *)
Inductive amount : Type :=
| Count (n : nat)
| Member (name : string).

(** [counts[key] || 0.0]. *)
Definition count_or_zero (k : string) (counts : dict nat) : amount :=
  match dict_get k counts with
  | Some n => Count n
  | None => if is_member k then Member k else Count 0
  end.

(** ** Numbers *)

(** The numbers that arise from counts, which are not negative. *)
Inductive number : Type :=
| NaN
| Infinity
| Finite (q : Q).

(** The integer nearest to [n / d], the even one of two that are equally
    near; [d] is positive. *)
Definition round_half_even (n d : Z) : Z :=
  let f := (n / d)%Z in
  match (2 * (n mod d) ?= d)%Z with
  | Lt => f
  | Gt => (f + 1)%Z
  | Eq => if Z.even f then f else (f + 1)%Z
  end.

(** The [l] with [2^l <= n / d < 2^(l+1)], for positive [n] and [d]. *)
Definition floor_log2 (n d : Z) : Z :=
  let l := (Z.log2 n - Z.log2 d)%Z in
  if (if 0 <=? l then d * 2 ^ l <=? n else d <=? n * 2 ^ (- l))%Z
  then l
  else (l - 1)%Z.

(** The double nearest to [n / d], for [n] not negative and [d]
    positive: 53 binary digits, the exponent of the last digit at least
    [-1074], ties to the even significand, [Infinity] from [2^1024]
    on. *)
Definition nearest (n d : Z) : number :=
  if (n <=? 0)%Z then Finite 0
  else
    let e := Z.max (floor_log2 n d - 52) (-1074) in
    if (0 <=? e)%Z then
      let m := round_half_even n (d * 2 ^ e) in
      if (2 ^ 1024 <=? m * 2 ^ e)%Z then Infinity
      else Finite (inject_Z (m * 2 ^ e))
    else
      Finite (round_half_even (n * 2 ^ (- e)) d # Z.to_pos (2 ^ (- e))).

(** [val / total]; a member of [Object.prototype] is not a number. *)
Definition divide (val total : amount) : number :=
  match val, total with
  | Count v, Count t =>
      if Nat.eqb t 0 then (if Nat.eqb v 0 then NaN else Infinity)
      else nearest (Z.of_nat v) (Z.of_nat t)
  | _, _ => NaN
  end.

(** [x * k] for a positive integer [k]. *)
Definition times (x : number) (k : Z) : number :=
  match x with
  | NaN => NaN
  | Infinity => Infinity
  | Finite q => nearest (Qnum q * k) (Zpos (Qden q))
  end.

(** ** Entries *)

(** What [personMap[key]] can be: a stored document, a field of a
    stored document, a member of [Object.prototype], or [undefined]. *)
Inductive meta : Type :=
| Document (o : obj)
| Primitive (v : value)
| Inherited (name : string)
| Undefined.

Record PercentageEntry : Type := mkEntry {
  entry_key : string;
  entry_count : amount;
  entry_total : amount;
  entry_pct : number;
  entry_meta : meta
}.

(** [_calculatePercentages(subset, set, opts)]; [combineKeys] is
    [opts && opts.combineKeys]. *)
Definition _calculatePercentages (subset set : dict nat) (combineKeys : bool)
    : list PercentageEntry :=
  let keys :=
    if combineKeys then
      let keys := (Object_keys subset ++ Object_keys set)%list in
      filter_indexed (fun k i => Z.eqb (indexOf String.eqb k keys) i) 0 keys
    else Object_keys subset in
  map (fun key =>
         let total := count_or_zero key set in
         let val := count_or_zero key subset in
         mkEntry key val total
                 (match total with
                  | Count O => Finite 0
                  | _ => times (divide val total) 100
                  end)
                 Undefined)
      keys.

(** ** The map of the speakers *)

(** The object [map] of [_buildPersonMap]: its own properties and, once
    an assignment to [__proto__] has replaced [Object.prototype] by a
    stored document, that document. *)
Record person_map : Type := mkPersonMap {
  own : dict obj;
  proto : option obj
}.

(** Whether [__proto__] names a data property of the map or of the
    stored document that is its prototype, as it does once a stored
    document with a field of that name has become the prototype: an
    assignment to [__proto__] then no longer reaches the setter of
    [Object.prototype]. *)
Definition shadowed (m : person_map) : bool :=
  match dict_get "__proto__" (own m) with
  | Some _ => true
  | None =>
      match proto m with
      | Some source =>
          match dict_get "__proto__" source with
          | Some _ => true
          | None => false
          end
      | None => false
      end
  end.

(** [map[k] = source] for a stored document [source]. *)
Definition person_set (k : string) (source : obj) (m : person_map) : person_map :=
  if String.eqb k "__proto__" && negb (shadowed m)
  then mkPersonMap (own m) (Some source)
  else mkPersonMap (dict_set k source (own m)) (proto m).

(** [personMap[k]]. *)
Definition person_get (k : string) (m : person_map) : meta :=
  match dict_get k (own m) with
  | Some o => Document o
  | None =>
      match proto m with
      | Some source =>
          match dict_get k source with
          | Some v => Primitive v
          | None =>
              if String.eqb k "__proto__" then Document source
              else if is_member k then Inherited k
              else Undefined
          end
      | None => if is_member k then Inherited k else Undefined
      end
  end.

(** [_buildPersonMap(aggregation)]. *)
Definition _buildPersonMap (a : aggregation) : completion person_map :=
  fold_left
    (fun (acc : completion person_map) b =>
       match acc with
       | Throw e => Throw e
       | Normal map =>
           match person b with
           | Some (h :: _) => Normal (person_set (key b) (_source h) map)
           | _ => Throw (TypeError "Cannot read property of undefined")
           end
       end)
    (buckets a) (Normal (mkPersonMap [] None)).

(** [d.meta = personMap[d.key]]. *)
Definition set_meta (personMap : person_map) (d : PercentageEntry) : PercentageEntry :=
  mkEntry (entry_key d) (entry_count d) (entry_total d) (entry_pct d)
          (person_get (entry_key d) personMap).

(** The [people] array of [_buildResponse], before it is sorted. *)
Definition people_entries (aggs : aggregations) (personMap : person_map)
    : list PercentageEntry :=
  map (set_meta personMap)
      (_calculatePercentages (_parseAggregation (agg_filteredPeople aggs))
                             (_parseAggregation (agg_people aggs)) false).

(** The [timeline] array of [_buildResponse], before it is sorted and
    trimmed. *)
Definition timeline_entries (aggs : aggregations) : list PercentageEntry :=
  _calculatePercentages (_parseAggregation (agg_filteredTimeline aggs))
                        (_parseAggregation (agg_timeline aggs)) true.

(** The percentages of the parties, before the current ones are kept. *)
Definition parties_entries (aggs : aggregations) : list PercentageEntry :=
  _calculatePercentages (_parseAggregation (agg_filteredParties aggs))
                        (_parseAggregation (agg_parties aggs)) false.

(** ** The doubles of the Standard Library *)

(** The number that a float of the Standard Library's specification of
    IEEE 754 arithmetic stands for. *)
Definition of_float (x : spec_float) : number :=
  match x with
  | S754_zero _ => Finite 0
  | S754_infinity _ => Infinity
  | S754_nan => NaN
  | S754_finite _ m e =>
      if (0 <=? e)%Z then Finite (inject_Z (Zpos m * 2 ^ e))
      else Finite (Zpos m # Z.to_pos (2 ^ (- e)))
  end.

Definition to_float (n : nat) : spec_float :=
  binary_normalize 53 1024 (Z.of_nat n) 0 false.

(** [(val / total) * 100] in that arithmetic. *)
Definition ieee_percentage (val total : nat) : number :=
  of_float (SFmul 53 1024 (SFdiv 53 1024 (to_float val) (to_float total))
                  (to_float 100)).

Definition same_number (x y : number) : bool :=
  match x, y with
  | NaN, NaN => true
  | Infinity, Infinity => true
  | Finite p, Finite q => Qeq_bool p q
  | _, _ => false
  end.

(** The pairs [(val, total)] with [total] from [1] to [n] and [val] up
    to [total]. *)
Definition pairs_below (n : nat) : list (nat * nat) :=
  flat_map (fun t => map (fun v => (v, t)) (seq 0 (S t))) (seq 1 n).

End Js.

(** ** Notions used in the statements on the percentages *)

(** A property name as the conventions of the embedding have it: no
    array index and no member of [Object.prototype]. *)
Definition ordinary_name (k : string) : Prop :=
  Js.array_index k = None /\ Js.is_member k = false.

(** An entry as the embedding with exact percentages has it, and the
    same entry as the language computes it: the same key and counts,
    and a percentage that differs from the exact one by at most the
    fraction [2^-51] of it, for counts below [2^53]. *)
Definition agree (e : PercentageEntry) (e' : Js.PercentageEntry) : Prop :=
  Js.entry_key e' = entry_key e
  /\ Js.entry_count e' = Js.Count (entry_count e)
  /\ Js.entry_total e' = Js.Count (entry_total e)
  /\ ((Z.of_nat (entry_count e) < 2 ^ 53)%Z ->
      (Z.of_nat (entry_total e) < 2 ^ 53)%Z ->
      exists p,
        Js.entry_pct e' = Js.Finite p
        /\ entry_pct e * (1 - 2 ^ (-51)) <= p
        /\ p <= entry_pct e * (1 + 2 ^ (-51))).

(** The buckets whose key is not [__proto__]. *)
Definition settable (kf : bucket -> string) (bs : list bucket) : list bucket :=
  filter (fun b => negb (String.eqb (kf b) "__proto__")) bs.

(** The stored document of the top hit of a bucket of speakers. *)
Definition top_source (b : bucket) : obj :=
  match top_hit b with
  | Some h => _source h
  | None => []
  end.

(** No stored document of a bucket called [__proto__] has a field of
    that name. *)
Definition plain_prototypes (bs : list bucket) : Prop :=
  forall b, In b bs -> key b = "__proto__" ->
            dict_get "__proto__" (top_source b) = None.


(** An aggregation with keys that are array indices. *)
Definition example_index_counts : aggregation :=
  mkAggregation
    [mkBucket "10" None 1 None; mkBucket "Kari" None 2 None;
     mkBucket "9" None 3 None].

(** Speakers of whom one is called [__proto__] and one is entered under
    a [key_as_string]. *)
Definition example_prototype_people : aggregations :=
  mkAggregations
    (mkAggregation []) (mkAggregation []) (mkAggregation [])
    (mkAggregation []) (mkAggregation [])
    (mkAggregation
       [mkBucket "__proto__" None 2 (example_person "PN" "A");
        mkBucket "7" (Some "party") 1 (example_person "ON" "NKP")]).

(** Speakers of whom two are called [__proto__], the stored document of
    the first of them having a field of that name. *)
Definition example_shadowed_people : aggregations :=
  mkAggregations
    (mkAggregation []) (mkAggregation []) (mkAggregation [])
    (mkAggregation []) (mkAggregation [])
    (mkAggregation
       [mkBucket "__proto__" None 2
          (Some [mkHit (VStr "speech-1") (VNum 1) None
                       [("__proto__", VStr "x"); ("party", VStr "A")]]);
        mkBucket "__proto__" None 3 (example_person "ON" "NKP");
        mkBucket "7" (Some "party") 1 (example_person "QN" "H")]).

(** * Properties *)

(** ** Strings *)

Lemma append_assoc (a b c : string) : (a ++ b) ++ c = a ++ (b ++ c).
Proof. induction a as [|x a IH]; simpl; [reflexivity | now rewrite IH]. Qed.

Lemma append_inv_head (a b c : string) : a ++ b = a ++ c -> b = c.
Proof.
  induction a as [|x a IH]; simpl; intros H; [exact H|].
  injection H as H. auto.
Qed.

(** ** [JSON_stringify] loses nothing *)

Lemma unescape_escape (c : ascii) (r : string) :
  unescape_char (escape_char c ++ r) = Some (c, r).
Proof. destruct c as [[] [] [] [] [] [] [] []]; reflexivity. Qed.

Lemma unescape_dquote (r : string) : unescape_char (String dquote r) = None.
Proof. reflexivity. Qed.

Lemma escape_inj (s1 : string) :
  forall s2 r1 r2,
    escape s1 ++ String dquote r1 = escape s2 ++ String dquote r2 ->
    s1 = s2 /\ r1 = r2.
Proof.
  induction s1 as [|c1 s1 IH]; intros [|c2 s2] r1 r2 H; simpl in H.
  - injection H as H. auto.
  - rewrite append_assoc in H. apply (f_equal unescape_char) in H.
    rewrite unescape_dquote, unescape_escape in H. discriminate.
  - rewrite append_assoc in H. apply (f_equal unescape_char) in H.
    rewrite unescape_dquote, unescape_escape in H. discriminate.
  - rewrite !append_assoc in H. apply (f_equal unescape_char) in H.
    rewrite !unescape_escape in H. injection H as Hc Ht.
    destruct (IH _ _ _ Ht) as [-> ->]. now subst.
Qed.

Lemma quote_inj (s1 s2 r1 r2 : string) :
  quote s1 ++ r1 = quote s2 ++ r2 -> s1 = s2 /\ r1 = r2.
Proof.
  unfold quote. simpl. rewrite !append_assoc. simpl.
  intros H. injection H as H. now apply escape_inj.
Qed.

Lemma uint_text_inj (u1 : Decimal.uint) :
  forall u2 r1 r2,
    NilEmpty.string_of_uint u1 ++ r1 = NilEmpty.string_of_uint u2 ++ r2 ->
    starts_nondigit r1 -> starts_nondigit r2 ->
    u1 = u2 /\ r1 = r2.
Proof.
  induction u1 as [|u1 IH|u1 IH|u1 IH|u1 IH|u1 IH|u1 IH|u1 IH|u1 IH|u1 IH|u1 IH];
    intros [|u2|u2|u2|u2|u2|u2|u2|u2|u2|u2] r1 r2 H N1 N2; simpl in H;
    try discriminate H;
    try (subst r1; simpl in N1; discriminate N1);
    try (subst r2; simpl in N2; discriminate N2);
    try (injection H as H; destruct (IH _ _ _ H N1 N2) as [-> ->]; auto).
  auto.
Qed.

Lemma uint_text_head (u : Decimal.uint) :
  u <> Decimal.Nil ->
  exists c s, NilEmpty.string_of_uint u = String c s /\ is_digit c = true.
Proof. destruct u; intros H; try congruence; simpl; eauto. Qed.

Lemma number_to_string_head (z : Z) :
  exists c s, number_to_string z = String c s
              /\ (is_digit c = true \/ c = "-"%char).
Proof.
  unfold number_to_string.
  destruct z as [|p|p]; simpl.
  - eauto.
  - pose proof (Unsigned.to_uint_nonnil p) as Hn.
    destruct (uint_text_head _ Hn) as (c & s & E & D).
    unfold NilZero.string_of_uint.
    destruct (Pos.to_uint p); try congruence; rewrite E; eauto.
  - eauto.
Qed.

Lemma nilzero_nonnil (u : Decimal.uint) :
  u <> Decimal.Nil -> NilZero.string_of_uint u = NilEmpty.string_of_uint u.
Proof. destruct u; congruence || reflexivity. Qed.

Lemma to_int_text (z : Z) :
  exists u, u <> Decimal.Nil
    /\ (Z.to_int z = Decimal.Pos u \/ Z.to_int z = Decimal.Neg u).
Proof.
  destruct z as [|p|p]; simpl.
  - exists (Decimal.D0 Decimal.Nil). split; [discriminate | auto].
  - exists (Pos.to_uint p). split; [apply Unsigned.to_uint_nonnil | auto].
  - exists (Pos.to_uint p). split; [apply Unsigned.to_uint_nonnil | auto].
Qed.

Lemma number_to_string_inj (z1 z2 : Z) (r1 r2 : string) :
  number_to_string z1 ++ r1 = number_to_string z2 ++ r2 ->
  starts_nondigit r1 -> starts_nondigit r2 ->
  z1 = z2 /\ r1 = r2.
Proof.
  unfold number_to_string. intros H N1 N2.
  destruct (to_int_text z1) as (u1 & U1 & E1).
  destruct (to_int_text z2) as (u2 & U2 & E2).
  assert (Z.to_int z1 = Z.to_int z2 /\ r1 = r2) as [E ->].
  { destruct E1 as [E1|E1], E2 as [E2|E2]; rewrite E1, E2 in *; simpl in H;
      rewrite ?(nilzero_nonnil _ U1), ?(nilzero_nonnil _ U2) in H.
    - destruct (uint_text_inj _ _ _ _ H N1 N2) as [-> ->]. auto.
    - destruct (uint_text_head _ U1) as (c & s & Ec & D). rewrite Ec in H.
      simpl in H. injection H as Hc _. subst c. discriminate D.
    - destruct (uint_text_head _ U2) as (c & s & Ec & D). rewrite Ec in H.
      simpl in H. injection H as Hc _. subst c. discriminate D.
    - injection H as H.
      destruct (uint_text_inj _ _ _ _ H N1 N2) as [-> ->]. auto. }
  split; [now apply to_int_inj | reflexivity].
Qed.

Lemma delimited_nondigit (r : string) : delimited r -> starts_nondigit r.
Proof. destruct r as [|c r]; simpl; [auto | intros [-> | ->]; reflexivity]. Qed.

Lemma stringify_value_inj (v1 v2 : value) (s1 s2 r1 r2 : string) :
  stringify_value v1 = Some s1 -> stringify_value v2 = Some s2 ->
  s1 ++ r1 = s2 ++ r2 -> delimited r1 -> delimited r2 ->
  v1 = v2 /\ r1 = r2.
Proof.
  intros E1 E2 H D1 D2.
  destruct v1 as [| |[|]|z1|t1], v2 as [| |[|]|z2|t2]; simpl in E1, E2;
    try discriminate E1; try discriminate E2;
    injection E1 as <-; injection E2 as <-;
    try (simpl in H; discriminate H);
    try (simpl in H; injection H as ->; auto; fail);
    try (destruct (number_to_string_head z2) as (c & s & Ec & [Dg | ->]);
         rewrite Ec in H; simpl in H; injection H as Hc _;
         [subst c; discriminate Dg | discriminate Hc]);
    try (destruct (number_to_string_head z1) as (c & s & Ec & [Dg | ->]);
         rewrite Ec in H; simpl in H; injection H as Hc _;
         [subst c; discriminate Dg | discriminate Hc]).
  - apply delimited_nondigit in D1, D2.
    destruct (number_to_string_inj _ _ _ _ H D1 D2) as [-> ->]. auto.
  - destruct (quote_inj _ _ _ _ H) as [-> ->]. auto.
Qed.

Lemma stringify_props_defined (o : obj) :
  stringify_props (defined_props o) = stringify_props o.
Proof.
  induction o as [|[k v] o IH]; simpl; [reflexivity|].
  destruct v; simpl; now rewrite ?IH.
Qed.

Lemma join_comma_cons (s : string) (l : list string) (r : string) :
  join_comma (s :: l) ++ String "}" r = s ++ props_tail l r.
Proof.
  destruct l as [|x l]; simpl; [reflexivity|].
  now rewrite append_assoc.
Qed.

Lemma props_tail_delimited (l : list string) (r : string) :
  delimited (props_tail l r).
Proof. destruct l; simpl; auto. Qed.

Lemma stringify_props_defined_cons (k : string) (v : value) (o : obj) :
  v <> VUndefined ->
  exists s, stringify_value v = Some s
    /\ stringify_props ((k, v) :: o) = (quote k ++ ":" ++ s) :: stringify_props o.
Proof.
  intros Hv. destruct v as [| |[|]|z|t]; try congruence; simpl; eauto.
Qed.

Lemma defined_props_Forall (o : obj) :
  Forall (fun p => snd p <> VUndefined) (defined_props o).
Proof.
  unfold defined_props. apply Forall_forall. intros [k v] Hin.
  apply filter_In in Hin as [_ Hv]. simpl in *. destruct v; simpl in Hv; congruence.
Qed.

Lemma stringify_props_nil (l : obj) :
  Forall (fun p => snd p <> VUndefined) l -> stringify_props l = [] -> l = [].
Proof.
  destruct l as [|[k v] l]; [reflexivity|].
  intros F E. inversion F as [|? ? Hv _]; subst; simpl in Hv.
  destruct (stringify_props_defined_cons k v l Hv) as (s & _ & E').
  congruence.
Qed.

Lemma stringify_props_inj (l1 : obj) :
  forall l2 r1 r2,
    Forall (fun p => snd p <> VUndefined) l1 ->
    Forall (fun p => snd p <> VUndefined) l2 ->
    join_comma (stringify_props l1) ++ String "}" r1
    = join_comma (stringify_props l2) ++ String "}" r2 ->
    l1 = l2 /\ r1 = r2.
Proof.
  induction l1 as [|[k1 v1] l1 IH]; intros [|[k2 v2] l2] r1 r2 F1 F2 H.
  - simpl in H. injection H as ->. auto.
  - inversion F2 as [|? ? Hv _]; subst; simpl in Hv.
    destruct (stringify_props_defined_cons k2 v2 l2 Hv) as (s & _ & E).
    rewrite E, join_comma_cons in H. discriminate H.
  - inversion F1 as [|? ? Hv _]; subst; simpl in Hv.
    destruct (stringify_props_defined_cons k1 v1 l1 Hv) as (s & _ & E).
    rewrite E, join_comma_cons in H. discriminate H.
  - inversion F1 as [|? ? Hv1 F1']; subst; simpl in Hv1.
    inversion F2 as [|? ? Hv2 F2']; subst; simpl in Hv2.
    destruct (stringify_props_defined_cons k1 v1 l1 Hv1) as (s1 & S1 & E1).
    destruct (stringify_props_defined_cons k2 v2 l2 Hv2) as (s2 & S2 & E2).
    rewrite E1, E2, !join_comma_cons, !append_assoc in H.
    destruct (quote_inj _ _ _ _ H) as [-> H'].
    simpl in H'. injection H' as H'.
    destruct (stringify_value_inj _ _ _ _ _ _ S1 S2 H'
                (props_tail_delimited _ _) (props_tail_delimited _ _)) as [-> HT].
    assert (l1 = l2 /\ r1 = r2) as [-> ->]; [|auto].
    destruct (stringify_props l1) as [|x1 t1] eqn:P1,
             (stringify_props l2) as [|x2 t2] eqn:P2; simpl in HT.
    + injection HT as ->.
      rewrite (stringify_props_nil _ F1' P1), (stringify_props_nil _ F2' P2). auto.
    + discriminate HT.
    + discriminate HT.
    + injection HT as HT. apply (IH l2 r1 r2 F1' F2').
      rewrite ?P1, ?P2. exact HT.
Qed.

Lemma JSON_stringify_inj (o1 o2 : obj) :
  JSON_stringify o1 = JSON_stringify o2 <-> defined_props o1 = defined_props o2.
Proof.
  unfold JSON_stringify. split.
  - intros H. simpl in H. injection H as H.
    rewrite <- (stringify_props_defined o1), <- (stringify_props_defined o2) in H.
    apply (stringify_props_inj _ _ EmptyString EmptyString
             (defined_props_Forall o1) (defined_props_Forall o2)).
    exact H.
  - intros H.
    now rewrite <- (stringify_props_defined o1), <- (stringify_props_defined o2), H.
Qed.

Lemma cacheKey_inj (name : string) (o1 o2 : obj) :
  cacheKey name o1 = cacheKey name o2 <-> defined_props o1 = defined_props o2.
Proof.
  unfold cacheKey. rewrite <- JSON_stringify_inj. split.
  - intros H. apply append_inv_head in H. now apply (append_inv_head ":") in H.
  - now intros ->.
Qed.

(** ** Objects *)

Lemma dict_get_not_in {A} (k : string) (o : dict A) :
  ~ In k (Object_keys o) -> dict_get k o = None.
Proof.
  induction o as [|[k' v] o IH]; simpl; [reflexivity|].
  intros Hn. destruct (String.eqb_spec k k') as [->|Hne].
  - exfalso. apply Hn. now left.
  - apply IH. intros Hin. apply Hn. now right.
Qed.

Lemma defined_props_keys (k : string) (o : obj) :
  In k (Object_keys (defined_props o)) -> In k (Object_keys o).
Proof.
  unfold Object_keys, defined_props. rewrite !in_map_iff.
  intros (p & E & Hin). apply filter_In in Hin as [Hin _]. eauto.
Qed.

Lemma obj_get_defined (k : string) (o : obj) :
  NoDup (Object_keys o) -> obj_get k (defined_props o) = obj_get k o.
Proof.
  unfold obj_get.
  induction o as [|[k' v] o IH]; simpl; [reflexivity|].
  intros Hnd. inversion Hnd as [|? ? Hnotin Hnd']; subst.
  destruct (String.eqb_spec k k') as [->|Hne].
  - destruct v; simpl; rewrite ?String.eqb_refl; try reflexivity.
    rewrite dict_get_not_in; [reflexivity|].
    intros Hin. apply Hnotin. now apply defined_props_keys.
  - destruct v; simpl; rewrite ?(proj2 (String.eqb_neq _ _) Hne); now apply IH.
Qed.

Lemma dict_get_set_eq {A} (k : string) (v : A) (o : dict A) :
  dict_get k (dict_set k v o) = Some v.
Proof.
  induction o as [|[k' v'] o IH]; simpl.
  - now rewrite String.eqb_refl.
  - destruct (String.eqb_spec k k') as [->|Hne]; simpl.
    + now rewrite String.eqb_refl.
    + now rewrite (proj2 (String.eqb_neq _ _) Hne).
Qed.

Lemma dict_get_set_ne {A} (k k' : string) (v : A) (o : dict A) :
  k' <> k -> dict_get k' (dict_set k v o) = dict_get k' o.
Proof.
  intros Hne. induction o as [|[k0 v0] o IH]; simpl.
  - now rewrite (proj2 (String.eqb_neq _ _) Hne).
  - destruct (String.eqb_spec k k0) as [->|Hne0]; simpl.
    + now rewrite (proj2 (String.eqb_neq _ _) Hne).
    + now rewrite IH.
Qed.

Lemma dict_set_keys_in {A} (k : string) (v : A) (o : dict A) (x : string) :
  In x (Object_keys (dict_set k v o)) <-> x = k \/ In x (Object_keys o).
Proof.
  induction o as [|[k0 v0] o IH]; simpl.
  - split; [intros [->|[]]; auto | intros [->|[]]; auto].
  - destruct (String.eqb_spec k k0) as [->|Hne]; simpl.
    + split; [intros [?|?]; auto | intros [->|[?|?]]; auto].
    + rewrite IH. tauto.
Qed.

Lemma dict_set_NoDup {A} (k : string) (v : A) (o : dict A) :
  NoDup (Object_keys o) -> NoDup (Object_keys (dict_set k v o)).
Proof.
  induction o as [|[k0 v0] o IH]; simpl; intros Hnd.
  - repeat constructor. simpl. tauto.
  - inversion Hnd as [|? ? Hnotin Hnd']; subst.
    destruct (String.eqb_spec k k0) as [->|Hne]; simpl.
    + now constructor.
    + constructor; [|now apply IH].
      intros Hin. apply dict_set_keys_in in Hin as [->|Hin]; congruence || auto.
Qed.

Lemma dict_set_set {A} (k : string) (v w : A) (o : dict A) :
  dict_set k w (dict_set k v o) = dict_set k w o.
Proof.
  induction o as [|[k0 v0] o IH]; simpl.
  - now rewrite String.eqb_refl.
  - destruct (String.eqb_spec k k0) as [->|Hne]; simpl.
    + now rewrite String.eqb_refl.
    + now rewrite (proj2 (String.eqb_neq _ _) Hne), IH.
Qed.

Lemma obj_get_set_eq (k : string) (v : value) (o : obj) :
  obj_get k (obj_set k v o) = v.
Proof. unfold obj_get, obj_set. now rewrite dict_get_set_eq. Qed.

Lemma obj_get_set_ne (k k' : string) (v : value) (o : obj) :
  k' <> k -> obj_get k' (obj_set k v o) = obj_get k' o.
Proof. intros H. unfold obj_get, obj_set. now rewrite dict_get_set_ne. Qed.

(** ** The cache *)

Lemma lru_remove_get_ne {V} (k k' : string) (l : list (string * V)) :
  k' <> k -> dict_get k' (lru_remove k l) = dict_get k' l.
Proof.
  intros Hne. induction l as [|[k0 v0] l IH]; simpl; [reflexivity|].
  destruct (String.eqb_spec k k0) as [->|Hne0]; simpl.
  - now rewrite (proj2 (String.eqb_neq _ _) Hne).
  - now rewrite IH.
Qed.

Lemma lru_get_fst {V} (k : string) (c : lru V) :
  fst (lru_get k c) = lru_peek k c.
Proof. unfold lru_get, lru_peek. now destruct (dict_get k (lru_entries c)). Qed.

(** A lookup changes the order of the entries at most, never what is
    stored under a key. *)
Lemma lru_get_peek {V} (k k' : string) (c : lru V) :
  lru_peek k' (snd (lru_get k c)) = lru_peek k' c.
Proof.
  unfold lru_get, lru_peek.
  destruct (dict_get k (lru_entries c)) as [v|] eqn:E; simpl; [|reflexivity].
  destruct (String.eqb_spec k' k) as [->|Hne]; [now rewrite E|].
  now apply lru_remove_get_ne.
Qed.

Lemma lru_get_absent {V} (k : string) (c : lru V) :
  lru_peek k c = None -> snd (lru_get k c) = c.
Proof. unfold lru_get, lru_peek. now intros ->. Qed.

Lemma lru_set_peek {V} (k : string) (v : V) (c : lru V) :
  (0 < lru_max c)%nat -> lru_peek k (lru_set k v c) = Some v.
Proof.
  unfold lru_peek, lru_set. simpl. intros Hmax.
  destruct (lru_max c) as [|n]; [lia|]. simpl. now rewrite String.eqb_refl.
Qed.

Lemma lru_remove_length {V} (k : string) (l : list (string * V)) :
  (length (lru_remove k l) <= length l)%nat.
Proof.
  induction l as [|[k0 v0] l IH]; simpl; [lia|].
  destruct (String.eqb k k0); simpl; lia.
Qed.

(** Storing under one key leaves the other keys alone while there is
    room. *)
Lemma lru_set_peek_other {V} (k k' : string) (v : V) (c : lru V) :
  k' <> k ->
  (length (lru_entries c) < lru_max c)%nat ->
  lru_peek k' (lru_set k v c) = lru_peek k' c.
Proof.
  intros Hne Hroom. unfold lru_peek, lru_set. simpl lru_entries.
  pose proof (lru_remove_length k (lru_entries c)).
  rewrite firstn_all2 by (simpl; lia).
  simpl. rewrite (proj2 (String.eqb_neq _ _) Hne).
  now apply lru_remove_get_ne.
Qed.

(** ** [cached] *)

Lemma cached_hit {V} (truthyV : V -> bool) (name : string) (data : obj)
    (fetchFunc : M V (completion (promise V))) (st : state V) (v : V) :
  lru_peek (cacheKey name data) (cache st) = Some v ->
  truthyV v = true ->
  cached truthyV name data fetchFunc st
  = (Normal (Fulfilled v), after_lookup (cacheKey name data) st).
Proof.
  intros Hpeek Htr. unfold cached, after_lookup.
  rewrite <- lru_get_fst in Hpeek.
  destruct (lru_get (cacheKey name data) (cache st)) as [hit c]. simpl in *.
  subst hit. now rewrite Htr.
Qed.

Lemma cached_miss {V} (truthyV : V -> bool) (name : string) (data : obj)
    (fetchFunc : M V (completion (promise V))) (st : state V) :
  (forall v, lru_peek (cacheKey name data) (cache st) = Some v -> truthyV v = false) ->
  cached truthyV name data fetchFunc st
  = match fetchFunc (after_lookup (cacheKey name data) st) with
    | (Normal (Fulfilled value), st2) =>
        (Normal (Fulfilled value),
         set_cache (lru_set (cacheKey name data) value (cache st2)) st2)
    | other => other
    end.
Proof.
  intros Hmiss. unfold cached, after_lookup.
  rewrite <- lru_get_fst in Hmiss.
  destruct (lru_get (cacheKey name data) (cache st)) as [[v|] c]; simpl in *.
  - now rewrite (Hmiss v eq_refl).
  - reflexivity.
Qed.

(** ** Interval validation *)

Lemma value_eqb_eq (a b : value) : value_eqb a b = true <-> a = b.
Proof.
  destruct a as [| |x|x|x], b as [| |y|y|y]; simpl;
    try (split; [discriminate | congruence]); try tauto.
  - destruct x, y; simpl; split; congruence.
  - rewrite Z.eqb_eq. split; congruence.
  - rewrite String.eqb_eq. split; congruence.
Qed.

Lemma indexOf_ge {A} (eqb : A -> A -> bool) (x : A) (l : list A) :
  (-1 <= indexOf eqb x l)%Z.
Proof.
  induction l as [|y l IH]; simpl; [lia|].
  destruct (eqb y x); [lia|].
  destruct (Z.eqb_spec (indexOf eqb x l) (-1)); lia.
Qed.

Lemma indexOf_absent {A} (eqb : A -> A -> bool) (x : A) (l : list A) :
  (forall a b, eqb a b = true <-> a = b) ->
  indexOf eqb x l = (-1)%Z <-> ~ In x l.
Proof.
  intros Heq. induction l as [|y l IH]; simpl; [tauto|].
  destruct (eqb y x) eqn:E.
  - apply Heq in E. split; [discriminate | intros H; exfalso; auto].
  - assert (y <> x) by (intros Hyx; apply Heq in Hyx; congruence).
    pose proof (indexOf_ge eqb x l).
    destruct (Z.eqb_spec (indexOf eqb x l) (-1)) as [E1|E1].
    + split; [intros _ [?|?]; [auto | now apply IH] | auto].
    + split; [lia | intros Hn; exfalso; apply E1, IH; auto].
Qed.

Lemma indexOf_present {A} (eqb : A -> A -> bool) (x : A) (l : list A) :
  (forall a b, eqb a b = true <-> a = b) ->
  indexOf eqb x l <> (-1)%Z -> In x l.
Proof.
  intros Heq. induction l as [|y l IH]; simpl; [congruence|].
  destruct (eqb y x) eqn:E.
  - apply Heq in E. auto.
  - destruct (Z.eqb_spec (indexOf eqb x l) (-1)) as [E1|E1]; [congruence|].
    intros _. right. now apply IH.
Qed.

Lemma intervalFrom_normal (o : obj) (i : value) :
  _intervalFrom o = Normal i <->
  i = js_or (obj_get "interval" o) (VStr "month") /\ In i ALLOWED_INTERVALS.
Proof.
  unfold _intervalFrom.
  pose proof (indexOf_absent value_eqb
                (js_or (obj_get "interval" o) (VStr "month"))
                ALLOWED_INTERVALS value_eqb_eq) as Habs.
  pose proof (indexOf_present value_eqb
                (js_or (obj_get "interval" o) (VStr "month"))
                ALLOWED_INTERVALS value_eqb_eq) as Hpres.
  destruct (Z.eqb_spec
              (indexOf value_eqb (js_or (obj_get "interval" o) (VStr "month"))
                       ALLOWED_INTERVALS) (-1)) as [E|E].
  - split; [discriminate|]. intros [-> Hin]. exfalso. now apply Habs.
  - split.
    + intros H. injection H as <-. auto.
    + now intros [-> _].
Qed.

Lemma intervalFrom_throw (o : obj) (e : error) :
  _intervalFrom o = Throw e <->
  ~ In (js_or (obj_get "interval" o) (VStr "month")) ALLOWED_INTERVALS
  /\ e = Error ("invalid interval: "
               ++ to_string (js_or (obj_get "interval" o) (VStr "month"))).
Proof.
  unfold _intervalFrom.
  pose proof (indexOf_absent value_eqb
                (js_or (obj_get "interval" o) (VStr "month"))
                ALLOWED_INTERVALS value_eqb_eq) as Habs.
  destruct (Z.eqb_spec
              (indexOf value_eqb (js_or (obj_get "interval" o) (VStr "month"))
                       ALLOWED_INTERVALS) (-1)) as [E|E].
  - split.
    + intros H. injection H as <-. split; [now apply Habs | reflexivity].
    + now intros [_ ->].
  - split; [discriminate|]. intros [Hn _]. exfalso. apply E, Habs, Hn.
Qed.

Lemma allowed_truthy (i : value) : In i ALLOWED_INTERVALS -> truthy i = true.
Proof. simpl. intros [<-|[<-|[<-|[<-|[]]]]]; reflexivity. Qed.

Lemma intervalFrom_set (o : obj) (i : value) :
  In i ALLOWED_INTERVALS -> _intervalFrom (obj_set "interval" i o) = Normal i.
Proof.
  intros Hin. apply intervalFrom_normal. split; [|exact Hin].
  rewrite obj_get_set_eq. unfold js_or. now rewrite (allowed_truthy i Hin).
Qed.

(** ** [summary] and [hits] *)

Section ServiceFacts.
Variable es_search : request -> promise response.
Variable isCurrent : string -> bool.
Variable instant : string -> Z.

Lemma summary_normalized :
  summary es_search isCurrent instant
  = normalized_call "summary"
      (round_trip es_search _buildAggregationsQuery
         (fun _ => summary_response isCurrent instant)).
Proof. reflexivity. Qed.

Lemma hits_normalized :
  hits es_search
  = normalized_call "hits" (round_trip es_search _buildHitsQuery hits_response).
Proof. reflexivity. Qed.

End ServiceFacts.

Lemma set_cache_same {V} (st : state V) : set_cache (cache st) st = st.
Proof. now destruct st. Qed.

(** What a call of [summary] or [hits] does, case by case. *)
Lemma normalized_call_run (es_search : request -> promise response)
    (name : string) (req : obj -> request)
    (build : obj -> response -> completion result)
    (r : loc) (st : state result) (o : obj) (i : value) :
  heap st !! r = Some o ->
  _intervalFrom o = Normal i ->
  normalized_call name (round_trip es_search req build) r st
  = match lru_peek (cacheKey name (obj_set "interval" i o)) (cache st) with
    | Some v =>
        (Normal (Fulfilled v),
         mkState (<[r := obj_set "interval" i o]> (heap st))
                 (snd (lru_get (cacheKey name (obj_set "interval" i o)) (cache st)))
                 (es_log st))
    | None =>
        match promise_then (es_search (req (obj_set "interval" i o)))
                           (build (obj_set "interval" i o)) with
        | Fulfilled v =>
            (Normal (Fulfilled v),
             mkState (<[r := obj_set "interval" i o]> (heap st))
                     (lru_set (cacheKey name (obj_set "interval" i o)) v (cache st))
                     (es_log st ++ [req (obj_set "interval" i o)])%list)
        | Rejected e =>
            (Normal (Rejected e),
             mkState (<[r := obj_set "interval" i o]> (heap st))
                     (cache st)
                     (es_log st ++ [req (obj_set "interval" i o)])%list)
        end
    end.
Proof.
  intros Hr Hi. unfold normalized_call. rewrite Hr, Hi.
  set (o' := obj_set "interval" i o).
  set (st' := set_heap (<[r := o']> (heap st)) st).
  change (cache st) with (cache st').
  destruct (lru_peek (cacheKey name o') (cache st')) as [v|] eqn:Hpeek.
  - rewrite (cached_hit truthy_result name o' _ st' v Hpeek eq_refl).
    reflexivity.
  - rewrite cached_miss by (intros v Hv; congruence).
    unfold after_lookup. rewrite (lru_get_absent _ _ Hpeek), set_cache_same.
    unfold round_trip. unfold st' at 1. simpl heap. rewrite lookup_insert_eq.
    destruct (promise_then (es_search (req o')) (build o')); reflexivity.
Qed.

(** ** Arrays *)

Lemma sort_insert_perm {A} (cmp : A -> A -> Q) (x : A) (l : list A) :
  Permutation (x :: l) (sort_insert cmp x l).
Proof.
  induction l as [|y l IH]; simpl; [reflexivity|].
  destruct (Qle_bool (cmp x y) 0); [reflexivity|].
  rewrite perm_swap. now constructor.
Qed.

Lemma Array_sort_perm {A} (cmp : A -> A -> Q) (l : list A) :
  Permutation l (Array_sort cmp l).
Proof.
  induction l as [|x l IH]; simpl; [reflexivity|].
  rewrite <- sort_insert_perm. now constructor.
Qed.


Lemma Array_sort_length {A} (cmp : A -> A -> Q) (l : list A) :
  length (Array_sort cmp l) = length l.
Proof. symmetry. apply Permutation_length, Array_sort_perm. Qed.

Section SortByKey.
Context {A : Type}.
Variable f : A -> Z.
Variable cmp : A -> A -> Q.
Hypothesis cmp_f : forall x y, Qle_bool (cmp x y) 0 = Z.leb (f x) (f y).

Lemma sort_insert_sorted (x : A) (l : list A) :
  StronglySorted (fun a b => (f a <= f b)%Z) l ->
  StronglySorted (fun a b => (f a <= f b)%Z) (sort_insert cmp x l).
Proof.
  induction l as [|y l IH]; simpl; intros Hs.
  - repeat constructor.
  - inversion Hs as [|? ? Hs' Hall]; subst.
    rewrite cmp_f. destruct (Z.leb_spec (f x) (f y)) as [Hle|Hgt].
    + constructor; [exact Hs|]. constructor; [exact Hle|].
      eapply Forall_impl; [|exact Hall]. simpl. intros a Ha. lia.
    + constructor; [now apply IH|].
      rewrite Forall_forall. intros a Ha.
      apply (Permutation_in _ (Permutation_sym (sort_insert_perm cmp x l))) in Ha.
      destruct Ha as [<-|Ha]; [lia|].
      rewrite Forall_forall in Hall. now apply Hall.
Qed.

Lemma Array_sort_sorted (l : list A) :
  StronglySorted (fun a b => (f a <= f b)%Z) (Array_sort cmp l).
Proof.
  induction l as [|x l IH]; simpl; [constructor|].
  now apply sort_insert_sorted.
Qed.

End SortByKey.

(** A list sorted by [f] that is a rearrangement of a list strictly
    sorted by [f] is that list. *)
Lemma sorted_perm_unique {A} (f : A -> Z) (l1 : list A) :
  forall l2,
    StronglySorted (fun a b => (f a <= f b)%Z) l1 ->
    StronglySorted (fun a b => (f a < f b)%Z) l2 ->
    Permutation l1 l2 ->
    l1 = l2.
Proof.
  induction l1 as [|y l1 IH]; intros l2 S1 S2 P.
  - apply Permutation_nil in P. now subst.
  - destruct l2 as [|x l2].
    + apply Permutation_sym, Permutation_nil in P. discriminate.
    + inversion S1 as [|? ? S1' H1]; subst.
      inversion S2 as [|? ? S2' H2]; subst.
      rewrite Forall_forall in H1, H2.
      assert (y = x) as ->.
      { assert (Hx : In x (y :: l1))
          by (apply (Permutation_in _ (Permutation_sym P)); now left).
        assert (Hy : In y (x :: l2))
          by (apply (Permutation_in _ P); now left).
        destruct Hx as [Hx|Hx]; [auto|].
        destruct Hy as [Hy|Hy]; [auto|].
        specialize (H1 _ Hx). specialize (H2 _ Hy). lia. }
      f_equal. apply IH; auto. now apply Permutation_cons_inv in P.
Qed.

Lemma slice_trim {A} (l : list A) : slice 1 (-1) l = removelast (tl l).
Proof.
  unfold slice, slice_index.
  change (Z.ltb 1 0) with false. change (Z.ltb (-1) 0) with true. cbv iota.
  destruct l as [|x l]; [reflexivity|].
  simpl length. simpl tl.
  replace (Nat.min (Z.to_nat 1) (S (length l))) with 1%nat by lia.
  replace (Z.to_nat (Z.max (Z.of_nat (S (length l)) + -1) 0)) with (length l) by lia.
  simpl skipn. rewrite removelast_firstn_len. f_equal. lia.
Qed.


Lemma removelast_tl_length {A} (l : list A) :
  length (removelast (tl l)) = (length l - 2)%nat.
Proof.
  destruct l as [|x l]; [reflexivity|]. simpl tl.
  destruct l as [|y l] using rev_ind; [reflexivity|].
  rewrite removelast_last. simpl. rewrite length_app. simpl. lia.
Qed.

Lemma In_removelast {A} (l : list A) (x : A) : In x (removelast l) -> In x l.
Proof.
  induction l as [|y l IH]; simpl; [tauto|].
  destruct l as [|z l]; [simpl; tauto|].
  intros [->|Hin]; [now left | right; now apply IH].
Qed.


(** ** Parsing an aggregation *)

Lemma parse_fold_keys (bs : list bucket) :
  forall acc : dict nat,
    NoDup (Object_keys acc) ->
    NoDup (Object_keys
             (fold_left (fun counts b => dict_set (bucket_key b) (doc_count b) counts)
                        bs acc))
    /\ forall k,
         In k (Object_keys
                 (fold_left (fun counts b => dict_set (bucket_key b) (doc_count b) counts)
                            bs acc))
         <-> In k (Object_keys acc) \/ exists b, In b bs /\ bucket_key b = k.
Proof.
  induction bs as [|b bs IH]; intros acc Hnd; simpl.
  - split; [exact Hnd|]. intros k. split; [auto|].
    intros [H|(b & [] & _)]. exact H.
  - destruct (IH (dict_set (bucket_key b) (doc_count b) acc)
                 (dict_set_NoDup _ _ _ Hnd)) as [Hnd' Hin].
    split; [exact Hnd'|]. intros k. rewrite Hin, dict_set_keys_in. split.
    + intros [[->|H]|(b' & Hb' & E)]; eauto.
    + intros [H|(b' & [<-|Hb'] & E)]; eauto.
Qed.

Lemma parse_keys_NoDup (a : aggregation) :
  NoDup (Object_keys (_parseAggregation a)).
Proof. apply parse_fold_keys. constructor. Qed.

Lemma parse_keys_In (a : aggregation) (k : string) :
  In k (Object_keys (_parseAggregation a)) <-> has_key a k.
Proof.
  unfold _parseAggregation, has_key.
  rewrite (proj2 (parse_fold_keys (buckets a) [] (NoDup_nil _))). simpl. tauto.
Qed.

(** ** Keeping the first occurrence of each key *)

Lemma indexOf_app_notin (x : string) (pre l : list string) :
  ~ In x pre ->
  indexOf String.eqb x (pre ++ x :: l) = Z.of_nat (length pre).
Proof.
  induction pre as [|y pre IH]; simpl; intros Hn.
  - now rewrite String.eqb_refl.
  - destruct (String.eqb_spec y x) as [->|Hne]; [exfalso; auto|].
    rewrite IH by auto.
    destruct (Z.eqb_spec (Z.of_nat (length pre)) (-1)); lia.
Qed.

Lemma indexOf_app_in (x : string) (pre l : list string) :
  In x pre ->
  (0 <= indexOf String.eqb x (pre ++ l) < Z.of_nat (length pre))%Z.
Proof.
  induction pre as [|y pre IH]; simpl; [tauto|].
  intros Hin. destruct (String.eqb_spec y x) as [->|Hne]; [lia|].
  destruct Hin as [?|Hin]; [congruence|]. specialize (IH Hin).
  destruct (Z.eqb_spec (indexOf String.eqb x (pre ++ l)) (-1)); lia.
Qed.

Lemma first_occurrences (whole : list string) (l : list string) :
  forall pre,
    whole = (pre ++ l)%list ->
    NoDup (filter_indexed (fun k i => Z.eqb (indexOf String.eqb k whole) i)
                          (Z.of_nat (length pre)) l)
    /\ forall k,
         In k (filter_indexed (fun k i => Z.eqb (indexOf String.eqb k whole) i)
                              (Z.of_nat (length pre)) l)
         <-> In k l /\ ~ In k pre.
Proof.
  induction l as [|x l IH]; intros pre Hw; simpl.
  - split; [constructor | tauto].
  - assert (Hw' : whole = ((pre ++ [x]) ++ l)%list)
      by (now rewrite <- app_assoc).
    destruct (IH (pre ++ [x])%list Hw') as [Hnd Hin].
    rewrite length_app in Hnd, Hin. simpl length in Hnd, Hin.
    replace (Z.of_nat (length pre + 1)) with (Z.of_nat (length pre) + 1)%Z
      in Hnd, Hin by lia.
    assert (Hx : Z.eqb (indexOf String.eqb x whole) (Z.of_nat (length pre))
                 = negb (if in_dec string_dec x pre then true else false)).
    { destruct (in_dec string_dec x pre) as [Hp|Hp]; simpl.
      - pose proof (indexOf_app_in x pre (x :: l) Hp). rewrite <- Hw in H.
        apply Z.eqb_neq. lia.
      - rewrite Hw, indexOf_app_notin by exact Hp. apply Z.eqb_refl. }
    rewrite Hx.
    destruct (in_dec string_dec x pre) as [Hp|Hp]; simpl.
    + split; [exact Hnd|]. intros k. rewrite Hin, in_app_iff. simpl. split.
      * intros [H1 H2]. split; [auto|]. intros H3. apply H2. auto.
      * intros [[<-|H1] H2]; [contradiction|]. split; [exact H1|].
        intros [H3|[<-|[]]]; contradiction.
    + split.
      * constructor; [|exact Hnd]. rewrite Hin, in_app_iff. simpl.
        intros [_ H]. apply H. auto.
      * intros k. rewrite Hin, in_app_iff. simpl. split.
        -- intros [<-|[H1 H2]]; [auto|]. split; [auto|]. intros H3. apply H2. auto.
        -- intros [[<-|H1] H2]; [auto|].
           destruct (string_dec x k) as [->|Hne]; [auto|].
           right. split; [exact H1|]. intros [H3|[H3|[]]]; contradiction.
Qed.

Lemma combined_keys (l : list string) :
  NoDup (filter_indexed (fun k i => Z.eqb (indexOf String.eqb k l) i) 0 l)
  /\ forall k,
       In k (filter_indexed (fun k i => Z.eqb (indexOf String.eqb k l) i) 0 l)
       <-> In k l.
Proof.
  destruct (first_occurrences l l [] eq_refl) as [Hnd Hin].
  split; [exact Hnd|]. intros k. rewrite (Hin k). simpl. tauto.
Qed.

(** ** [_calculatePercentages] *)

Lemma percentages_keys_union (subset set : dict nat) :
  NoDup (map entry_key (_calculatePercentages subset set true))
  /\ forall k,
       In k (map entry_key (_calculatePercentages subset set true))
       <-> In k (Object_keys subset) \/ In k (Object_keys set).
Proof.
  unfold _calculatePercentages. rewrite map_map. simpl. rewrite map_id.
  destruct (combined_keys (Object_keys subset ++ Object_keys set)%list) as [Hnd Hin].
  split; [exact Hnd|]. intros k. now rewrite Hin, in_app_iff.
Qed.


(** ** [_buildResponse] *)


Lemma buildResponse_inv (isCurrent : string -> bool) (instant : string -> Z)
    (resp : response) (r : SummaryResult) :
  _buildResponse isCurrent instant resp = Normal r ->
  exists aggs personMap,
    resp_aggregations resp = Some aggs
    /\ _buildPersonMap (agg_filteredPeople aggs) = Normal personMap
    /\ counts_total r = hits_total resp
    /\ timeline r
       = slice 1 (-1) (Array_sort (by_instant instant) (timeline_entries aggs))
    /\ parties r
       = filter (fun e => isCurrent (entry_key e)) (parties_entries aggs)
    /\ people_count r
       = slice 0 20 (Array_sort by_count_desc (people_entries aggs personMap))
    /\ people_pct r
       = slice 0 20 (Array_sort by_pct_desc
                       (Array_sort by_count_desc (people_entries aggs personMap))).
Proof.
  unfold _buildResponse.
  destruct (resp_aggregations resp) as [aggs|]; [|discriminate].
  destruct (_buildPersonMap (agg_filteredPeople aggs)) as [pm|e] eqn:Epm;
    [|discriminate].
  intros H. injection H as <-. exists aggs, pm. simpl.
  repeat split; reflexivity || exact Epm.
Qed.

Lemma buildPersonMap_fold (bs : list bucket) :
  forall acc : dict obj,
    (forall b, In b bs -> exists h hs, person b = Some (h :: hs)) ->
    exists personMap,
      fold_left
        (fun (acc : completion (dict obj)) b =>
           match acc with
           | Throw e => Throw e
           | Normal map =>
               match person b with
               | Some (h :: _) => Normal (dict_set (key b) (_source h) map)
               | _ => Throw (TypeError "Cannot read property of undefined")
               end
           end)
        bs (Normal acc)
      = Normal personMap.
Proof.
  induction bs as [|b bs IH]; intros acc Hp; simpl; [eauto|].
  destruct (Hp b (or_introl eq_refl)) as (h & hs & ->).
  apply IH. intros b' Hb'. apply Hp. now right.
Qed.

(** [_buildResponse] returns when the response carries aggregations and
    every bucket of the filtered speakers has its top hit. *)
Lemma buildResponse_returns (isCurrent : string -> bool) (instant : string -> Z)
    (resp : response) (aggs : aggregations) :
  resp_aggregations resp = Some aggs ->
  (forall b, In b (buckets (agg_filteredPeople aggs)) ->
             exists h hs, person b = Some (h :: hs)) ->
  exists r, _buildResponse isCurrent instant resp = Normal r.
Proof.
  intros Ha Hp. unfold _buildResponse. rewrite Ha.
  assert (exists pm, _buildPersonMap (agg_filteredPeople aggs) = Normal pm)
    as (pm & E) by (unfold _buildPersonMap; now apply buildPersonMap_fold).
  rewrite E. eauto.
Qed.

Lemma timeline_entries_keys (aggs : aggregations) :
  NoDup (map entry_key (timeline_entries aggs))
  /\ forall k,
       In k (map entry_key (timeline_entries aggs))
       <-> has_key (agg_filteredTimeline aggs) k \/ has_key (agg_timeline aggs) k.
Proof.
  unfold timeline_entries.
  destruct (percentages_keys_union
              (_parseAggregation (agg_filteredTimeline aggs))
              (_parseAggregation (agg_timeline aggs))) as [Hnd Hin].
  split; [exact Hnd|]. intros k. now rewrite Hin, !parse_keys_In.
Qed.

Lemma by_instant_le (instant : string -> Z) (a b : PercentageEntry) :
  Qle_bool (by_instant instant a b) 0
  = Z.leb (instant (entry_key a)) (instant (entry_key b)).
Proof.
  unfold by_instant, Qle_bool, inject_Z. simpl Qnum. simpl Qden.
  destruct (Z.leb_spec (instant (entry_key a)) (instant (entry_key b)));
    [apply Z.leb_le | apply Z.leb_gt]; lia.
Qed.

Lemma StronglySorted_map {A B} (f : A -> B) (R : B -> B -> Prop) (l : list A) :
  StronglySorted (fun a b => R (f a) (f b)) l <-> StronglySorted R (map f l).
Proof.
  induction l as [|x l IH]; simpl.
  - split; constructor.
  - split; intros H; inversion H as [|? ? Hs Hall]; subst; constructor;
      try (now apply IH); rewrite Forall_forall in *.
    + intros y Hy. apply in_map_iff in Hy as (a & <- & Ha). auto.
    + intros a Ha. apply Hall, in_map. exact Ha.
Qed.

Lemma StronglySorted_tl {A} (R : A -> A -> Prop) (l : list A) :
  StronglySorted R l -> StronglySorted R (tl l).
Proof. intros H. destruct l; [constructor | now inversion H]. Qed.

Lemma StronglySorted_removelast {A} (R : A -> A -> Prop) (l : list A) :
  StronglySorted R l -> StronglySorted R (removelast l).
Proof.
  induction 1 as [|x l Hs IH Hall]; [constructor|].
  destruct l as [|y l]; [constructor|].
  change (removelast (x :: y :: l)) with (x :: removelast (y :: l)).
  constructor; [exact IH|].
  rewrite Forall_forall in *. intros a Ha. apply Hall.
  now apply In_removelast.
Qed.

Lemma map_removelast_list {A B} (f : A -> B) (l : list A) :
  map f (removelast l) = removelast (map f l).
Proof.
  destruct l as [|x l _] using rev_ind; [reflexivity|].
  rewrite removelast_last, map_app. simpl. now rewrite removelast_last.
Qed.

Lemma map_tl_list {A B} (f : A -> B) (l : list A) : map f (tl l) = tl (map f l).
Proof. now destruct l. Qed.

(** The keys of the sorted time line are the keys of the two time
    aggregations in the order of their instants. *)
Lemma sorted_timeline_keys (instant : string -> Z) (aggs : aggregations)
    (ts : list string) :
  (forall k, In k ts
             <-> has_key (agg_filteredTimeline aggs) k \/ has_key (agg_timeline aggs) k) ->
  StronglySorted (fun a b => (instant a < instant b)%Z) ts ->
  map entry_key (Array_sort (by_instant instant) (timeline_entries aggs)) = ts.
Proof.
  intros Hts Hsorted.
  destruct (timeline_entries_keys aggs) as [Hnd Hin].
  apply (sorted_perm_unique instant).
  - apply (proj1 (StronglySorted_map entry_key
                    (fun a b => (instant a <= instant b)%Z) _)).
    apply (Array_sort_sorted (fun e => instant (entry_key e)) (by_instant instant)).
    apply by_instant_le.
  - exact Hsorted.
  - rewrite <- (Permutation_map entry_key (Array_sort_perm _ _)).
    apply NoDup_Permutation; [exact Hnd | |].
    + clear -Hsorted. induction Hsorted as [|x l Hs IH Hall]; constructor; auto.
      rewrite Forall_forall in Hall. intros Hx. specialize (Hall _ Hx). lia.
    + intros k. now rewrite Hin, Hts.
Qed.


(** ** The index and [getContext] *)

Lemma context_filter_matches (id : string) (start end_ : Z) (h : raw_hit) :
  matches (AndFilters [Term "transcript" (VStr id); Range "order" start end_])
          (_source h)
  = in_context id start end_ h.
Proof.
  unfold in_context, of_transcript, order_of. simpl.
  destruct (obj_get "order" (_source h)); simpl;
    rewrite ?andb_true_r, ?andb_false_r; reflexivity.
Qed.

Lemma in_context_order (id : string) (start end_ : Z) (h : raw_hit) :
  in_context id start end_ h = true ->
  of_transcript id h = true
  /\ order_of h = Some (sort_value "order" h)
  /\ (start <= sort_value "order" h <= end_)%Z.
Proof.
  unfold in_context, order_of, sort_value.
  destruct (of_transcript id h); [|discriminate].
  destruct (obj_get "order" (_source h)); try discriminate.
  simpl. intros H. apply andb_true_iff in H as [H1 H2].
  apply Z.leb_le in H1, H2. auto.
Qed.

Lemma range_list (a : Z) (n : nat) (z : Z) :
  (a <= z < a + Z.of_nat n)%Z ->
  In z (map (fun i => (a + Z.of_nat i)%Z) (seq 0 n)).
Proof.
  intros H. apply in_map_iff. exists (Z.to_nat (z - a)). split; [lia|].
  apply in_seq. lia.
Qed.

(** Distinct integers between [a] and [b] are at most [b - a + 1]. *)
Lemma distinct_in_range (l : list Z) (a b : Z) :
  NoDup l -> (forall z, In z l -> (a <= z <= b)%Z) ->
  (length l <= Z.to_nat (b - a + 1))%nat.
Proof.
  intros Hnd Hr.
  assert (Hincl : incl l (map (fun i => (a + Z.of_nat i)%Z)
                              (seq 0 (Z.to_nat (b - a + 1))))).
  { intros z Hz. apply range_list. specialize (Hr z Hz). lia. }
  apply (NoDup_incl_length Hnd) in Hincl.
  now rewrite length_map, length_seq in Hincl.
Qed.

Lemma NoDup_map_filter_sub {A B} (f : A -> B) (p q : A -> bool) (l : list A) :
  (forall x, q x = true -> p x = true) ->
  NoDup (map f (filter p l)) -> NoDup (map f (filter q l)).
Proof.
  intros Hqp. induction l as [|x l IH]; simpl; [auto|].
  destruct (q x) eqn:Eq.
  - rewrite (Hqp x Eq). simpl. intros Hnd.
    inversion Hnd as [|? ? Hnotin Hnd']; subst.
    constructor; [|now apply IH].
    intros Hin. apply Hnotin.
    apply in_map_iff in Hin as (y & <- & Hy). apply in_map.
    apply filter_In in Hy as [Hy Hqy]. apply filter_In. auto.
  - destruct (p x); simpl; intros Hnd; [|now apply IH].
    inversion Hnd; subst. now apply IH.
Qed.

Lemma sorted_distinct {A} (f : A -> Z) (l : list A) :
  StronglySorted (fun a b => (f a <= f b)%Z) l ->
  NoDup (map f l) ->
  StronglySorted (fun a b => (f a < f b)%Z) l.
Proof.
  induction 1 as [|x l Hs IH Hall]; simpl; intros Hnd; [constructor|].
  inversion Hnd as [|? ? Hnotin Hnd']; subst.
  constructor; [now apply IH|].
  rewrite Forall_forall in *. intros y Hy.
  specialize (Hall y Hy).
  assert (f x <> f y) by (intros E; apply Hnotin; rewrite E; now apply in_map).
  lia.
Qed.

Lemma by_field_le (field : string) (a b : raw_hit) :
  Qle_bool (by_field field a b) 0 = Z.leb (sort_value field a) (sort_value field b).
Proof.
  unfold by_field, Qle_bool, inject_Z. simpl Qnum. simpl Qden.
  destruct (Z.leb_spec (sort_value field a) (sort_value field b));
    [apply Z.leb_le | apply Z.leb_gt]; lia.
Qed.

(** ** [Object.assign] *)

Lemma assign_get_other (k : string) (source : obj) :
  forall target,
    ~ In k (Object_keys source) ->
    dict_get k (Object_assign target source) = dict_get k target.
Proof.
  unfold Object_assign.
  induction source as [|[k' v] source IH]; intros target Hn; simpl; [reflexivity|].
  rewrite IH by (intros H; apply Hn; now right).
  apply dict_get_set_ne. intros ->. apply Hn. now left.
Qed.

Lemma assign_get_source (k : string) (source : obj) :
  forall target,
    NoDup (Object_keys source) ->
    In k (Object_keys source) ->
    dict_get k (Object_assign target source) = dict_get k source.
Proof.
  induction source as [|[k' v] source IH]; intros target Hnd Hin; [destruct Hin|].
  inversion Hnd as [|? ? Hnotin Hnd']; subst. simpl in Hin.
  change (Object_assign target ((k', v) :: source))
    with (Object_assign (obj_set k' v target) source).
  simpl dict_get at 2.
  destruct (String.eqb_spec k k') as [->|Hne].
  - rewrite assign_get_other by exact Hnotin. apply dict_get_set_eq.
  - destruct Hin as [E|Hin]; [congruence|]. now apply IH.
Qed.



(** A copy [Object.assign({}, o)] reads as [o] does. *)
Lemma assign_copy_get (k : string) (o : obj) :
  NoDup (Object_keys o) -> obj_get k (Object_assign [] o) = obj_get k o.
Proof.
  intros Hnd. unfold obj_get.
  destruct (in_dec string_dec k (Object_keys o)) as [Hin|Hn].
  - now rewrite assign_get_source.
  - rewrite assign_get_other by exact Hn. now rewrite (dict_get_not_in k o Hn).
Qed.

(** ** [map] with a function that may throw *)

Lemma map_completion_Forall2 {A B} (f : A -> completion B) (l : list A) :
  Forall (fun x => exists y, f x = Normal y) l ->
  exists ys, map_completion f l = Normal ys
             /\ Forall2 (fun x y => f x = Normal y) l ys.
Proof.
  induction 1 as [|x l (y & Hy) _ (ys & E & F)]; simpl.
  - exists []. split; [reflexivity | constructor].
  - rewrite Hy, E. exists (y :: ys). split; [reflexivity | now constructor].
Qed.

Lemma buildHit_returns (h : raw_hit) :
  well_highlighted h <-> exists x, _buildHit h = Normal x.
Proof.
  unfold well_highlighted, _buildHit.
  destruct (highlight h) as [[[[|fr frs]|]]|]; split;
    try (intros _; eexists; reflexivity);
    try (intros _ hl E; injection E as <-; simpl; discriminate);
    try (intros _ hl E; discriminate).
  - intros H. exfalso. exact (H _ eq_refl eq_refl).
  - intros [x E]. discriminate.
Qed.

(** ** Text between separators *)

Lemma char_free_split (c : ascii) (s1 : string) :
  forall s2 r1 r2,
    has_char c s1 = false -> has_char c s2 = false ->
    (r1 = EmptyString \/ exists t, r1 = String c t) ->
    (r2 = EmptyString \/ exists t, r2 = String c t) ->
    s1 ++ r1 = s2 ++ r2 ->
    s1 = s2 /\ r1 = r2.
Proof.
  induction s1 as [|c1 s1 IH]; intros [|c2 s2] r1 r2 H1 H2 T1 T2 E; simpl in *.
  - auto.
  - apply orb_false_iff in H2 as [Hc _].
    destruct T1 as [->|(t & ->)]; [discriminate|].
    injection E as <- _. now rewrite Ascii.eqb_refl in Hc.
  - apply orb_false_iff in H1 as [Hc _].
    destruct T2 as [->|(t & ->)]; [discriminate|].
    injection E as -> _. now rewrite Ascii.eqb_refl in Hc.
  - apply orb_false_iff in H1 as [_ H1]. apply orb_false_iff in H2 as [_ H2].
    injection E as -> E. destruct (IH _ _ _ H1 H2 T1 T2 E) as [-> ->]. auto.
Qed.

Lemma join_strings_cons (s : string) (l : list string) :
  Array_join "," (map VStr (s :: l))
  = s ++ match l with
         | [] => EmptyString
         | _ :: _ => String "," (Array_join "," (map VStr l))
         end.
Proof.
  destruct l as [|x l]; simpl.
  - clear. induction s as [|c s IH]; simpl; [reflexivity | now f_equal].
  - reflexivity.
Qed.

Lemma join_strings_inj (l1 : list string) :
  forall s1 s2 l2,
    Forall (fun s => has_char "," s = false) (s1 :: l1) ->
    Forall (fun s => has_char "," s = false) (s2 :: l2) ->
    Array_join "," (map VStr (s1 :: l1)) = Array_join "," (map VStr (s2 :: l2)) ->
    s1 :: l1 = s2 :: l2.
Proof.
  induction l1 as [|x1 l1 IH]; intros s1 s2 l2 F1 F2 E;
    rewrite (join_strings_cons s1), (join_strings_cons s2) in E;
    inversion F1 as [|? ? H1 F1']; inversion F2 as [|? ? H2 F2']; subst.
  - destruct l2 as [|x2 l2].
    + destruct (char_free_split _ _ _ _ _ H1 H2 (or_introl eq_refl)
                  (or_introl eq_refl) E) as [-> _]. reflexivity.
    + destruct (char_free_split _ _ _ _ _ H1 H2 (or_introl eq_refl)
                  (or_intror (ex_intro _ _ eq_refl)) E) as [_ Hr]. discriminate Hr.
  - destruct l2 as [|x2 l2].
    + destruct (char_free_split _ _ _ _ _ H1 H2
                  (or_intror (ex_intro _ _ eq_refl)) (or_introl eq_refl) E)
        as [_ Hr]. discriminate Hr.
    + destruct (char_free_split _ _ _ _ _ H1 H2
                  (or_intror (ex_intro _ _ eq_refl))
                  (or_intror (ex_intro _ _ eq_refl)) E) as [-> Hr].
      injection Hr as Hr. f_equal. now apply IH.
Qed.

(** ** Dictionaries filled from buckets *)

Lemma dict_set_new {A} (k : string) (v : A) (o : dict A) :
  ~ In k (Object_keys o) -> dict_set k v o = (o ++ [(k, v)])%list.
Proof.
  induction o as [|[k0 v0] o IH]; simpl; intros Hn; [reflexivity|].
  destruct (String.eqb_spec k k0) as [->|Hne]; [tauto|].
  rewrite IH; tauto.
Qed.

Section FoldSet.
Context {A : Type}.
Variable kf : bucket -> string.
Variable vf : bucket -> A.

Lemma fold_set_absent (k : string) (bs : list bucket) :
  forall acc : dict A,
    (forall b, In b bs -> kf b <> k) ->
    dict_get k (fold_left (fun m b => dict_set (kf b) (vf b) m) bs acc)
    = dict_get k acc.
Proof.
  induction bs as [|b bs IH]; intros acc Hn; simpl; [reflexivity|].
  rewrite IH by (intros b' Hb'; apply Hn; now right).
  apply dict_get_set_ne. intros E. apply (Hn b (or_introl eq_refl)). auto.
Qed.

Lemma fold_set_get_ext (k : string) (bs : list bucket) :
  forall o1 o2 : dict A,
    dict_get k o1 = dict_get k o2 ->
    dict_get k (fold_left (fun m b => dict_set (kf b) (vf b) m) bs o1)
    = dict_get k (fold_left (fun m b => dict_set (kf b) (vf b) m) bs o2).
Proof.
  induction bs as [|b bs IH]; intros o1 o2 E; simpl; [exact E|].
  apply IH. destruct (String.eqb_spec (kf b) k) as [->|Hne].
  - now rewrite !dict_get_set_eq.
  - rewrite !dict_get_set_ne by (intros E'; now apply Hne). exact E.
Qed.

Lemma fold_set_last (bs : list bucket) (b : bucket) (acc : dict A) :
  last_with_key kf bs b ->
  dict_get (kf b) (fold_left (fun m b => dict_set (kf b) (vf b) m) bs acc)
  = Some (vf b).
Proof.
  intros (pre & post & -> & Hpost).
  rewrite fold_left_app. simpl.
  rewrite fold_set_absent by exact Hpost. apply dict_get_set_eq.
Qed.

Lemma fold_set_fresh (bs : list bucket) :
  forall acc : dict A,
    NoDup (Object_keys acc ++ map kf bs)%list ->
    fold_left (fun m b => dict_set (kf b) (vf b) m) bs acc
    = (acc ++ map (fun b => (kf b, vf b)) bs)%list.
Proof.
  induction bs as [|b bs IH]; intros acc Hnd; simpl.
  - now rewrite app_nil_r.
  - simpl in Hnd. rewrite dict_set_new.
    + rewrite IH.
      * now rewrite <- app_assoc.
      * unfold Object_keys. rewrite map_app, <- app_assoc. exact Hnd.
    + apply NoDup_remove_2 in Hnd. intros Hin. apply Hnd.
      apply in_or_app. now left.
Qed.

End FoldSet.


(** * The percentages on the objects and numbers of the language *)

(** ** Doubles *)







(** ** The keys of a plain object *)

Lemma Js_keys_split (ks : list string) :
  Permutation (map snd (Js.index_keys ks) ++ Js.named_keys ks)%list ks.
Proof.
  induction ks as [|k ks IH]; simpl; [constructor|].
  destruct (Js.array_index k) as [n|]; simpl.
  - now constructor.
  - symmetry. apply Permutation_cons_app. now symmetry.
Qed.

Lemma Js_keys_perm {A} (o : dict A) :
  Permutation (Js.Object_keys o) (Object_keys o).
Proof.
  unfold Js.Object_keys, Object_keys.
  apply (Permutation_trans (l' := (map snd (Js.index_keys (map fst o))
                                   ++ Js.named_keys (map fst o))%list)).
  - apply Permutation_app_tail, Permutation_map. symmetry.
    apply Array_sort_perm.
  - apply Js_keys_split.
Qed.

Lemma Js_keys_In {A} (o : dict A) (k : string) :
  In k (Js.Object_keys o) <-> In k (Object_keys o).
Proof.
  split; apply Permutation_in; [|symmetry]; apply Js_keys_perm.
Qed.

Lemma Js_keys_NoDup {A} (o : dict A) :
  NoDup (Object_keys o) -> NoDup (Js.Object_keys o).
Proof.
  apply Permutation_NoDup. symmetry. apply Js_keys_perm.
Qed.

(** ** [_parseAggregation] *)

(** The assignments to [__proto__] leave no trace: the counts are those
    of the other buckets. *)
Lemma Js_parse_fold (bs : list bucket) :
  forall acc : dict nat,
    fold_left (fun counts b => Js.count_set (bucket_key b) (doc_count b) counts)
              bs acc
    = fold_left (fun counts b => dict_set (bucket_key b) (doc_count b) counts)
                (settable bucket_key bs) acc.
Proof.
  induction bs as [|b bs IH]; intros acc; simpl; [reflexivity|].
  unfold Js.count_set at 2.
  destruct (String.eqb (bucket_key b) "__proto__"); simpl; apply IH.
Qed.

Lemma Js_parse_settable (a : aggregation) :
  Js._parseAggregation a
  = _parseAggregation (mkAggregation (settable bucket_key (buckets a))).
Proof. apply Js_parse_fold. Qed.

Lemma settable_In (kf : bucket -> string) (bs : list bucket) (b : bucket) :
  In b (settable kf bs) <-> In b bs /\ kf b <> "__proto__".
Proof.
  unfold settable. rewrite filter_In, negb_true_iff, String.eqb_neq. tauto.
Qed.

Lemma settable_last (kf : bucket -> string) (bs : list bucket) (b : bucket) :
  last_with_key kf bs b -> kf b <> "__proto__" ->
  last_with_key kf (settable kf bs) b.
Proof.
  intros (pre & post & -> & Hpost) Hb.
  exists (settable kf pre), (settable kf post). split.
  - unfold settable. rewrite filter_app. simpl.
    now rewrite (proj2 (String.eqb_neq _ _) Hb).
  - intros b' Hb'. apply settable_In in Hb' as [Hb' _]. now apply Hpost.
Qed.

Lemma Js_parse_keys (a : aggregation) :
  NoDup (Object_keys (Js._parseAggregation a))
  /\ forall k,
       In k (Object_keys (Js._parseAggregation a))
       <-> has_key a k /\ k <> "__proto__".
Proof.
  rewrite Js_parse_settable. split; [apply parse_keys_NoDup|].
  intros k. rewrite parse_keys_In. unfold has_key. simpl. split.
  - intros (b & Hb & <-). apply settable_In in Hb as [Hb Hk]. eauto.
  - intros [(b & Hb & <-) Hk]. exists b. split; [|reflexivity].
    now apply settable_In.
Qed.

Lemma Js_count_own (k : string) (counts : dict nat) (n : nat) :
  dict_get k counts = Some n -> Js.count_or_zero k counts = Js.Count n.
Proof. unfold Js.count_or_zero. now intros ->. Qed.

Lemma Js_count_missing (k : string) (counts : dict nat) :
  ~ In k (Object_keys counts) ->
  Js.count_or_zero k counts
  = if Js.is_member k then Js.Member k else Js.Count 0.
Proof.
  intros H. unfold Js.count_or_zero. now rewrite dict_get_not_in.
Qed.

(** ** [_calculatePercentages] *)

Lemma Js_percentages_keys_subset (subset set : dict nat) :
  map Js.entry_key (Js._calculatePercentages subset set false)
  = Js.Object_keys subset.
Proof.
  unfold Js._calculatePercentages. rewrite map_map. simpl. apply map_id.
Qed.


Lemma Js_percentages_entry (subset set : dict nat) (combineKeys : bool)
    (e : Js.PercentageEntry) :
  In e (Js._calculatePercentages subset set combineKeys) ->
  Js.entry_count e = Js.count_or_zero (Js.entry_key e) subset
  /\ Js.entry_total e = Js.count_or_zero (Js.entry_key e) set
  /\ Js.entry_pct e
     = match Js.entry_total e with
       | Js.Count O => Js.Finite 0
       | _ => Js.times (Js.divide (Js.entry_count e) (Js.entry_total e)) 100
       end
  /\ Js.entry_meta e = Js.Undefined.
Proof.
  unfold Js._calculatePercentages. rewrite in_map_iff.
  intros (k & <- & _). simpl. auto.
Qed.


(** ** The entries of the people *)

Lemma Js_people_entries_keys (aggs : aggregations) (pm : Js.person_map) :
  map Js.entry_key (Js.people_entries aggs pm)
  = Js.Object_keys (Js._parseAggregation (agg_filteredPeople aggs)).
Proof.
  unfold Js.people_entries. rewrite map_map.
  change (fun x => Js.entry_key (Js.set_meta pm x)) with Js.entry_key.
  apply Js_percentages_keys_subset.
Qed.

Lemma settable_all (kf : bucket -> string) (bs : list bucket) :
  (forall b, In b bs -> kf b <> "__proto__") -> settable kf bs = bs.
Proof.
  intros H. unfold settable. induction bs as [|b bs IH]; simpl; [reflexivity|].
  rewrite (proj2 (String.eqb_neq _ _) (H b (or_introl eq_refl))). simpl.
  f_equal. apply IH. intros b' Hb'. apply H. now right.
Qed.

Lemma by_index_le (a b : N * string) :
  Qle_bool (Js.by_index a b) 0 = Z.leb (Z.of_N (fst a)) (Z.of_N (fst b)).
Proof.
  unfold Js.by_index, Qle_bool, inject_Z. simpl Qnum. simpl Qden.
  destruct (Z.leb_spec (Z.of_N (fst a)) (Z.of_N (fst b)));
    [apply Z.leb_le | apply Z.leb_gt]; lia.
Qed.

(** ** The map of the speakers, as an object *)

Lemma Js_buildPersonMap_fold_throw (bs : list bucket) (e : error) :
  fold_left
    (fun (acc : completion Js.person_map) b =>
       match acc with
       | Throw e => Throw e
       | Normal map =>
           match person b with
           | Some (h :: _) => Normal (Js.person_set (key b) (_source h) map)
           | _ => Throw (TypeError "Cannot read property of undefined")
           end
       end)
    bs (Throw e)
  = Throw e.
Proof. induction bs as [|b bs IH]; simpl; auto. Qed.

Lemma Js_buildPersonMap_fold (bs : list bucket) :
  forall (acc pm : Js.person_map),
    fold_left
      (fun (acc : completion Js.person_map) b =>
         match acc with
         | Throw e => Throw e
         | Normal map =>
             match person b with
             | Some (h :: _) => Normal (Js.person_set (key b) (_source h) map)
             | _ => Throw (TypeError "Cannot read property of undefined")
             end
         end)
      bs (Normal acc)
    = Normal pm ->
    (forall b, In b bs -> top_hit b <> None)
    /\ pm = fold_left (fun m b => Js.person_set (key b) (top_source b) m) bs acc.
Proof.
  induction bs as [|b bs IH]; intros acc pm; simpl.
  - intros H. injection H as <-. split; [intros b []|reflexivity].
  - destruct (person b) as [[|h hs]|] eqn:Hp;
      try (rewrite Js_buildPersonMap_fold_throw; discriminate).
    assert (Ht : top_hit b = Some h) by (unfold top_hit; now rewrite Hp).
    assert (Es : top_source b = _source h) by (unfold top_source; now rewrite Ht).
    intros H. apply IH in H as [Hall ->]. rewrite Es. split; [|reflexivity].
    intros b' [<-|Hb']; [rewrite Ht; discriminate | now apply Hall].
Qed.

(** A key other than [__proto__] is looked up among the own properties
    as if the buckets called [__proto__] were not there. *)
Lemma Js_person_fold_get (k : string) (bs : list bucket) :
  k <> "__proto__" ->
  forall m : Js.person_map,
    dict_get k
      (Js.own (fold_left (fun m b => Js.person_set (key b) (top_source b) m)
                         bs m))
    = dict_get k (fold_left (fun o b => dict_set (key b) (top_source b) o)
                            (settable key bs) (Js.own m)).
Proof.
  intros Hk. induction bs as [|b bs IH]; intros m; simpl; [reflexivity|].
  rewrite IH. unfold Js.person_set.
  destruct (String.eqb_spec (key b) "__proto__") as [E|_]; simpl;
    [|reflexivity].
  destruct (Js.shadowed m); simpl; [|reflexivity].
  apply fold_set_get_ext. rewrite E. now apply dict_get_set_ne.
Qed.

Lemma Js_person_fold_proto_same (bs : list bucket) :
  forall m : Js.person_map,
    (forall b, In b bs -> key b <> "__proto__") ->
    fold_left (fun m b => Js.person_set (key b) (top_source b) m) bs m
    = Js.mkPersonMap
        (fold_left (fun o b => dict_set (key b) (top_source b) o) bs (Js.own m))
        (Js.proto m).
Proof.
  induction bs as [|b bs IH]; intros m Hn; simpl; [now destruct m|].
  rewrite IH by (intros b' Hb'; apply Hn; now right).
  unfold Js.person_set.
  now rewrite (proj2 (String.eqb_neq _ _) (Hn b (or_introl eq_refl))).
Qed.

Lemma Js_person_fold_unshadowed (bs : list bucket) :
  plain_prototypes bs ->
  forall m : Js.person_map,
    Js.shadowed m = false ->
    Js.shadowed (fold_left (fun m b => Js.person_set (key b) (top_source b) m)
                           bs m)
    = false.
Proof.
  induction bs as [|b bs IH]; intros Hp m Hm; simpl; [exact Hm|].
  apply IH; [intros b' Hb'; apply Hp; now right|].
  unfold Js.person_set. rewrite Hm.
  destruct (String.eqb_spec (key b) "__proto__") as [E|Hne]; simpl.
  - unfold Js.shadowed in *. simpl.
    destruct (dict_get "__proto__" (Js.own m)); [discriminate|].
    now rewrite (Hp b (or_introl eq_refl) E).
  - unfold Js.shadowed in *. simpl.
    rewrite dict_get_set_ne by (intros E; now apply Hne). exact Hm.
Qed.

Lemma Js_person_fold_proto_last (bs : list bucket) (b : bucket)
    (m : Js.person_map) :
  last_with_key key bs b -> key b = "__proto__" ->
  plain_prototypes bs -> Js.shadowed m = false ->
  Js.proto (fold_left (fun m b => Js.person_set (key b) (top_source b) m) bs m)
  = Some (top_source b).
Proof.
  intros (pre & post & -> & Hpost) Hb Hp Hm.
  rewrite fold_left_app. simpl.
  rewrite Js_person_fold_proto_same
    by (intros b' Hb'; rewrite <- Hb; now apply Hpost).
  simpl. unfold Js.person_set.
  rewrite Hb, Js_person_fold_unshadowed; [reflexivity| |exact Hm].
  intros b' Hb'. apply Hp. apply in_or_app. now left.
Qed.

(** ** Accuracy of the percentages

    How far the double that [_calculatePercentages] computes is from
    the rational [count / total * 100]. *)

(** Powers of two, as rationals. *)
Lemma pow2_pos (e : Z) : 0 < 2 ^ e.
Proof. apply Qpower_0_lt. reflexivity. Qed.

Lemma pow2_Z (e : Z) : (0 <= e)%Z -> inject_Z (2 ^ e) == 2 ^ e.
Proof. intros H. now rewrite Zpower_Qpower. Qed.

(** The denominator that [nearest] gives a double below one. *)
Lemma pow2_neg (e : Z) : (e < 0)%Z -> 1 # Z.to_pos (2 ^ (- e)) == 2 ^ e.
Proof.
  intros H.
  assert (Hp : (0 < 2 ^ (- e))%Z) by (apply Z.pow_pos_nonneg; lia).
  replace e with (- (- e))%Z at 2 by lia.
  rewrite Qpower_opp, <- pow2_Z by lia.
  unfold Qeq, Qinv. simpl.
  destruct (2 ^ (- e))%Z as [|p|p] eqn:E; try lia. simpl. reflexivity.
Qed.

Lemma ratio_spec (N D : Q) : 0 < D -> N / D * D == N.
Proof. intros H. field. lra. Qed.

Lemma inject_pos (z : Z) : (0 < z)%Z -> 0 < inject_Z z.
Proof. intros H. change 0 with (inject_Z 0). now rewrite <- Zlt_Qlt. Qed.

(** Comparing a ratio with a power of two. *)
Lemma ratio_test (e n d : Z) :
  (0 < n)%Z -> (0 < d)%Z ->
  (if 0 <=? e then d * 2 ^ e <=? n else d <=? n * 2 ^ (- e))%Z = true
  <-> 2 ^ e <= inject_Z n / inject_Z d.
Proof.
  intros Hn Hd.
  pose proof (inject_pos d Hd) as HD.
  pose proof (ratio_spec (inject_Z n) (inject_Z d) HD) as Hx.
  pose proof (pow2_pos e) as Hp.
  set (x := inject_Z n / inject_Z d) in *.
  destruct (Z.leb_spec 0 e) as [He|He].
  - rewrite Z.leb_le, Zle_Qle, inject_Z_mult, pow2_Z by lia.
    split; intros H; nra.
  - pose proof (pow2_pos (- e)) as Hq.
    assert (E : 2 ^ e * 2 ^ (- e) == 1).
    { rewrite <- Qpower_plus by discriminate.
      replace (e + - e)%Z with 0%Z by lia. reflexivity. }
    rewrite Z.leb_le, Zle_Qle, inject_Z_mult, pow2_Z by lia.
    set (y := x * 2 ^ (- e)).
    assert (Ey : inject_Z n * 2 ^ (- e) == y * inject_Z d)
      by (unfold y; rewrite <- Hx; ring).
    assert (Exy : x == y * 2 ^ e).
    { unfold y. rewrite <- Qmult_assoc, (Qmult_comm (2 ^ (- e))), E. ring. }
    rewrite Ey, Exy.
    split; intros H; nra.
Qed.

(** [floor_log2 n d] is the binary exponent of [n / d]. *)
Lemma floor_log2_spec (n d : Z) :
  (0 < n)%Z -> (0 < d)%Z ->
  2 ^ Js.floor_log2 n d <= inject_Z n / inject_Z d
  /\ inject_Z n / inject_Z d < 2 ^ (Js.floor_log2 n d + 1).
Proof.
  intros Hn Hd.
  pose proof (inject_pos d Hd) as HD.
  pose proof (ratio_spec (inject_Z n) (inject_Z d) HD) as Hx.
  pose proof (ratio_test (Z.log2 n - Z.log2 d) n d Hn Hd) as Ht.
  unfold Js.floor_log2.
  set (l := (Z.log2 n - Z.log2 d)%Z) in *.
  set (x := inject_Z n / inject_Z d) in *.
  pose proof (Z.log2_spec n Hn) as [Hn1 Hn2].
  pose proof (Z.log2_spec d Hd) as [Hd1 Hd2].
  pose proof (Z.log2_nonneg n) as Ha. pose proof (Z.log2_nonneg d) as Hb.
  rewrite Zle_Qle in Hn1, Hd1. rewrite Zlt_Qlt in Hn2, Hd2.
  rewrite pow2_Z in Hn1, Hn2, Hd1, Hd2 by lia.
  assert (Elow : 2 ^ (l - 1) * 2 ^ Z.succ (Z.log2 d) == 2 ^ Z.log2 n).
  { rewrite <- Qpower_plus by discriminate. unfold l.
    replace (Z.log2 n - Z.log2 d - 1 + Z.succ (Z.log2 d))%Z with (Z.log2 n) by lia.
    reflexivity. }
  assert (Ehigh : 2 ^ (l + 1) * 2 ^ Z.log2 d == 2 ^ Z.succ (Z.log2 n)).
  { rewrite <- Qpower_plus by discriminate. unfold l.
    replace (Z.log2 n - Z.log2 d + 1 + Z.log2 d)%Z with (Z.succ (Z.log2 n)) by lia.
    reflexivity. }
  pose proof (pow2_pos (l - 1)) as P1. pose proof (pow2_pos (l + 1)) as P2.
  pose proof (pow2_pos (Z.log2 d)) as P3.
  pose proof (pow2_pos (Z.succ (Z.log2 d))) as P4.
  destruct (if (0 <=? l)%Z then (d * 2 ^ l <=? n)%Z else (d <=? n * 2 ^ (- l))%Z)
    eqn:T.
  - split; [now apply Ht|]. nra.
  - replace (l - 1 + 1)%Z with l by lia. split; [nra|].
    apply Qnot_le_lt. intros H. apply Ht in H. congruence.
Qed.

(** [round_half_even] is within one half of the ratio. *)
Lemma round_half_even_near (N D : Z) :
  (0 < D)%Z ->
  inject_Z (Js.round_half_even N D) - (1 # 2) <= inject_Z N / inject_Z D
  /\ inject_Z N / inject_Z D <= inject_Z (Js.round_half_even N D) + (1 # 2).
Proof.
  intros HD.
  assert (HZ : (2 * (Js.round_half_even N D * D) <= D + 2 * N
                /\ 2 * N <= D + 2 * (Js.round_half_even N D * D))%Z).
  { unfold Js.round_half_even.
    pose proof (Z.div_mod N D ltac:(lia)) as E.
    pose proof (Z.mod_pos_bound N D HD) as Hr.
    destruct (Z.compare_spec (2 * (N mod D)) D) as [Hc|Hc|Hc];
      [destruct (Z.even (N / D))| |]; lia. }
  destruct HZ as [H1 H2].
  rewrite Zle_Qle in H1, H2.
  rewrite ?inject_Z_plus, ?inject_Z_mult in H1, H2.
  pose proof (inject_pos D HD) as HDq.
  pose proof (ratio_spec (inject_Z N) (inject_Z D) HDq) as Hx.
  set (x := inject_Z N / inject_Z D) in *.
  change (inject_Z 2) with 2 in *.
  split; nra.
Qed.

(** What remains to be shown of a rounded value [q = m * 2^e] once [m]
    is known to be nearest to [x / 2^e]. *)
Lemma rounded_accurate (x s m pe pfl eps q : Q) :
  s * pe == x -> m - (1 # 2) <= s -> s <= m + (1 # 2) ->
  q == m * pe -> pe == 2 * pfl * eps -> pfl <= x -> 0 < eps -> 0 < pe ->
  x * (1 - eps) <= q /\ q <= x * (1 + eps).
Proof.
  intros Hs H1 H2 Hq Hpe Hfl He Hp.
  assert (A1 : (m - s) * pe <= (1 # 2) * pe) by nra.
  assert (A2 : (s - m) * pe <= (1 # 2) * pe) by nra.
  assert (A3 : pfl * eps <= x * eps) by nra.
  split; nra.
Qed.

Lemma pow2_le (a b : Z) : (a <= b)%Z -> 2 ^ a <= 2 ^ b.
Proof. intros H. apply Qpower_le_compat_l; [exact H | discriminate]. Qed.

Lemma pow2_plus (a b : Z) : 2 ^ (a + b) == 2 ^ a * 2 ^ b.
Proof. apply Qpower_plus. discriminate. Qed.

(** In the range of the normal doubles, rounding changes a number by at
    most the fraction [2^-53] of it. *)
Lemma nearest_accurate (n d : Z) :
  (0 < n)%Z -> (0 < d)%Z ->
  2 ^ (-1022) <= inject_Z n / inject_Z d ->
  inject_Z n / inject_Z d < 2 ^ 1023 ->
  exists q,
    Js.nearest n d = Js.Finite q
    /\ inject_Z n / inject_Z d * (1 - 2 ^ (-53)) <= q
    /\ q <= inject_Z n / inject_Z d * (1 + 2 ^ (-53)).
Proof.
  intros Hn Hd Hlow Hhigh.
  destruct (floor_log2_spec n d Hn Hd) as [Hfl1 Hfl2].
  pose proof (inject_pos d Hd) as HD.
  pose proof (ratio_spec (inject_Z n) (inject_Z d) HD) as Hx.
  unfold Js.nearest.
  destruct (Z.leb_spec n 0) as [H0|_]; [lia|].
  set (fl := Js.floor_log2 n d) in *.
  set (x := inject_Z n / inject_Z d) in *.
  assert (Hfl_low : (-1022 <= fl)%Z).
  { destruct (Z.le_gt_cases (-1022) fl) as [H|H]; [exact H|]. exfalso.
    pose proof (pow2_le (fl + 1) (-1022) ltac:(lia)) as Hp.
    apply (Qlt_irrefl x). eapply Qlt_le_trans; [exact Hfl2|].
    eapply Qle_trans; [exact Hp | exact Hlow]. }
  assert (Hfl_high : (fl <= 1022)%Z).
  { destruct (Z.le_gt_cases fl 1022) as [H|H]; [exact H|]. exfalso.
    pose proof (pow2_le 1023 fl ltac:(lia)) as Hp.
    apply (Qlt_irrefl x). eapply Qlt_le_trans; [exact Hhigh|].
    eapply Qle_trans; [exact Hp | exact Hfl1]. }
  replace (Z.max (fl - 52) (-1074)) with (fl - 52)%Z by lia.
  set (e := (fl - 52)%Z).
  assert (Epe : 2 ^ e == 2 * 2 ^ fl * 2 ^ (-53)).
  { unfold e. replace (fl - 52)%Z with (1 + (fl + -53))%Z by lia.
    rewrite !pow2_plus. change (2 ^ 1) with 2. ring. }
  pose proof (pow2_pos e) as Hpe.
  pose proof (pow2_pos (-53)) as Heps.
  assert (Heps1 : 2 ^ (-53) <= 1).
  { change 1 with (2 ^ 0). apply pow2_le. lia. }
  assert (E1024 : 2 ^ 1024 == 2 * 2 ^ 1023).
  { change 1024%Z with (1 + 1023)%Z. rewrite pow2_plus. reflexivity. }
  destruct (Z.leb_spec 0 e) as [He|He].
  - assert (Hp : (0 < 2 ^ e)%Z) by (apply Z.pow_pos_nonneg; lia).
    destruct (round_half_even_near n (d * 2 ^ e) ltac:(lia)) as [R1 R2].
    set (m := Js.round_half_even n (d * 2 ^ e)) in *.
    assert (Hs : inject_Z n / inject_Z (d * 2 ^ e) * 2 ^ e == x).
    { rewrite inject_Z_mult, pow2_Z by lia. unfold x. field.
      split; lra. }
    assert (Hq : inject_Z (m * 2 ^ e) == inject_Z m * 2 ^ e)
      by (rewrite inject_Z_mult, pow2_Z by lia; reflexivity).
    destruct (rounded_accurate x _ (inject_Z m) (2 ^ e) (2 ^ fl) (2 ^ (-53))
                (inject_Z (m * 2 ^ e)) Hs R1 R2 Hq Epe Hfl1 Heps Hpe)
      as [B1 B2].
    destruct (Z.leb_spec (2 ^ 1024) (m * 2 ^ e)) as [Ho|Ho].
    + exfalso. rewrite Zle_Qle, (pow2_Z 1024) in Ho by lia.
      generalize dependent (2 ^ (-53)). generalize dependent (2 ^ 1023).
      generalize dependent (2 ^ 1024). intros. nra.
    + eexists. split; [reflexivity|]. split; assumption.
  - assert (Hp : (0 < 2 ^ (- e))%Z) by (apply Z.pow_pos_nonneg; lia).
    destruct (round_half_even_near (n * 2 ^ (- e)) d Hd) as [R1 R2].
    set (m := Js.round_half_even (n * 2 ^ (- e)) d) in *.
    assert (Eme : 2 ^ (- e) * 2 ^ e == 1).
    { rewrite <- pow2_plus. replace (- e + e)%Z with 0%Z by lia. reflexivity. }
    assert (Hs : inject_Z (n * 2 ^ (- e)) / inject_Z d * 2 ^ e == x).
    { rewrite inject_Z_mult, pow2_Z by lia. unfold x.
      transitivity (inject_Z n / inject_Z d * (2 ^ (- e) * 2 ^ e));
        [field; lra | rewrite Eme; ring]. }
    assert (Hq : m # Z.to_pos (2 ^ (- e)) == inject_Z m * 2 ^ e).
    { rewrite <- pow2_neg by lia. unfold Qeq, Qmult, inject_Z.
      cbn [Qnum Qden]. rewrite Pos.mul_1_l. lia. }
    destruct (rounded_accurate x _ (inject_Z m) (2 ^ e) (2 ^ fl) (2 ^ (-53))
                (m # Z.to_pos (2 ^ (- e))) Hs R1 R2 Hq Epe Hfl1 Heps Hpe)
      as [B1 B2].
    eexists. split; [reflexivity|]. split; assumption.
Qed.

(** Two roundings change [(val / total) * 100] by at most the fraction
    [2^-51] of it. *)
Lemma percentage_accurate (c t : nat) :
  t <> 0%nat -> (Z.of_nat c < 2 ^ 53)%Z -> (Z.of_nat t < 2 ^ 53)%Z ->
  exists p,
    Js.times (Js.divide (Js.Count c) (Js.Count t)) 100 = Js.Finite p
    /\ number c / number t * 100 * (1 - 2 ^ (-51)) <= p
    /\ p <= number c / number t * 100 * (1 + 2 ^ (-51)).
Proof.
  intros Ht Hc53 Ht53. unfold Js.divide, number.
  rewrite (proj2 (Nat.eqb_neq t 0) Ht).
  assert (HT : 0 < inject_Z (Z.of_nat t)) by (apply inject_pos; lia).
  assert (E51 : 2 ^ (-51) == 4 * 2 ^ (-53)).
  { change (-51)%Z with (2 + -53)%Z. rewrite pow2_plus. reflexivity. }
  pose proof (pow2_pos (-53)) as Heps.
  assert (Heps1 : 2 ^ (-53) <= 1)
    by (change 1 with (2 ^ 0); apply pow2_le; lia).
  destruct c as [|c].
  { exists 0. split; [reflexivity|]. change (Z.of_nat 0) with 0%Z.
    change (inject_Z 0) with 0.
    assert (E : 0 / inject_Z (Z.of_nat t) == 0) by (field; lra).
    rewrite E. split; lra. }
  set (cz := Z.of_nat (S c)) in *. set (tz := Z.of_nat t) in *.
  pose proof (ratio_spec (inject_Z cz) (inject_Z tz) HT) as Hx.
  assert (HC : 1 <= inject_Z cz)
    by (change 1 with (inject_Z 1); rewrite <- Zle_Qle; lia).
  assert (HT1 : 1 <= inject_Z tz)
    by (change 1 with (inject_Z 1); rewrite <- Zle_Qle; lia).
  assert (HC53 : inject_Z cz < 2 ^ 53)
    by (rewrite <- pow2_Z by lia; now rewrite <- Zlt_Qlt).
  assert (HT53 : inject_Z tz < 2 ^ 53)
    by (rewrite <- pow2_Z by lia; now rewrite <- Zlt_Qlt).
  assert (E53 : 2 ^ 53 * 2 ^ (-53) == 1).
  { rewrite <- pow2_plus. reflexivity. }
  pose proof (pow2_pos 53) as H53.
  pose proof (pow2_le (-1022) (-55) ltac:(lia)) as Hlow1.
  assert (E55 : 2 ^ (-53) == 4 * 2 ^ (-55)).
  { change (-53)%Z with (2 + -55)%Z. rewrite pow2_plus. reflexivity. }
  pose proof (pow2_le 62 1023 ltac:(lia)) as Hhigh1.
  assert (E62 : 2 ^ 62 == 512 * 2 ^ 53).
  { change 62%Z with (9 + 53)%Z. rewrite pow2_plus. reflexivity. }
  set (x := inject_Z cz / inject_Z tz) in *.
  assert (Hxlow : 2 ^ (-53) <= x).
  { generalize dependent (2 ^ 53). generalize dependent (2 ^ (-53)).
    intros. nra. }
  assert (Hxhigh : x < 2 ^ 53).
  { generalize dependent (2 ^ 53). intros. nra. }
  destruct (nearest_accurate cz tz ltac:(lia) ltac:(lia)) as (q & -> & Q1 & Q2).
  { fold x. generalize dependent (2 ^ (-53)). generalize dependent (2 ^ (-55)).
    generalize dependent (2 ^ (-1022)). intros. lra. }
  { fold x. generalize dependent (2 ^ 53). generalize dependent (2 ^ 62).
    generalize dependent (2 ^ 1023). intros. lra. }
  fold x in Q1, Q2. unfold Js.times.
  assert (Hq0 : 0 < q).
  { generalize dependent (2 ^ (-53)). generalize dependent (2 ^ 53).
    intros. nra. }
  assert (Hnum : (0 < Qnum q)%Z) by (unfold Qlt in Hq0; simpl in Hq0; lia).
  assert (Ey : inject_Z (Qnum q * 100) / inject_Z (Zpos (Qden q)) == q * 100).
  { destruct q as [a b]. cbn [Qnum Qden]. rewrite inject_Z_mult.
    rewrite (Qmake_Qdiv a b). field.
    intro Hb. apply (Qlt_irrefl 0). rewrite <- Hb at 2. now apply inject_pos. }
  destruct (nearest_accurate (Qnum q * 100) (Zpos (Qden q))
              ltac:(lia) ltac:(lia)) as (p & -> & P1 & P2).
  { rewrite Ey. generalize dependent (2 ^ (-53)).
    generalize dependent (2 ^ (-55)). generalize dependent (2 ^ (-1022)).
    generalize dependent (2 ^ 53). intros. nra. }
  { rewrite Ey. generalize dependent (2 ^ (-53)).
    generalize dependent (2 ^ 53). generalize dependent (2 ^ 62).
    generalize dependent (2 ^ 1023). intros. nra. }
  rewrite Ey in P1, P2. exists p. split; [reflexivity|].
  rewrite E51.
  generalize dependent (2 ^ (-53)). generalize dependent (2 ^ 53).
  intros big _ _ _ _ _ eps. intros.
  assert (0 < x) by nra.
  assert (A1 : x * eps * eps >= 0) by nra.
  split; nra.
Qed.

(** ** Objects with ordinary property names *)

Lemma Js_keys_ordinary {A} (o : dict A) :
  (forall k, In k (Object_keys o) -> ordinary_name k) ->
  Js.Object_keys o = Object_keys o.
Proof.
  unfold Js.Object_keys, Object_keys. intros H.
  induction (map fst o) as [|k ks IH]; [reflexivity|].
  assert (Hk : Js.array_index k = None) by (apply H; now left).
  specialize (IH (fun k' Hk' => H k' (or_intror Hk'))).
  unfold Js.index_keys, Js.named_keys in *. simpl. rewrite Hk. simpl.
  assert (E : flat_map (fun k => match Js.array_index k with
                                 | Some n => [(n, k)]
                                 | None => []
                                 end) ks = []).
  { clear IH Hk. induction ks as [|k' ks IH']; [reflexivity|]. simpl.
    rewrite (proj1 (H k' (or_intror (or_introl eq_refl)))). simpl.
    apply IH'. intros k0 [<-|Hk0]; apply H; [now left | now right; right]. }
  rewrite E in *. simpl in *. now rewrite IH.
Qed.

Lemma Js_count_ordinary (k : string) (counts : dict nat) :
  ordinary_name k ->
  Js.count_or_zero k counts = Js.Count (count_or_zero k counts).
Proof.
  intros [_ Hm]. unfold Js.count_or_zero, count_or_zero. rewrite Hm.
  now destruct (dict_get k counts).
Qed.

(** ** The cache key *)

Example cacheKey_query_a :
  cacheKey "summary" [("query", VStr "a"); ("interval", VStr "month")]
  = String.concat EmptyString
      ["summary:{"; quote "query"; ":"; quote "a"; ",";
       quote "interval"; ":"; quote "month"; "}"].
Proof. reflexivity. Qed.

(** C1, as stated, does not hold: the two option bags below have the same
    fields with the same values and differ only in the order in which
    the fields are listed, yet [cached] computes different keys for
    them, because [JSON.stringify] writes the fields in the order of the
    object; [summary] called with the one and then with the other goes
    to the index twice. *)
Lemma cacheKey_field_order_counterexample :
  Permutation [("query", VStr "a"); ("interval", VStr "month")]
              [("interval", VStr "month"); ("query", VStr "a")]
  /\ cacheKey "summary" [("query", VStr "a"); ("interval", VStr "month")]
     <> cacheKey "summary" [("interval", VStr "month"); ("query", VStr "a")]
  /\ length
       (es_log
          (snd (summary example_es example_isCurrent example_instant 1%nat
                  (snd (summary example_es example_isCurrent example_instant 0%nat
                          (new_SearchAPI
                             (<[0%nat := [("query", VStr "a"); ("interval", VStr "month")]]>
                                (<[1%nat := [("interval", VStr "month"); ("query", VStr "a")]]>
                                   ∅))))))))
     = 2%nat.
Proof.
  split; [|split].
  - apply perm_swap.
  - intros H. apply cacheKey_inj in H. discriminate H.
  - vm_compute. reflexivity.
Qed.

(** C1, amended: the key that [cached] computes is the operation name,
    a colon and the JSON text of the options with the fields in the
    order of the object.  Two option bags get the same key exactly when
    they list the same defined fields with the same values in the same
    order; in particular two option bags whose [query] fields differ
    get distinct keys, and storing a value under the one key leaves
    what is stored under the other as it is, as long as the cache has
    room. *)
Theorem cacheKey_sensitivity (name : string) (o1 o2 : obj) :
  (cacheKey name o1 = cacheKey name o2 <-> defined_props o1 = defined_props o2)
  /\ (NoDup (Object_keys o1) -> NoDup (Object_keys o2) ->
      obj_get "query" o1 <> obj_get "query" o2 ->
      cacheKey name o1 <> cacheKey name o2
      /\ forall (V : Type) (c : lru V) (v : V),
           (length (lru_entries c) < lru_max c)%nat ->
           lru_peek (cacheKey name o2) (lru_set (cacheKey name o1) v c)
           = lru_peek (cacheKey name o2) c).
Proof.
  split; [apply cacheKey_inj|].
  intros N1 N2 Hq.
  assert (Hne : cacheKey name o1 <> cacheKey name o2).
  { intros Hk. apply cacheKey_inj in Hk. apply Hq.
    rewrite <- (obj_get_defined "query" o1 N1), <- (obj_get_defined "query" o2 N2).
    now rewrite Hk. }
  split; [exact Hne|]. intros V c v Hroom.
  apply lru_set_peek_other; [congruence | exact Hroom].
Qed.

Lemma cacheKey_sensitivity_witness :
  cacheKey "summary" [("query", VStr "a")]
  <> cacheKey "summary" [("query", VStr "b")].
Proof.
  apply (proj2 (cacheKey_sensitivity "summary"
                  [("query", VStr "a")] [("query", VStr "b")])).
  - repeat constructor. simpl. tauto.
  - repeat constructor. simpl. tauto.
  - simpl. discriminate.
Defined.

(** ** A fetch that fails *)

(** C3: when the lookup of [cached] is not a hit and the fetch function
    fails (it throws, or the promise it returns is rejected), [cached]
    ends exactly as the fetch function did, so the error reaches the
    caller unchanged, and [_cacheResponse] is not run: a fetch function
    that leaves the cache alone leaves every key of the cache with the
    value it had, and the cache itself as it was when the key was not
    in it.  So it is with [summary] and [hits]: when nothing is cached
    for the options and the round trip to the index is rejected, or the
    response builder throws, the promise is rejected with that error and
    the cache is as before. *)
Theorem cached_failed_fetch :
  (forall (V : Type) (truthyV : V -> bool) (name : string) (data : obj)
          (fetchFunc : M V (completion (promise V))) (st : state V),
      (forall v, lru_peek (cacheKey name data) (cache st) = Some v ->
                 truthyV v = false) ->
      failed (fst (fetchFunc (after_lookup (cacheKey name data) st))) ->
      cache (snd (fetchFunc (after_lookup (cacheKey name data) st)))
      = cache (after_lookup (cacheKey name data) st) ->
      cached truthyV name data fetchFunc st
      = fetchFunc (after_lookup (cacheKey name data) st)
      /\ (forall k, lru_peek k (cache (snd (cached truthyV name data fetchFunc st)))
                    = lru_peek k (cache st))
      /\ (lru_peek (cacheKey name data) (cache st) = None ->
          cache (snd (cached truthyV name data fetchFunc st)) = cache st))
  /\ (forall (es_search : request -> promise response)
             (isCurrent : string -> bool) (instant : string -> Z)
             (r : loc) (o : obj) (i : value) (st : state result) (e : error),
        heap st !! r = Some o ->
        _intervalFrom o = Normal i ->
        (lru_peek (cacheKey "summary" (obj_set "interval" i o)) (cache st) = None ->
         promise_then (es_search (_buildAggregationsQuery (obj_set "interval" i o)))
                      (summary_response isCurrent instant)
         = Rejected e ->
         fst (summary es_search isCurrent instant r st) = Normal (Rejected e)
         /\ cache (snd (summary es_search isCurrent instant r st)) = cache st)
        /\ (lru_peek (cacheKey "hits" (obj_set "interval" i o)) (cache st) = None ->
            promise_then (es_search (_buildHitsQuery (obj_set "interval" i o)))
                         (hits_response (obj_set "interval" i o))
            = Rejected e ->
            fst (hits es_search r st) = Normal (Rejected e)
            /\ cache (snd (hits es_search r st)) = cache st)).
Proof.
  split.
  - intros V truthyV name data fetchFunc st Hmiss Hfail Hframe.
    assert (E : cached truthyV name data fetchFunc st
                = fetchFunc (after_lookup (cacheKey name data) st)).
    { rewrite (cached_miss _ _ _ _ _ Hmiss).
      destruct (fetchFunc (after_lookup (cacheKey name data) st)) as [[[v|e]|e] st2];
        simpl in Hfail; [contradiction | reflexivity | reflexivity]. }
    rewrite E, Hframe. unfold after_lookup. simpl.
    split; [reflexivity|]. split.
    + intros k. apply lru_get_peek.
    + apply lru_get_absent.
  - intros es_search isCurrent instant r o i st e Hr Hi. split.
    + intros Hpeek Hrej.
      rewrite summary_normalized, (normalized_call_run _ _ _ _ _ _ _ _ Hr Hi).
      rewrite Hpeek, Hrej. split; reflexivity.
    + intros Hpeek Hrej.
      rewrite hits_normalized, (normalized_call_run _ _ _ _ _ _ _ _ Hr Hi).
      rewrite Hpeek, Hrej. split; reflexivity.
Qed.

Lemma cached_failed_fetch_witness :
  cached (fun n : nat => negb (Nat.eqb n 0)) "summary" [("query", VStr "a")]
         (fun s => (Normal (Rejected (Error "index down")), s))
         (new_SearchAPI ∅)
  = (Normal (Rejected (Error "index down")), new_SearchAPI ∅)
  /\ fst (summary (fun _ => Rejected (Error "index down"))
                  example_isCurrent example_instant 0%nat
                  (new_SearchAPI (<[0%nat := [("query", VStr "a")]]> ∅)))
     = Normal (Rejected (Error "index down")).
Proof.
  split.
  - apply (proj1 cached_failed_fetch nat (fun n : nat => negb (Nat.eqb n 0)) "summary"
             [("query", VStr "a")]
             (fun s => (Normal (Rejected (Error "index down")), s))
             (new_SearchAPI ∅)).
    + intros v H. discriminate H.
    + exact I.
    + reflexivity.
  - apply (proj2 cached_failed_fetch (fun _ => Rejected (Error "index down"))
             example_isCurrent example_instant 0%nat
             [("query", VStr "a")] (VStr "month")
             (new_SearchAPI (<[0%nat := [("query", VStr "a")]]> ∅))
             (Error "index down")).
    + reflexivity.
    + reflexivity.
    + reflexivity.
    + reflexivity.
Defined.

(** ** Interval validation in [summary] and [hits] *)

Lemma normalized_call_throw (name : string)
    (fetch : loc -> M result (completion (promise result)))
    (r : loc) (st : state result) (o : obj) (e : error) :
  heap st !! r = Some o -> _intervalFrom o = Throw e ->
  normalized_call name fetch r st = (Throw e, st).
Proof. intros Hr He. unfold normalized_call. now rewrite Hr, He. Qed.

Lemma normalized_call_accepted (es_search : request -> promise response)
    (name : string) (req : obj -> request)
    (build : obj -> response -> completion result)
    (r : loc) (st : state result) (o : obj) (i : value) :
  heap st !! r = Some o -> _intervalFrom o = Normal i ->
  exists p st',
    normalized_call name (round_trip es_search req build) r st = (Normal p, st').
Proof.
  intros Hr Hi. rewrite (normalized_call_run _ _ _ _ _ _ _ _ Hr Hi).
  destruct (lru_peek _ _); [eauto|].
  destruct (promise_then _ _); eauto.
Qed.

(** C4, as stated, does not hold: an option bag whose [interval] is the
    empty string has an interval outside the allowed set, yet
    [_intervalFrom] reads it as no interval at all and both [summary]
    and [hits] go on to the index and are fulfilled. *)
Lemma empty_interval_counterexample :
  ~ In (obj_get "interval" [("query", VStr "a"); ("interval", VStr EmptyString)])
       ALLOWED_INTERVALS
  /\ _intervalFrom [("query", VStr "a"); ("interval", VStr EmptyString)]
     = Normal (VStr "month")
  /\ (exists v,
        fst (summary example_es example_isCurrent example_instant 0%nat
               (new_SearchAPI
                  (<[0%nat := [("query", VStr "a"); ("interval", VStr EmptyString)]]> ∅)))
        = Normal (Fulfilled v))
  /\ (exists v,
        fst (hits example_es 0%nat
               (new_SearchAPI
                  (<[0%nat := [("query", VStr "a"); ("interval", VStr EmptyString)]]> ∅)))
        = Normal (Fulfilled v)).
Proof.
  split; [|split; [|split]].
  - simpl. intros [H|[H|[H|[H|[]]]]]; discriminate H.
  - reflexivity.
  - eexists. vm_compute. reflexivity.
  - eexists. vm_compute. reflexivity.
Qed.

(** C4, amended: an option bag whose [interval] is absent or falsy (the
    empty string, for one) is given the interval [month].  An option bag
    whose [interval] is truthy and not one of [month], [12w], [24w],
    [year] makes [_intervalFrom], and with it [summary] and [hits], throw
    the error [invalid interval: ...] synchronously: the state, with the
    requests sent to the index, the cache and the option bag, is as
    before the call.  An option bag whose [interval] is one of the four,
    [year] among them, is accepted. *)
Theorem interval_validation (es_search : request -> promise response)
    (isCurrent : string -> bool) (instant : string -> Z)
    (o : obj) (r : loc) (st : state result) :
  heap st !! r = Some o ->
  (truthy (obj_get "interval" o) = false ->
   _intervalFrom o = Normal (VStr "month"))
  /\ (truthy (obj_get "interval" o) = true ->
      ~ In (obj_get "interval" o) ALLOWED_INTERVALS ->
      _intervalFrom o
      = Throw (Error ("invalid interval: " ++ to_string (obj_get "interval" o)))
      /\ summary es_search isCurrent instant r st
         = (Throw (Error ("invalid interval: " ++ to_string (obj_get "interval" o))), st)
      /\ hits es_search r st
         = (Throw (Error ("invalid interval: " ++ to_string (obj_get "interval" o))), st))
  /\ (In (obj_get "interval" o) ALLOWED_INTERVALS ->
      _intervalFrom o = Normal (obj_get "interval" o)
      /\ (exists p st', summary es_search isCurrent instant r st = (Normal p, st'))
      /\ (exists p st', hits es_search r st = (Normal p, st'))).
Proof.
  intros Hr. split; [|split].
  - intros Hf. apply intervalFrom_normal. unfold js_or. rewrite Hf.
    split; [reflexivity | simpl; auto].
  - intros Ht Hn.
    assert (E : _intervalFrom o
                = Throw (Error ("invalid interval: "
                                ++ to_string (obj_get "interval" o)))).
    { apply intervalFrom_throw. unfold js_or. rewrite Ht. auto. }
    split; [exact E|]. split.
    + rewrite summary_normalized. exact (normalized_call_throw _ _ _ _ o _ Hr E).
    + rewrite hits_normalized. exact (normalized_call_throw _ _ _ _ o _ Hr E).
  - intros Hin.
    assert (E : _intervalFrom o = Normal (obj_get "interval" o)).
    { apply intervalFrom_normal. unfold js_or.
      rewrite (allowed_truthy _ Hin). auto. }
    split; [exact E|]. split.
    + rewrite summary_normalized. eapply normalized_call_accepted; eauto.
    + rewrite hits_normalized. eapply normalized_call_accepted; eauto.
Qed.

Lemma interval_validation_witness :
  (_intervalFrom [("query", VStr "a")] = Normal (VStr "month"))
  /\ (summary example_es example_isCurrent example_instant 0%nat
        (new_SearchAPI (<[0%nat := [("query", VStr "a"); ("interval", VStr "week")]]> ∅))
      = (Throw (Error "invalid interval: week"),
         new_SearchAPI (<[0%nat := [("query", VStr "a"); ("interval", VStr "week")]]> ∅)))
  /\ (_intervalFrom [("query", VStr "a"); ("interval", VStr "year")]
      = Normal (VStr "year")).
Proof.
  split; [|split].
  - apply (interval_validation example_es example_isCurrent example_instant
             [("query", VStr "a")] 0%nat
             (new_SearchAPI (<[0%nat := [("query", VStr "a")]]> ∅)));
      reflexivity.
  - apply (interval_validation example_es example_isCurrent example_instant
             [("query", VStr "a"); ("interval", VStr "week")] 0%nat
             (new_SearchAPI
                (<[0%nat := [("query", VStr "a"); ("interval", VStr "week")]]> ∅))).
    + reflexivity.
    + reflexivity.
    + simpl. intros [H|[H|[H|[H|[]]]]]; discriminate H.
  - apply (interval_validation example_es example_isCurrent example_instant
             [("query", VStr "a"); ("interval", VStr "year")] 0%nat
             (new_SearchAPI
                (<[0%nat := [("query", VStr "a"); ("interval", VStr "year")]]> ∅))).
    + reflexivity.
    + simpl. auto.
Defined.

(** ** Two calls with the same options *)

Lemma normalized_call_twice (es_search : request -> promise response)
    (name : string) (req : obj -> request)
    (build : obj -> response -> completion result)
    (r r2 : loc) (o o2 : obj) (v : result) (st st1 : state result) :
  heap st !! r = Some o ->
  (0 < lru_max (cache st))%nat ->
  normalized_call name (round_trip es_search req build) r st
  = (Normal (Fulfilled v), st1) ->
  heap st1 !! r2 = Some o2 ->
  o2 = o \/ r2 = r ->
  exists st2,
    normalized_call name (round_trip es_search req build) r2 st1
    = (Normal (Fulfilled v), st2)
    /\ es_log st2 = es_log st1.
Proof.
  intros Hr Hmax Hcall Hr2 Hsame.
  destruct (_intervalFrom o) as [i|e] eqn:Hi.
  2:{ rewrite (normalized_call_throw _ _ _ _ _ _ Hr Hi) in Hcall. discriminate. }
  rewrite (normalized_call_run _ _ _ _ _ _ _ _ Hr Hi) in Hcall.
  pose proof (proj1 (intervalFrom_normal _ _) Hi) as [_ Hallowed].
  set (o' := obj_set "interval" i o) in *.
  set (key := cacheKey name o') in *.
  assert (Hst1 : heap st1 = <[r := o']> (heap st)
                 /\ lru_peek key (cache st1) = Some v).
  { destruct (lru_peek key (cache st)) as [v0|] eqn:Hpeek.
    - injection Hcall as <- <-. simpl. split; [reflexivity|].
      now rewrite lru_get_peek.
    - destruct (promise_then _ _) as [v0|e0]; [|discriminate].
      injection Hcall as <- <-. simpl. split; [reflexivity|].
      now apply lru_set_peek. }
  destruct Hst1 as [Hheap Hpeek1].
  assert (Hi2 : _intervalFrom o2 = Normal i /\ obj_set "interval" i o2 = o').
  { destruct Hsame as [->| ->]; [auto|].
    rewrite Hheap, lookup_insert_eq in Hr2. injection Hr2 as <-.
    split; [now apply intervalFrom_set|].
    unfold o', obj_set. apply dict_set_set. }
  destruct Hi2 as [Hi2 Ho2].
  rewrite (normalized_call_run _ _ _ _ _ _ _ _ Hr2 Hi2), Ho2.
  fold key. rewrite Hpeek1. eexists. split; reflexivity.
Qed.

Lemma summary_fulfilled (es_search : request -> promise response)
    (isCurrent : string -> bool) (instant : string -> Z)
    (r : loc) (o : obj) (st : state result)
    (resp : response) (aggs : aggregations) :
  heap st !! r = Some o ->
  In (js_or (obj_get "interval" o) (VStr "month")) ALLOWED_INTERVALS ->
  (forall req, es_search req = Fulfilled resp) ->
  resp_aggregations resp = Some aggs ->
  (forall b, In b (buckets (agg_filteredPeople aggs)) ->
             exists h hs, person b = Some (h :: hs)) ->
  exists v st1,
    summary es_search isCurrent instant r st = (Normal (Fulfilled v), st1).
Proof.
  intros Hr Hvalid Hes Ha Hp.
  assert (Hi : _intervalFrom o = Normal (js_or (obj_get "interval" o) (VStr "month")))
    by (apply intervalFrom_normal; auto).
  rewrite summary_normalized, (normalized_call_run _ _ _ _ _ _ _ _ Hr Hi).
  destruct (lru_peek _ _); [eauto|].
  rewrite Hes. unfold promise_then, summary_response.
  destruct (buildResponse_returns isCurrent instant resp aggs Ha Hp) as (s & ->).
  eauto.
Qed.

(** C2: on a hit [cached] returns the stored value whatever the fetch
    function is, so without invoking it; on a miss it invokes the fetch
    function once, stores what the promise is fulfilled with and returns
    it.  Hence, for valid options and an index that answers with a fixed
    well-formed response, [summary(opts)] is fulfilled with a value, and
    a second call with the same option bag (the object of the first
    call, or any option bag equal to what that object was) is fulfilled
    with the same value and sends no request to the index. *)
Theorem summary_idempotent :
  (forall (V : Type) (truthyV : V -> bool) (name : string) (data : obj)
          (st : state V) (v : V),
      lru_peek (cacheKey name data) (cache st) = Some v ->
      truthyV v = true ->
      forall fetchFunc,
        cached truthyV name data fetchFunc st
        = (Normal (Fulfilled v), after_lookup (cacheKey name data) st))
  /\ (forall (V : Type) (truthyV : V -> bool) (name : string) (data : obj)
             (fetchFunc : M V (completion (promise V))) (st st2 : state V) (v : V),
        (forall w, lru_peek (cacheKey name data) (cache st) = Some w ->
                   truthyV w = false) ->
        fetchFunc (after_lookup (cacheKey name data) st)
        = (Normal (Fulfilled v), st2) ->
        cached truthyV name data fetchFunc st
        = (Normal (Fulfilled v),
           set_cache (lru_set (cacheKey name data) v (cache st2)) st2))
  /\ (forall (es_search : request -> promise response)
             (isCurrent : string -> bool) (instant : string -> Z)
             (r : loc) (o : obj) (st : state result)
             (resp : response) (aggs : aggregations),
        heap st !! r = Some o ->
        (0 < lru_max (cache st))%nat ->
        In (js_or (obj_get "interval" o) (VStr "month")) ALLOWED_INTERVALS ->
        (forall req, es_search req = Fulfilled resp) ->
        resp_aggregations resp = Some aggs ->
        (forall b, In b (buckets (agg_filteredPeople aggs)) ->
                   exists h hs, person b = Some (h :: hs)) ->
        exists v st1,
          summary es_search isCurrent instant r st = (Normal (Fulfilled v), st1)
          /\ forall r2 o2,
               heap st1 !! r2 = Some o2 ->
               o2 = o \/ r2 = r ->
               exists st2,
                 summary es_search isCurrent instant r2 st1
                 = (Normal (Fulfilled v), st2)
                 /\ es_log st2 = es_log st1)
  /\ (forall (es_search : request -> promise response)
             (isCurrent : string -> bool) (instant : string -> Z)
             (r r2 : loc) (o o2 : obj) (v : result) (st st1 : state result),
        heap st !! r = Some o ->
        (0 < lru_max (cache st))%nat ->
        summary es_search isCurrent instant r st = (Normal (Fulfilled v), st1) ->
        heap st1 !! r2 = Some o2 ->
        o2 = o \/ r2 = r ->
        exists st2,
          summary es_search isCurrent instant r2 st1 = (Normal (Fulfilled v), st2)
          /\ es_log st2 = es_log st1).
Proof.
  split; [|split; [|split]].
  - intros V truthyV name data st v Hpeek Htr fetchFunc.
    now apply cached_hit.
  - intros V truthyV name data fetchFunc st st2 v Hmiss Hfetch.
    now rewrite (cached_miss _ _ _ _ _ Hmiss), Hfetch.
  - intros es_search isCurrent instant r o st resp aggs Hr Hmax Hvalid Hes Ha Hp.
    destruct (summary_fulfilled es_search isCurrent instant r o st resp aggs
                Hr Hvalid Hes Ha Hp) as (v & st1 & Hfirst).
    exists v, st1. split; [exact Hfirst|].
    intros r2 o2 Hr2 Hsame. rewrite summary_normalized in *.
    exact (normalized_call_twice _ _ _ _ _ _ _ _ _ _ _ Hr Hmax Hfirst Hr2 Hsame).
  - intros es_search isCurrent instant r r2 o o2 v st st1.
    rewrite summary_normalized. apply normalized_call_twice.
Qed.

Lemma summary_idempotent_witness :
  exists v st1,
    summary example_es example_isCurrent example_instant 0%nat
      (new_SearchAPI (<[0%nat := [("query", VStr "skatt")]]> ∅))
    = (Normal (Fulfilled v), st1)
    /\ forall r2 o2,
         heap st1 !! r2 = Some o2 ->
         o2 = [("query", VStr "skatt")] \/ r2 = 0%nat ->
         exists st2,
           summary example_es example_isCurrent example_instant r2 st1
           = (Normal (Fulfilled v), st2)
           /\ es_log st2 = es_log st1.
Proof.
  apply (proj1 (proj2 (proj2 summary_idempotent))
           example_es example_isCurrent example_instant 0%nat
           [("query", VStr "skatt")]
           (new_SearchAPI (<[0%nat := [("query", VStr "skatt")]]> ∅))
           example_response example_aggregations).
  - reflexivity.
  - simpl. lia.
  - simpl. auto.
  - intros req. reflexivity.
  - reflexivity.
  - simpl. intros b [<-|[<-|[]]]; simpl; eauto.
Defined.

Example summary_twice_one_round_trip :
  es_log (snd (summary example_es example_isCurrent example_instant 0%nat
                 (snd (summary example_es example_isCurrent example_instant 0%nat
                         (new_SearchAPI (<[0%nat := [("query", VStr "skatt")]]> ∅))))))
  = [SearchAggregations (VStr "month") (mkQueryString (VStr "skatt"))].
Proof. vm_compute. reflexivity. Qed.

(** ** The option bag of the caller *)

Lemma normalized_call_writes_back (es_search : request -> promise response)
    (name : string) (req : obj -> request)
    (build : obj -> response -> completion result)
    (r : loc) (o : obj) (i : value) (st : state result) :
  heap st !! r = Some o ->
  _intervalFrom o = Normal i ->
  (0 < lru_max (cache st))%nat ->
  heap (snd (normalized_call name (round_trip es_search req build) r st))
  = <[r := obj_set "interval" i o]> (heap st)
  /\ (forall v st',
        normalized_call name (round_trip es_search req build) r st
        = (Normal (Fulfilled v), st') ->
        lru_peek (cacheKey name (obj_set "interval" i o)) (cache st') = Some v).
Proof.
  intros Hr Hi Hmax. rewrite (normalized_call_run _ _ _ _ _ _ _ _ Hr Hi).
  destruct (lru_peek _ (cache st)) as [v0|] eqn:Hpeek.
  - split; [reflexivity|]. intros v st' H. injection H as <- <-. simpl.
    now rewrite lru_get_peek.
  - destruct (promise_then _ _) as [v0|e0].
    + split; [reflexivity|]. intros v st' H. injection H as <- <-. simpl.
      now apply lru_set_peek.
    + split; [reflexivity|]. intros v st' H. discriminate H.
Qed.

Lemma cacheKey_interval (name : string) (o1 o2 : obj) (i1 i2 : value) :
  NoDup (Object_keys o1) -> NoDup (Object_keys o2) ->
  cacheKey name (obj_set "interval" i1 o1) = cacheKey name (obj_set "interval" i2 o2) ->
  i1 = i2.
Proof.
  intros N1 N2 H. apply cacheKey_inj in H.
  rewrite <- (obj_get_set_eq "interval" i1 o1), <- (obj_get_set_eq "interval" i2 o2).
  rewrite <- (obj_get_defined "interval" (obj_set "interval" i1 o1)),
          <- (obj_get_defined "interval" (obj_set "interval" i2 o2));
    try (now apply dict_set_NoDup).
  now rewrite H.
Qed.

(** C10: a call of [summary] or of [hits] with an option bag whose
    interval passes the check writes the normalized interval ([month]
    when the bag has none) into the caller's object itself: after the
    call, whatever became of the request, the object holds the interval.
    The cache key is computed from the object as it is after that write,
    so a fulfilled result is found under the key of the updated object,
    and option bags whose normalized intervals differ have different
    keys. *)
Theorem options_written_back (es_search : request -> promise response)
    (isCurrent : string -> bool) (instant : string -> Z)
    (r : loc) (o : obj) (i : value) (st : state result) :
  heap st !! r = Some o ->
  _intervalFrom o = Normal i ->
  (0 < lru_max (cache st))%nat ->
  i = js_or (obj_get "interval" o) (VStr "month")
  /\ (heap (snd (summary es_search isCurrent instant r st))
      = <[r := obj_set "interval" i o]> (heap st)
      /\ forall v st',
           summary es_search isCurrent instant r st = (Normal (Fulfilled v), st') ->
           lru_peek (cacheKey "summary" (obj_set "interval" i o)) (cache st') = Some v)
  /\ (heap (snd (hits es_search r st))
      = <[r := obj_set "interval" i o]> (heap st)
      /\ forall v st',
           hits es_search r st = (Normal (Fulfilled v), st') ->
           lru_peek (cacheKey "hits" (obj_set "interval" i o)) (cache st') = Some v)
  /\ (forall name o2 i2,
        NoDup (Object_keys o) -> NoDup (Object_keys o2) -> i2 <> i ->
        cacheKey name (obj_set "interval" i2 o2)
        <> cacheKey name (obj_set "interval" i o)).
Proof.
  intros Hr Hi Hmax. split; [|split; [|split]].
  - now apply intervalFrom_normal in Hi.
  - rewrite summary_normalized. now apply normalized_call_writes_back.
  - rewrite hits_normalized. now apply normalized_call_writes_back.
  - intros name o2 i2 N N2 Hne H. apply Hne.
    exact (cacheKey_interval name o2 o i2 i N2 N H).
Qed.

Lemma options_written_back_witness :
  heap (snd (summary example_es example_isCurrent example_instant 0%nat
               (new_SearchAPI (<[0%nat := [("query", VStr "skatt")]]> ∅))))
  = <[0%nat := [("query", VStr "skatt"); ("interval", VStr "month")]]>
      (<[0%nat := [("query", VStr "skatt")]]> ∅).
Proof.
  assert (H0 : heap (new_SearchAPI (V := result) (<[0%nat := [("query", VStr "skatt")]]> ∅))
               !! 0%nat = Some [("query", VStr "skatt")]) by reflexivity.
  assert (H1 : _intervalFrom [("query", VStr "skatt")] = Normal (VStr "month"))
    by reflexivity.
  assert (H2 : (0 < lru_max (cache (new_SearchAPI (V := result)
                   (<[0%nat := [("query", VStr "skatt")]]> ∅))))%nat)
    by (simpl; lia).
  exact (proj1 (proj1 (proj2
           (options_written_back example_es example_isCurrent example_instant
              0%nat [("query", VStr "skatt")] (VStr "month")
              (new_SearchAPI (<[0%nat := [("query", VStr "skatt")]]> ∅))
              H0 H1 H2)))).
Defined.

(** ** Percentages *)


(** The percentage of 1 in 3: the double nearest to a third, times 100,
    rounded again. *)
Example percentage_of_a_third :
  map Js.entry_pct
      (Js._calculatePercentages [("A", 1%nat)] [("A", 3%nat)] false)
  = [Js.Finite (4691249611844266 # 140737488355328)].
Proof. vm_compute. reflexivity. Qed.

(** For every total up to 100 and every count up to the total, the
    percentage is the one that the Standard Library's specification of
    IEEE 754 arithmetic gives. *)
Example percentages_as_specified :
  forallb (fun p => Js.same_number
                      (Js.times (Js.divide (Js.Count (fst p)) (Js.Count (snd p)))
                                100)
                      (Js.ieee_percentage (fst p) (snd p)))
          (Js.pairs_below 100)
  = true.
Proof. vm_compute. reflexivity. Qed.



(** ** The time line *)

(** C6, as stated, does not hold: the time buckets of the example span
    the three instants [t0; t1; t2], so [n = 2], and the time line that
    [_buildResponse] returns is not empty: it holds the entry of [t1],
    which is [n - 1 = 1] entry. *)
Lemma timeline_three_buckets_counterexample :
  map bucket_key (buckets (agg_timeline example_aggregations))
  = ["2014-01-01"; "2014-02-01"; "2014-03-01"]
  /\ exists r,
       _buildResponse example_isCurrent example_instant example_response = Normal r
       /\ map entry_key (timeline r) = ["2014-02-01"]
       /\ timeline r <> [].
Proof.
  split; [reflexivity|].
  eexists. split; [vm_compute; reflexivity|]. split; [reflexivity | discriminate].
Qed.

(** C6, amended: when the keys of the time buckets of the response, the
    filtered and the unfiltered ones together, stand for the instants
    [t0 < t1 < ... < tn], [_buildResponse] returns a time line that is
    sorted ascending by instant and holds exactly [t1, ..., t_(n-1)], the
    first and the last entry of the sorted sequence being dropped; it has
    [n - 1] entries and is empty exactly when there are at most two
    instants, that is when [n <= 1]. *)
Theorem timeline_trimmed (isCurrent : string -> bool) (instant : string -> Z)
    (resp : response) (aggs : aggregations) (ts : list string) :
  resp_aggregations resp = Some aggs ->
  (forall b, In b (buckets (agg_filteredPeople aggs)) ->
             exists h hs, person b = Some (h :: hs)) ->
  (forall k, In k ts
             <-> has_key (agg_filteredTimeline aggs) k \/ has_key (agg_timeline aggs) k) ->
  StronglySorted (fun a b => (instant a < instant b)%Z) ts ->
  exists r,
    _buildResponse isCurrent instant resp = Normal r
    /\ map entry_key (timeline r) = removelast (tl ts)
    /\ StronglySorted
         (fun a b => (instant (entry_key a) < instant (entry_key b))%Z) (timeline r)
    /\ length (timeline r) = (length ts - 2)%nat
    /\ (timeline r = [] <-> (length ts <= 2)%nat).
Proof.
  intros Ha Hp Hts Hsorted.
  destruct (buildResponse_returns isCurrent instant resp aggs Ha Hp) as (r & Hr).
  exists r. split; [exact Hr|].
  apply buildResponse_inv in Hr as (aggs' & pm & Ha' & _ & _ & Ht & _).
  assert (aggs' = aggs) as -> by congruence.
  assert (Hkeys : map entry_key (timeline r) = removelast (tl ts)).
  { rewrite Ht, slice_trim, map_removelast_list, map_tl_list.
    now rewrite (sorted_timeline_keys instant aggs ts Hts Hsorted). }
  assert (Hlen : length (timeline r) = (length ts - 2)%nat).
  { rewrite <- (length_map entry_key), Hkeys. apply removelast_tl_length. }
  split; [exact Hkeys|]. split; [|split; [exact Hlen|]].
  - apply (proj2 (StronglySorted_map entry_key
                    (fun a b => (instant a < instant b)%Z) _)).
    rewrite Hkeys.
    now apply StronglySorted_removelast, StronglySorted_tl.
  - split.
    + intros E. rewrite E in Hlen. simpl in Hlen. lia.
    + intros Hle. destruct (timeline r); [reflexivity|]. simpl in Hlen. lia.
Qed.

Lemma timeline_trimmed_witness :
  exists r,
    _buildResponse example_isCurrent example_instant example_response = Normal r
    /\ map entry_key (timeline r) = ["2014-02-01"].
Proof.
  destruct (timeline_trimmed example_isCurrent example_instant example_response
              example_aggregations ["2014-01-01"; "2014-02-01"; "2014-03-01"])
    as (r & Hr & Hk & _).
  - reflexivity.
  - simpl. intros b [<-|[<-|[]]]; simpl; eauto.
  - intros k. unfold has_key. simpl. split.
    + intros [<-|[<-|[<-|[]]]].
      * right. eexists. split; [left; reflexivity | reflexivity].
      * left. eexists. split; [left; reflexivity | reflexivity].
      * right. eexists. split; [right; right; left; reflexivity | reflexivity].
    + intros [(b & Hb & <-)|(b & Hb & <-)].
      * destruct Hb as [<-|[]]. simpl. auto.
      * destruct Hb as [<-|[<-|[<-|[]]]]; simpl; auto.
  - repeat constructor; vm_compute; reflexivity.
  - exists r. split; [exact Hr | exact Hk].
Defined.

(** ** The keys of the entries *)




(** ** The highlight of a hit *)

Lemma Object_assign_other (k : string) (source : obj) :
  forall target,
    ~ In k (Object_keys source) ->
    obj_get k (Object_assign target source) = obj_get k target.
Proof.
  unfold Object_assign.
  induction source as [|[k' v] source IH]; intros target Hn; simpl; [reflexivity|].
  rewrite IH by (intros H; apply Hn; now right).
  apply obj_get_set_ne. intros ->. apply Hn. now left.
Qed.

(** C8, as stated, does not hold for every raw hit: the fields of the
    stored document are copied over the three fields that [_buildHit]
    sets, so a hit without snippet whose document has a field named
    [highlight] gets that field as its highlight, not the empty string;
    and a hit whose highlight has an empty list of fragments gets
    [undefined]. *)
Lemma highlight_counterexample :
  (exists h,
     _buildHit (mkHit (VStr "1") (VNum 1) None
                      [("text", VStr "x"); ("highlight", VStr "y")])
     = Normal h
     /\ obj_get "highlight" h = VStr "y")
  /\ (exists h,
        _buildHit (mkHit (VStr "1") (VNum 1) (Some (mkHighlight (Some [])))
                         [("text", VStr "x")])
        = Normal h
        /\ obj_get "highlight" h = VUndefined).
Proof.
  split; eexists; split; reflexivity.
Qed.

(** C8, amended: for every raw hit whose stored document has no field
    named [highlight], the highlight of the hit that [_buildHit] returns
    is the first fragment of the snippet on the text field when the raw
    hit carries one, and the empty string when the raw hit has no
    highlight at all; in both cases it is a string, neither [null] nor
    [undefined]. *)
Theorem hit_highlight (hit : raw_hit) :
  ~ In "highlight" (Object_keys (_source hit)) ->
  (forall fragment rest,
      highlight hit = Some (mkHighlight (Some (fragment :: rest))) ->
      exists h, _buildHit hit = Normal h /\ obj_get "highlight" h = VStr fragment)
  /\ (highlight hit = None ->
      exists h, _buildHit hit = Normal h
                /\ obj_get "highlight" h = VStr EmptyString).
Proof.
  intros Hn. split.
  - intros fragment rest Hh. unfold _buildHit. rewrite Hh. simpl.
    eexists. split; [reflexivity|].
    now rewrite Object_assign_other.
  - intros Hh. unfold _buildHit. rewrite Hh.
    eexists. split; [reflexivity|].
    now rewrite Object_assign_other.
Qed.

Lemma hit_highlight_witness :
  exists h,
    _buildHit (mkHit (VStr "1") (VNum 1)
                     (Some (mkHighlight (Some ["en <mark>skatt</mark>"; "to"])))
                     [("text", VStr "en skatt"); ("name", VStr "Kari")])
    = Normal h
    /\ obj_get "highlight" h = VStr "en <mark>skatt</mark>".
Proof.
  apply (proj1 (hit_highlight
                  (mkHit (VStr "1") (VNum 1)
                         (Some (mkHighlight (Some ["en <mark>skatt</mark>"; "to"])))
                         [("text", VStr "en skatt"); ("name", VStr "Kari")])
                  ltac:(simpl; intros [H|[H|[]]]; discriminate H))
               "en <mark>skatt</mark>" ["to"]).
  reflexivity.
Defined.

(** ** The context of a speech *)

Lemma context_es_answers (corpus : list raw_hit) :
  answers_context (context_es corpus) corpus.
Proof.
  intros filter size sort. reflexivity.
Qed.

(** C9, as stated, does not hold for every content of the index:
    [getContext] asks for [end - start + 1] documents at most, so where
    two documents of the transcript carry the same order, both lie in
    the range from 3 to 3 and only one of them is returned. *)
Lemma getContext_repeated_order_counterexample :
  length (filter (in_context "T1" 3 3) example_corpus_repeated) = 2%nat
  /\ fst (getContext (context_es example_corpus_repeated) "T1" 3 3
            (new_SearchAPI (V := result) ∅))
     = Fulfilled [[("transcript", VStr "T1"); ("order", VNum 3); ("text", VStr "tre")]].
Proof. split; reflexivity. Qed.

(** C9, amended: [getContext] sends one request, for the documents of
    the transcript whose order lies between [start] and [end], sorted by
    order, [end - start + 1] of them at most.  Against an index that
    holds a corpus in which the documents of the transcript have
    distinct orders, the promise it returns is fulfilled with exactly
    the documents of that transcript whose order lies between [start]
    and [end] inclusive, sorted ascending by order; when no document
    matches, as for every [start] above [end], it is fulfilled with the
    empty sequence. *)
Theorem getContext_slice {V} (es_search : request -> promise response)
    (corpus : list raw_hit) (id : string) (start end_ : Z) (st : state V) :
  answers_context es_search corpus ->
  NoDup (map order_of (filter (of_transcript id) corpus)) ->
  exists hs,
    getContext es_search id start end_ st
    = (Fulfilled (map _source hs),
       log_request
         (SearchContext
            (AndFilters [Term "transcript" (VStr id); Range "order" start end_])
            (end_ - start + 1) "order")
         st)
    /\ Permutation hs (filter (in_context id start end_) corpus)
    /\ StronglySorted
         (fun a b => (sort_value "order" a < sort_value "order" b)%Z) hs
    /\ (filter (in_context id start end_) corpus = [] -> hs = [])
    /\ ((end_ < start)%Z -> hs = []).
Proof.
  intros Hes Hdistinct.
  set (found := filter (in_context id start end_) corpus).
  assert (Hnd : NoDup (map (sort_value "order") found)).
  { assert (Hnd' : NoDup (map order_of found)).
    { apply (NoDup_map_filter_sub order_of (of_transcript id)); [|exact Hdistinct].
      intros h Hh. now apply in_context_order in Hh. }
    assert (E : map order_of found = map Some (map (sort_value "order") found)).
    { rewrite map_map. apply map_ext_in. intros h Hh.
      apply filter_In in Hh as [_ Hh]. now apply in_context_order in Hh. }
    rewrite E in Hnd'. now apply NoDup_map_inv in Hnd'. }
  assert (Hlen : (length found <= Z.to_nat (end_ - start + 1))%nat).
  { rewrite <- (length_map (sort_value "order")).
    apply distinct_in_range; [exact Hnd|].
    intros z Hz. apply in_map_iff in Hz as (h & <- & Hh).
    apply filter_In in Hh as [_ Hh]. now apply in_context_order in Hh. }
  exists (Array_sort (by_field "order") found).
  split; [|split; [|split; [|split]]].
  - unfold getContext, search.
    rewrite Hes. unfold index_answer. simpl.
    rewrite (filter_ext _ _ (context_filter_matches id start end_)).
    fold found.
    rewrite firstn_all2 by (now rewrite Array_sort_length).
    reflexivity.
  - symmetry. apply Array_sort_perm.
  - apply sorted_distinct.
    + apply (Array_sort_sorted (sort_value "order") (by_field "order")).
      apply by_field_le.
    + apply (Permutation_NoDup
               (Permutation_map (sort_value "order")
                  (Array_sort_perm (by_field "order") found))).
      exact Hnd.
  - intros E. fold found in E. now rewrite E.
  - intros Hempty. destruct found as [|h l] eqn:E; [reflexivity|].
    assert (Hh : In h (filter (in_context id start end_) corpus))
      by (fold found; rewrite E; now left).
    apply filter_In in Hh as [_ Hh]. apply in_context_order in Hh. lia.
Qed.

Lemma getContext_slice_witness :
  exists hs,
    getContext (context_es example_corpus) "T1" 3 5 (new_SearchAPI (V := result) ∅)
    = (Fulfilled (map _source hs),
       log_request
         (SearchContext
            (AndFilters [Term "transcript" (VStr "T1"); Range "order" 3 5])
            (5 - 3 + 1) "order")
         (new_SearchAPI ∅))
    /\ Permutation hs (filter (in_context "T1" 3 5) example_corpus)
    /\ StronglySorted
         (fun a b => (sort_value "order" a < sort_value "order" b)%Z) hs
    /\ (filter (in_context "T1" 3 5) example_corpus = [] -> hs = [])
    /\ ((5 < 3)%Z -> hs = []).
Proof.
  apply (getContext_slice (context_es example_corpus) example_corpus "T1" 3 5
           (new_SearchAPI (V := result) ∅)).
  - intros filter size sort. reflexivity.
  - repeat constructor; simpl; intuition discriminate.
Defined.

Example getContext_three_to_five :
  fst (getContext (context_es example_corpus) "T1" 3 5
         (new_SearchAPI (V := result) ∅))
  = Fulfilled
      [[("transcript", VStr "T1"); ("order", VNum 3); ("text", VStr "tre")];
       [("transcript", VStr "T1"); ("order", VNum 4); ("text", VStr "fire")];
       [("transcript", VStr "T1"); ("order", VNum 5); ("text", VStr "fem")]].
Proof. reflexivity. Qed.

(** * Further properties of the service *)

(** ** The fields of a hit *)




(** ** The pages of the export *)

(** X2: the request that the export sends for the page at offset [start]
    is the hits request of the options with [from] set to [start],
    whatever [start] the options carry themselves; the interval of the
    options plays no part in it, so the export sends its request also
    for an interval that [hits] refuses. *)
Theorem export_page_request_offset (opts : obj) (start : Z) :
  NoDup (Object_keys opts) ->
  export_page_request opts start
  = SearchHits (_queryFor (obj_get "query" opts))
               (_filterFor opts)
               (ToNumber (js_or (obj_get "size" opts) (VNum 10)))
               (ToNumber (VNum start))
               (js_or (obj_get "sort" opts) (VStr "_score"))
  /\ forall v,
       export_page_request (obj_set "interval" v opts) start
       = export_page_request opts start.
Proof.
  intros Hnd.
  assert (Hget : forall o k,
             NoDup (Object_keys o) -> k <> "start" ->
             obj_get k (Object_assign (Object_assign [] o) [("start", VNum start)])
             = obj_get k o).
  { intros o k Ho Hk. unfold Object_assign at 1. simpl.
    rewrite obj_get_set_ne by exact Hk. now apply assign_copy_get. }
  assert (Hstart : forall o,
             js_or (obj_get "start"
                      (Object_assign (Object_assign [] o) [("start", VNum start)]))
                   (VNum 0)
             = VNum start).
  { intros o. unfold Object_assign at 1. simpl. rewrite obj_get_set_eq.
    unfold js_or. simpl. destruct (Z.eqb_spec start 0) as [->|]; reflexivity. }
  assert (Hreq : forall o,
             NoDup (Object_keys o) ->
             export_page_request o start
             = SearchHits (_queryFor (obj_get "query" o)) (_filterFor o)
                 (ToNumber (js_or (obj_get "size" o) (VNum 10)))
                 (ToNumber (VNum start))
                 (js_or (obj_get "sort" o) (VStr "_score"))).
  { intros o Ho. unfold export_page_request, _buildHitsQuery, _filterFor.
    rewrite Hstart, !Hget by (exact Ho || discriminate). reflexivity. }
  split; [now apply Hreq|].
  intros v. rewrite !Hreq by (exact Hnd || now apply dict_set_NoDup).
  unfold _filterFor. now rewrite !obj_get_set_ne by discriminate.
Qed.

Lemma export_page_request_offset_witness :
  export_page_request
    [("query", VStr "skatt"); ("start", VNum 40); ("interval", VStr "week")] 20
  = SearchHits (_queryFor (VStr "skatt")) (NotTerm "name" (VStr "Presidenten"))
               (ToNumber (VNum 10)) (ToNumber (VNum 20)) (VStr "_score").
Proof.
  apply (export_page_request_offset
           [("query", VStr "skatt"); ("start", VNum 40); ("interval", VStr "week")]
           20).
  repeat constructor; simpl; intuition discriminate.
Defined.

(** ** The rows of the export *)

(** X3: the handler of the export returns a row exactly when the
    [presidents] of the document is an array, and throws a [TypeError]
    otherwise.  The row has one cell per header, in the order of the
    headers: the cell of [presidents] is the array joined with commas,
    every other cell is the field of the document, empty where the
    document has none.  The handler writes the joined text into the
    document, so that running it again on the same document throws. *)
Theorem tsv_row_cells (source : document) :
  ((exists row source', tsv_row source = Normal (row, source'))
   <-> exists items, dict_get "presidents" source = Some (Arr items))
  /\ (forall e, tsv_row source = Throw e -> exists m, e = TypeError m)
  /\ forall items,
       dict_get "presidents" source = Some (Arr items) ->
       exists row,
         tsv_row source
         = Normal (row,
                   dict_set "presidents" (Prim (VStr (Array_join "," items))) source)
         /\ length row = length TSV_HEADERS
         /\ (forall i k,
               nth_error TSV_HEADERS i = Some k ->
               nth_error row i
               = Some (if String.eqb k "presidents"
                       then Some (Prim (VStr (Array_join "," items)))
                       else dict_get k source))
         /\ exists m,
              tsv_row (dict_set "presidents"
                         (Prim (VStr (Array_join "," items))) source)
              = Throw (TypeError m).
Proof.
  split; [|split].
  - unfold tsv_row. split.
    + intros (row & source' & H).
      destruct (dict_get "presidents" source) as [[v|items]|]; try discriminate.
      eauto.
    + intros (items & ->). eauto.
  - unfold tsv_row. intros e H.
    destruct (dict_get "presidents" source) as [[v|items]|]; try discriminate;
      injection H as <-; eauto.
  - intros items Hp. unfold tsv_row at 1. rewrite Hp.
    eexists. split; [reflexivity|]. split; [apply length_map|]. split.
    + intros i k Hk. rewrite nth_error_map, Hk. simpl. f_equal.
      destruct (String.eqb_spec k "presidents") as [->|Hne].
      * apply dict_get_set_eq.
      * now apply dict_get_set_ne.
    + unfold tsv_row. rewrite dict_get_set_eq. eauto.
Qed.

Lemma tsv_row_cells_witness :
  exists row,
    tsv_row example_document
    = Normal (row,
              dict_set "presidents"
                (Prim (VStr "Olemic Thommessen,Marit Nybakk")) example_document)
    /\ length row = 9%nat.
Proof.
  destruct (proj2 (proj2 (tsv_row_cells example_document))
              [VStr "Olemic Thommessen"; VStr "Marit Nybakk"] eq_refl)
    as (row & Hrow & Hlen & _).
  exists row. split; [exact Hrow | exact Hlen].
Defined.

(** X4: joining the presidents with commas loses nothing as long as no
    name contains a comma: two lists of such names, neither of them
    empty, that give the same cell are the same list. *)
Theorem presidents_join_injective (l1 l2 : list string) :
  l1 <> [] -> l2 <> [] ->
  Forall (fun s => has_char "," s = false) l1 ->
  Forall (fun s => has_char "," s = false) l2 ->
  Array_join "," (map VStr l1) = Array_join "," (map VStr l2) ->
  l1 = l2.
Proof.
  intros N1 N2 F1 F2 E.
  destruct l1 as [|s1 l1]; [congruence|]. destruct l2 as [|s2 l2]; [congruence|].
  now apply join_strings_inj.
Qed.

Lemma presidents_join_injective_witness :
  ["Olemic Thommessen"; "Marit Nybakk"]
  = rev ["Marit Nybakk"; "Olemic Thommessen"].
Proof.
  apply (presidents_join_injective
           ["Olemic Thommessen"; "Marit Nybakk"]
           (rev ["Marit Nybakk"; "Olemic Thommessen"])).
  - discriminate.
  - discriminate.
  - repeat constructor.
  - repeat constructor.
  - reflexivity.
Defined.

(** A name with a comma in it is not told apart from two names. *)
Example presidents_join_comma :
  Array_join "," (map VStr ["Thommessen, Olemic"])
  = Array_join "," (map VStr ["Thommessen"; " Olemic"]).
Proof. reflexivity. Qed.

(** ** Calls through the cache, once more *)


(** What a fulfilled call leaves behind. *)
Lemma normalized_call_fulfilled_state (es_search : request -> promise response)
    (name : string) (req : obj -> request)
    (build : obj -> response -> completion result)
    (r : loc) (o : obj) (v : result) (st st1 : state result) :
  heap st !! r = Some o ->
  (0 < lru_max (cache st))%nat ->
  normalized_call name (round_trip es_search req build) r st
  = (Normal (Fulfilled v), st1) ->
  exists i,
    _intervalFrom o = Normal i
    /\ heap st1 = <[r := obj_set "interval" i o]> (heap st)
    /\ lru_peek (cacheKey name (obj_set "interval" i o)) (cache st1) = Some v.
Proof.
  intros Hr Hmax Hcall.
  destruct (_intervalFrom o) as [i|e] eqn:Hi.
  2:{ rewrite (normalized_call_throw _ _ _ _ _ _ Hr Hi) in Hcall. discriminate. }
  exists i. split; [reflexivity|].
  rewrite (normalized_call_run _ _ _ _ _ _ _ _ Hr Hi) in Hcall.
  destruct (lru_peek _ (cache st)) as [v0|] eqn:Hpeek.
  - injection Hcall as <- <-. simpl. split; [reflexivity|].
    now rewrite lru_get_peek.
  - destruct (promise_then _ _) as [v0|e0]; [|discriminate].
    injection Hcall as <- <-. simpl. split; [reflexivity|].
    now apply lru_set_peek.
Qed.

(** A call whose key is in the cache is answered from the cache, in
    whatever state. *)
Lemma normalized_call_answered (es_search : request -> promise response)
    (name : string) (req : obj -> request)
    (build : obj -> response -> completion result)
    (r : loc) (o : obj) (i : value) (v : result) (st : state result) :
  heap st !! r = Some (obj_set "interval" i o) ->
  In i ALLOWED_INTERVALS ->
  lru_peek (cacheKey name (obj_set "interval" i o)) (cache st) = Some v ->
  exists st',
    normalized_call name (round_trip es_search req build) r st
    = (Normal (Fulfilled v), st')
    /\ es_log st' = es_log st.
Proof.
  intros Hr Hi Hpeek.
  rewrite (normalized_call_run _ _ _ _ _ _ _ _ Hr (intervalFrom_set o i Hi)).
  assert (E : obj_set "interval" i (obj_set "interval" i o)
              = obj_set "interval" i o) by (unfold obj_set; apply dict_set_set).
  rewrite E, Hpeek. eexists. split; reflexivity.
Qed.

(** The requests that one call adds to the log. *)
Lemma normalized_call_log (es_search : request -> promise response)
    (name : string) (req : obj -> request)
    (build : obj -> response -> completion result)
    (r : loc) (st : state result) :
  es_log (snd (normalized_call name (round_trip es_search req build) r st))
  = es_log st
  \/ exists o i,
       heap st !! r = Some o /\ _intervalFrom o = Normal i
       /\ es_log (snd (normalized_call name (round_trip es_search req build) r st))
          = (es_log st ++ [req (obj_set "interval" i o)])%list.
Proof.
  destruct (heap st !! r) as [o|] eqn:Hr.
  2:{ left. unfold normalized_call. now rewrite Hr. }
  destruct (_intervalFrom o) as [i|e] eqn:Hi.
  2:{ left. now rewrite (normalized_call_throw _ _ _ _ _ _ Hr Hi). }
  rewrite (normalized_call_run _ _ _ _ _ _ _ _ Hr Hi).
  destruct (lru_peek _ _); [now left|].
  right. exists o, i. destruct (promise_then _ _); auto.
Qed.

(** The option bag after a call that passed the check of the interval. *)
Lemma normalized_call_heap (es_search : request -> promise response)
    (name : string) (req : obj -> request)
    (build : obj -> response -> completion result)
    (r : loc) (st : state result) (o : obj) (i : value) :
  heap st !! r = Some o ->
  _intervalFrom o = Normal i ->
  heap (snd (normalized_call name (round_trip es_search req build) r st))
  = <[r := obj_set "interval" i o]> (heap st).
Proof.
  intros Hr Hi. rewrite (normalized_call_run _ _ _ _ _ _ _ _ Hr Hi).
  destruct (lru_peek _ _); [reflexivity|]. now destruct (promise_then _ _).
Qed.

(** ** The keys of the cache *)

Lemma cacheKey_names (n1 n2 : string) (o1 o2 : obj) :
  has_char ":" n1 = false -> has_char ":" n2 = false ->
  cacheKey n1 o1 = cacheKey n2 o2 ->
  n1 = n2 /\ defined_props o1 = defined_props o2.
Proof.
  intros H1 H2 E. unfold cacheKey in E.
  destruct (char_free_split ":" n1 n2 _ _ H1 H2
              (or_intror (ex_intro _ _ eq_refl))
              (or_intror (ex_intro _ _ eq_refl)) E) as [-> E'].
  split; [reflexivity|].
  apply JSON_stringify_inj.
  change (":" ++ JSON_stringify o1) with (String ":" (JSON_stringify o1)) in E'.
  change (":" ++ JSON_stringify o2) with (String ":" (JSON_stringify o2)) in E'.
  congruence.
Qed.







(** X5: the key under which [cached] stores a result tells the name of
    the operation and the defined properties of the option bag apart:
    for names without a colon, two keys are equal exactly when the names
    are equal and the option bags have the same defined properties in
    the same order.  So no result of [summary] is ever found under a key
    of [hits]. *)
Theorem cacheKey_names_apart (n1 n2 : string) (o1 o2 : obj) :
  has_char ":" n1 = false -> has_char ":" n2 = false ->
  (cacheKey n1 o1 = cacheKey n2 o2
   <-> n1 = n2 /\ defined_props o1 = defined_props o2).
Proof.
  intros H1 H2. split.
  - now apply cacheKey_names.
  - intros [-> E]. now apply cacheKey_inj.
Qed.

Lemma cacheKey_names_apart_witness :
  cacheKey "summary" [("query", VStr "skatt")]
  = cacheKey "hits" [("query", VStr "skatt")]
  <-> "summary" = "hits"
      /\ defined_props [("query", VStr "skatt")]
         = defined_props [("query", VStr "skatt")].
Proof.
  apply (cacheKey_names_apart "summary" "hits"); reflexivity.
Defined.

(** ** What the cache holds *)

Lemma dict_get_firstn {A} (k : string) (n : nat) (l : dict A) (w : A) :
  dict_get k (firstn n l) = Some w -> dict_get k l = Some w.
Proof.
  revert n. induction l as [|[k0 v0] l IH]; intros [|n]; simpl; try discriminate.
  destruct (String.eqb k k0); [auto | apply IH].
Qed.

Lemma lru_remove_get_eq {V} (k : string) (l : list (string * V)) :
  dict_get k (lru_remove k l) = None.
Proof.
  induction l as [|[k0 v0] l IH]; simpl; [reflexivity|].
  destruct (String.eqb k k0) eqn:E; simpl; [exact IH | now rewrite E].
Qed.

(** An entry found after [set] is the one just stored or was there
    before. *)
Lemma lru_set_peek_inv {V} (k k' : string) (v w : V) (c : lru V) :
  lru_peek k' (lru_set k v c) = Some w ->
  (k' = k /\ w = v) \/ (k' <> k /\ lru_peek k' c = Some w).
Proof.
  unfold lru_peek, lru_set. simpl lru_entries. intros H.
  apply dict_get_firstn in H. simpl in H.
  destruct (String.eqb_spec k' k) as [->|Hne].
  - left. split; [reflexivity | congruence].
  - right. split; [exact Hne|]. now rewrite lru_remove_get_ne in H.
Qed.

Section Freshness.
Variable es_search : request -> promise response.
Variables (name : string) (req : obj -> request)
          (build : obj -> response -> completion result).
Variable fresh : obj -> promise result.
Hypothesis fresh_eq :
  forall o, fresh o = promise_then (es_search (req o)) (build o).
Hypothesis fresh_ext :
  forall o1 o2, (forall k, obj_get k o1 = obj_get k o2) -> fresh o1 = fresh o2.



End Freshness.



(** ** Pages of hits *)

Lemma buildHitsQuery_interval (i : value) (o : obj) :
  _buildHitsQuery (obj_set "interval" i o) = _buildHitsQuery o.
Proof.
  unfold _buildHitsQuery, _filterFor.
  rewrite !obj_get_set_ne by discriminate. reflexivity.
Qed.

(** X7: for options with an allowed interval and an index that answers
    with hits none of which has a highlight without fragments, [hits] is
    fulfilled.  When the result is not in the cache, it carries the
    query of the options, the total of the response and one built hit
    for each raw hit, in the order of the response, and one request, the
    hits request of the options, went to the index.  A second call with
    the same option bag is fulfilled with the same value and sends no
    request. *)
Theorem hits_twice (es_search : request -> promise response)
    (r : loc) (o : obj) (st : state result) (resp : response) (hs : list raw_hit) :
  heap st !! r = Some o ->
  In (js_or (obj_get "interval" o) (VStr "month")) ALLOWED_INTERVALS ->
  (0 < lru_max (cache st))%nat ->
  (forall req, es_search req = Fulfilled resp) ->
  hits_hits resp = Some hs ->
  Forall well_highlighted hs ->
  exists v st1,
    hits es_search r st = (Normal (Fulfilled v), st1)
    /\ (lru_peek (cacheKey "hits"
                    (obj_set "interval" (js_or (obj_get "interval" o) (VStr "month")) o))
                 (cache st) = None ->
        (exists l,
           v = RHits (mkHits (obj_get "query" o) l (hits_total resp))
           /\ Forall2 (fun h x => _buildHit h = Normal x) hs l)
        /\ es_log st1 = (es_log st ++ [_buildHitsQuery o])%list)
    /\ forall r2 o2,
         heap st1 !! r2 = Some o2 ->
         o2 = o \/ r2 = r ->
         exists st2,
           hits es_search r2 st1 = (Normal (Fulfilled v), st2)
           /\ es_log st2 = es_log st1.
Proof.
  intros Hr Hvalid Hmax Hes Hhs Hwell.
  set (i := js_or (obj_get "interval" o) (VStr "month")) in *.
  assert (Hi : _intervalFrom o = Normal i) by (apply intervalFrom_normal; auto).
  destruct (map_completion_Forall2 _buildHit hs) as (l & Hl & Hl2).
  { eapply Forall_impl; [|exact Hwell]. intros h. apply buildHit_returns. }
  assert (Hcall : exists v st1,
             hits es_search r st = (Normal (Fulfilled v), st1)
             /\ (lru_peek (cacheKey "hits" (obj_set "interval" i o)) (cache st) = None ->
                 v = RHits (mkHits (obj_get "query" o) l (hits_total resp))
                 /\ es_log st1 = (es_log st ++ [_buildHitsQuery o])%list)).
  { rewrite hits_normalized, (normalized_call_run _ _ _ _ _ _ _ _ Hr Hi).
    destruct (lru_peek _ (cache st)) as [v0|].
    - do 2 eexists. split; [reflexivity | discriminate].
    - rewrite Hes. unfold promise_then, hits_response. rewrite Hhs, Hl.
      do 2 eexists. split; [reflexivity|]. intros _.
      rewrite obj_get_set_ne by discriminate.
      rewrite buildHitsQuery_interval. auto. }
  destruct Hcall as (v & st1 & Hcall & Hmiss).
  exists v, st1. split; [exact Hcall|]. split.
  - intros Hnone. destruct (Hmiss Hnone) as [-> Hlog]. eauto.
  - intros r2 o2 Hr2 Hsame. rewrite hits_normalized in *.
    exact (normalized_call_twice _ _ _ _ _ _ _ _ _ _ _ Hr Hmax Hcall Hr2 Hsame).
Qed.

Lemma hits_twice_witness :
  exists v st1,
    hits example_hits_es 0%nat
      (new_SearchAPI (<[0%nat := [("query", VStr "skatt")]]> ∅))
    = (Normal (Fulfilled v), st1)
    /\ forall r2 o2,
         heap st1 !! r2 = Some o2 ->
         o2 = [("query", VStr "skatt")] \/ r2 = 0%nat ->
         exists st2,
           hits example_hits_es r2 st1 = (Normal (Fulfilled v), st2)
           /\ es_log st2 = es_log st1.
Proof.
  assert (H0 : heap (new_SearchAPI (<[0%nat := [("query", VStr "skatt")]]> ∅)
                     : state result) !! 0%nat
               = Some [("query", VStr "skatt")]) by reflexivity.
  assert (H1 : In (js_or (obj_get "interval" [("query", VStr "skatt")])
                         (VStr "month")) ALLOWED_INTERVALS) by (simpl; auto).
  assert (H2 : Forall well_highlighted example_corpus)
    by (repeat constructor; intros hl H; discriminate H).
  destruct (hits_twice example_hits_es 0%nat [("query", VStr "skatt")]
              (new_SearchAPI (<[0%nat := [("query", VStr "skatt")]]> ∅))
              (mkResponse (Some example_corpus) 10 None) example_corpus
              H0 H1 ltac:(simpl; lia) (fun _ => eq_refl) eq_refl H2)
    as (v & st1 & Hcall & _ & Hagain).
  exists v, st1. split; [exact Hcall | exact Hagain].
Defined.

(** X8: the request for a page of hits does not depend on the interval
    of the options, but the cache key does.  Two calls of [hits] on a
    service with an empty cache, with option bags that differ in their
    allowed interval only, both go to the index, with the same
    request. *)
Theorem hits_interval_splits_cache (es_search : request -> promise response)
    (r1 r2 : loc) (o : obj) (i1 i2 : value) (st : state result) :
  r1 <> r2 ->
  heap st !! r1 = Some (obj_set "interval" i1 o) ->
  heap st !! r2 = Some (obj_set "interval" i2 o) ->
  NoDup (Object_keys o) ->
  In i1 ALLOWED_INTERVALS -> In i2 ALLOWED_INTERVALS -> i1 <> i2 ->
  lru_entries (cache st) = [] ->
  _buildHitsQuery (obj_set "interval" i1 o) = _buildHitsQuery (obj_set "interval" i2 o)
  /\ es_log (snd (hits es_search r2 (snd (hits es_search r1 st))))
     = (es_log st ++ [_buildHitsQuery o; _buildHitsQuery o])%list.
Proof.
  intros Hne Hr1 Hr2 Hnd H1 H2 Hi Hempty.
  split; [now rewrite !buildHitsQuery_interval|].
  assert (Hset : forall i, obj_set "interval" i (obj_set "interval" i o)
                           = obj_set "interval" i o)
    by (intros i; unfold obj_set; apply dict_set_set).
  rewrite hits_normalized.
  rewrite (normalized_call_run _ _ _ _ r1 st _ _ Hr1 (intervalFrom_set o i1 H1)).
  rewrite Hset, buildHitsQuery_interval.
  assert (Hnone : forall k, lru_peek k (cache st) = None)
    by (intros k; unfold lru_peek; now rewrite Hempty).
  rewrite Hnone.
  set (key1 := cacheKey "hits" (obj_set "interval" i1 o)).
  set (key2 := cacheKey "hits" (obj_set "interval" i2 o)).
  assert (Hkeys : key2 <> key1).
  { intros E. apply Hi. symmetry.
    exact (cacheKey_interval "hits" o o i2 i1 Hnd Hnd E). }
  assert (Hsecond : forall c log,
             (forall v, lru_peek key2 c = Some v -> False) ->
             es_log (snd (normalized_call "hits"
                            (round_trip es_search _buildHitsQuery hits_response) r2
                            (mkState (<[r1 := obj_set "interval" i1 o]> (heap st)) c log)))
             = (log ++ [_buildHitsQuery o])%list).
  { intros c log Hc.
    assert (Hr2' : heap (mkState (<[r1 := obj_set "interval" i1 o]> (heap st)) c log)
                   !! r2 = Some (obj_set "interval" i2 o)).
    { simpl. rewrite lookup_insert_ne by exact Hne. exact Hr2. }
    rewrite (normalized_call_run _ _ _ _ r2 _ _ _ Hr2' (intervalFrom_set o i2 H2)).
    rewrite Hset, buildHitsQuery_interval. fold key2. simpl cache.
    destruct (lru_peek key2 c) as [v|] eqn:E; [destruct (Hc v eq_refl)|].
    destruct (promise_then _ _); reflexivity. }
  destruct (promise_then _ _) as [v|e]; simpl snd; rewrite Hsecond.
  - now rewrite <- app_assoc.
  - intros w H. apply lru_set_peek_inv in H as [[E _]|[_ H]]; [auto|].
    now rewrite Hnone in H.
  - now rewrite <- app_assoc.
  - intros w H. now rewrite Hnone in H.
Qed.

Lemma hits_interval_splits_cache_witness :
  es_log (snd (hits example_hits_es 1%nat
                 (snd (hits example_hits_es 0%nat
                         (new_SearchAPI
                            (<[0%nat := obj_set "interval" (VStr "month")
                                                [("query", VStr "skatt")]]>
                               (<[1%nat := obj_set "interval" (VStr "year")
                                                   [("query", VStr "skatt")]]> ∅)))))))
  = ([] ++ [_buildHitsQuery [("query", VStr "skatt")];
            _buildHitsQuery [("query", VStr "skatt")]])%list.
Proof.
  refine (proj2 (hits_interval_splits_cache example_hits_es 0%nat 1%nat
                   [("query", VStr "skatt")] (VStr "month") (VStr "year")
                   (new_SearchAPI
                      (<[0%nat := obj_set "interval" (VStr "month")
                                          [("query", VStr "skatt")]]>
                         (<[1%nat := obj_set "interval" (VStr "year")
                                             [("query", VStr "skatt")]]> ∅)))
                   _ _ _ _ _ _ _ eq_refl)).
  - discriminate.
  - reflexivity.
  - reflexivity.
  - repeat constructor. simpl. tauto.
  - simpl. auto.
  - simpl. auto.
  - discriminate.
Defined.

(** X9: a call of [summary] or of [hits] sends at most one request to
    the index, built from the caller's option bag as the call leaves it.
    Every request that [summary] sends asks for one of the four allowed
    intervals. *)
Theorem requests_of_a_call (es_search : request -> promise response)
    (isCurrent : string -> bool) (instant : string -> Z)
    (r : loc) (st : state result) :
  (es_log (snd (summary es_search isCurrent instant r st)) = es_log st
   \/ exists o',
        heap (snd (summary es_search isCurrent instant r st)) !! r = Some o'
        /\ es_log (snd (summary es_search isCurrent instant r st))
           = (es_log st ++ [_buildAggregationsQuery o'])%list
        /\ allowed_aggregations_request (_buildAggregationsQuery o'))
  /\ (es_log (snd (hits es_search r st)) = es_log st
      \/ exists o',
           heap (snd (hits es_search r st)) !! r = Some o'
           /\ es_log (snd (hits es_search r st))
              = (es_log st ++ [_buildHitsQuery o'])%list).
Proof.
  rewrite summary_normalized, hits_normalized. split.
  - destruct (normalized_call_log es_search "summary" _buildAggregationsQuery
                (fun _ => summary_response isCurrent instant) r st)
      as [H|(o & i & Hr & Hi & Hlog)]; [now left|].
    right. exists (obj_set "interval" i o). split; [|split; [exact Hlog|]].
    + rewrite (normalized_call_heap _ _ _ _ _ _ _ _ Hr Hi).
      apply lookup_insert_eq.
    + exists i, (obj_get "query" (obj_set "interval" i o)).
      split; [|exact (proj2 (proj1 (intervalFrom_normal _ _) Hi))].
      unfold _buildAggregationsQuery. now rewrite obj_get_set_eq.
  - destruct (normalized_call_log es_search "hits" _buildHitsQuery
                hits_response r st)
      as [H|(o & i & Hr & Hi & Hlog)]; [now left|].
    right. exists (obj_set "interval" i o). split; [|exact Hlog].
    rewrite (normalized_call_heap _ _ _ _ _ _ _ _ Hr Hi).
    apply lookup_insert_eq.
Qed.

(** ** The counts of an aggregation *)

(** X10: [_parseAggregation] gives each key other than [__proto__] the
    count of the last bucket that has it, the key of a bucket being
    [key_as_string], or [key] when that is absent or empty.  For a key
    that no bucket has, and for [__proto__], which an assignment does
    not create, [counts[key] || 0.0] is the member of
    [Object.prototype] that the key names, if it names one, and [0]
    otherwise.  The keys that [Object.keys] lists are the keys of the
    buckets other than [__proto__], each once; when the keys of the
    buckets are distinct, it lists first those that are array indices,
    in ascending order, then the others in the order of the buckets. *)
Theorem parseAggregation_counts (a : aggregation) :
  (forall b,
     last_with_key bucket_key (buckets a) b -> bucket_key b <> "__proto__" ->
     Js.count_or_zero (bucket_key b) (Js._parseAggregation a)
     = Js.Count (doc_count b))
  /\ (forall k,
        ~ has_key a k \/ k = "__proto__" ->
        Js.count_or_zero k (Js._parseAggregation a)
        = if Js.is_member k then Js.Member k else Js.Count 0)
  /\ (NoDup (Js.Object_keys (Js._parseAggregation a))
      /\ forall k,
           In k (Js.Object_keys (Js._parseAggregation a))
           <-> has_key a k /\ k <> "__proto__")
  /\ (NoDup (map bucket_key (buckets a)) ->
      (forall b, In b (buckets a) -> bucket_key b <> "__proto__") ->
      Js.Object_keys (Js._parseAggregation a)
      = (map snd (Array_sort Js.by_index
                             (Js.index_keys (map bucket_key (buckets a))))
         ++ Js.named_keys (map bucket_key (buckets a)))%list
      /\ StronglySorted
           (fun x y => (Z.of_N (fst x) <= Z.of_N (fst y))%Z)
           (Array_sort Js.by_index (Js.index_keys (map bucket_key (buckets a))))).
Proof.
  destruct (Js_parse_keys a) as [Hnd Hin].
  split; [|split; [|split]].
  - intros b Hlast Hb. apply Js_count_own.
    rewrite Js_parse_settable. unfold _parseAggregation. simpl.
    apply (fold_set_last bucket_key doc_count). now apply settable_last.
  - intros k Hk. apply Js_count_missing. rewrite Hin. tauto.
  - split; [now apply Js_keys_NoDup|]. intros k. now rewrite Js_keys_In.
  - intros Hdistinct Hproto. split.
    + rewrite Js_parse_settable, settable_all by exact Hproto.
      unfold _parseAggregation. simpl buckets.
      rewrite fold_set_fresh by exact Hdistinct.
      unfold Js.Object_keys. simpl. now rewrite map_map.
    + apply (Array_sort_sorted (fun x => Z.of_N (fst x))). apply by_index_le.
Qed.

Lemma parseAggregation_counts_witness :
  Js.Object_keys (Js._parseAggregation example_index_counts)
  = ["9"; "10"; "Kari"].
Proof.
  apply (proj2 (proj2 (proj2 (parseAggregation_counts example_index_counts)))).
  - repeat constructor; simpl; intuition discriminate.
  - intros b [<-|[<-|[<-|[]]]]; discriminate.
Defined.

(** The counts of an aggregation in which a key comes twice and a
    bucket is called [__proto__]. *)
Example parseAggregation_last_wins :
  Js._parseAggregation
    (mkAggregation (buckets example_counts
                    ++ [mkBucket "__proto__" None 7 None]))
  = [("A", 3%nat); ("B", 2%nat)].
Proof. reflexivity. Qed.

(** ** The map of the speakers *)

Lemma buildPersonMap_fold_throw (bs : list bucket) (e : error) :
  fold_left
    (fun (acc : completion (dict obj)) b =>
       match acc with
       | Throw e => Throw e
       | Normal map =>
           match person b with
           | Some (h :: _) => Normal (dict_set (key b) (_source h) map)
           | _ => Throw (TypeError "Cannot read property of undefined")
           end
       end)
    bs (Throw e)
  = Throw e.
Proof. induction bs as [|b bs IH]; simpl; auto. Qed.

Lemma buildPersonMap_fold_cases (bs : list bucket) :
  forall acc : dict obj,
    ((forall b, In b bs -> top_hit b <> None)
     /\ fold_left
          (fun (acc : completion (dict obj)) b =>
             match acc with
             | Throw e => Throw e
             | Normal map =>
                 match person b with
                 | Some (h :: _) => Normal (dict_set (key b) (_source h) map)
                 | _ => Throw (TypeError "Cannot read property of undefined")
                 end
             end)
          bs (Normal acc)
        = Normal (fold_left
                    (fun m b => dict_set (key b)
                                  (match top_hit b with
                                   | Some h => _source h
                                   | None => []
                                   end) m)
                    bs acc))
    \/ ((exists b, In b bs /\ top_hit b = None)
        /\ fold_left
             (fun (acc : completion (dict obj)) b =>
                match acc with
                | Throw e => Throw e
                | Normal map =>
                    match person b with
                    | Some (h :: _) => Normal (dict_set (key b) (_source h) map)
                    | _ => Throw (TypeError "Cannot read property of undefined")
                    end
                end)
             bs (Normal acc)
           = Throw (TypeError "Cannot read property of undefined")).
Proof.
  induction bs as [|b bs IH]; intros acc.
  - left. split; [intros b []|reflexivity].
  - simpl. destruct (person b) as [[|h hs]|] eqn:Hp.
    + right. split; [|apply buildPersonMap_fold_throw].
      exists b. split; [now left|]. unfold top_hit. now rewrite Hp.
    + assert (Ht : top_hit b = Some h) by (unfold top_hit; now rewrite Hp).
      rewrite Ht.
      destruct (IH (dict_set (key b) (_source h) acc)) as [[Hall E]|[(b' & Hb' & Hn) E]].
      * left. split; [|exact E].
        intros b' [<-|Hb']; [now rewrite Ht | now apply Hall].
      * right. split; [|exact E]. exists b'. split; [now right | exact Hn].
    + right. split; [|apply buildPersonMap_fold_throw].
      exists b. split; [now left|]. unfold top_hit. now rewrite Hp.
Qed.

Lemma buildPersonMap_cases (a : aggregation) :
  ((forall b, In b (buckets a) -> top_hit b <> None)
   /\ _buildPersonMap a
      = Normal (fold_left
                  (fun m b => dict_set (key b)
                                (match top_hit b with
                                 | Some h => _source h
                                 | None => []
                                 end) m)
                  (buckets a) []))
  \/ ((exists b, In b (buckets a) /\ top_hit b = None)
      /\ _buildPersonMap a = Throw (TypeError "Cannot read property of undefined")).
Proof. apply buildPersonMap_fold_cases. Qed.

(** X11: [_buildResponse] returns a summary exactly when the response
    carries aggregations and every bucket of the filtered speakers has a
    top hit; otherwise it throws, and what it throws is a [TypeError].
    The total of a summary is the total of the response. *)
Theorem buildResponse_defined (isCurrent : string -> bool) (instant : string -> Z)
    (resp : response) :
  ((exists s, _buildResponse isCurrent instant resp = Normal s)
   <-> exists aggs,
         resp_aggregations resp = Some aggs
         /\ forall b, In b (buckets (agg_filteredPeople aggs)) -> top_hit b <> None)
  /\ (forall e, _buildResponse isCurrent instant resp = Throw e ->
                exists m, e = TypeError m)
  /\ (forall s, _buildResponse isCurrent instant resp = Normal s ->
                counts_total s = hits_total resp).
Proof.
  split; [|split].
  - split.
    + intros (s & Hs).
      apply buildResponse_inv in Hs as (aggs & pm & Ha & Hpm & _).
      exists aggs. split; [exact Ha|].
      destruct (buildPersonMap_cases (agg_filteredPeople aggs)) as [[Hall _]|[_ E]];
        [exact Hall | congruence].
    + intros (aggs & Ha & Hall). unfold _buildResponse. rewrite Ha.
      destruct (buildPersonMap_cases (agg_filteredPeople aggs))
        as [[_ E]|[(b & Hb & Hn) _]].
      * rewrite E. eauto.
      * destruct (Hall b Hb Hn).
  - intros e. unfold _buildResponse.
    destruct (resp_aggregations resp) as [aggs|].
    + destruct (buildPersonMap_cases (agg_filteredPeople aggs)) as [[_ E]|[_ E]];
        rewrite E; [discriminate|].
      intros H. injection H as <-. eauto.
    + intros H. injection H as <-. eauto.
  - intros s Hs. now apply buildResponse_inv in Hs as (aggs & pm & _ & _ & Ht & _).
Qed.

(** ** The order of the speakers *)



Section SortByOrder.
Context {A : Type}.
Variable R : A -> A -> Prop.
Variable cmp : A -> A -> Q.
Hypothesis cmp_R : forall x y, Qle_bool (cmp x y) 0 = true -> R x y.
Hypothesis cmp_total : forall x y, Qle_bool (cmp x y) 0 = false -> R y x.
Hypothesis R_trans : forall x y z, R x y -> R y z -> R x z.



End SortByOrder.










(** ** What is known of a speaker *)

(** X13: no entry of the people has the key [__proto__].  The [meta] of
    an entry is the stored document of the top hit of the last bucket of
    the filtered speakers whose [key] is the key of the entry.  When no
    bucket has that [key], as for a bucket that is entered under its
    [key_as_string], the [meta] is the member of [Object.prototype]
    that the key names, if it names one, and undefined otherwise,
    unless a bucket has the [key] [__proto__]: the assignment for that
    bucket makes the stored document of its top hit the prototype of
    the map, and the [meta] is then the field of that document that
    the key names, if it has one; this for the last such bucket, when
    no such document has itself a field [__proto__], which would turn
    the later assignments into ordinary ones.  The entries of the time
    line and of the parties have no [meta]. *)
Theorem people_meta (aggs : aggregations) (personMap : Js.person_map) :
  Js._buildPersonMap (agg_filteredPeople aggs) = Normal personMap ->
  (forall e, In e (Js.timeline_entries aggs) \/ In e (Js.parties_entries aggs) ->
             Js.entry_meta e = Js.Undefined)
  /\ forall e,
       In e (Js.people_entries aggs personMap) ->
       Js.entry_key e <> "__proto__"
       /\ (forall b,
             last_with_key key (buckets (agg_filteredPeople aggs)) b ->
             key b = Js.entry_key e ->
             exists h, top_hit b = Some h
                       /\ Js.entry_meta e = Js.Document (_source h))
       /\ ((forall b, In b (buckets (agg_filteredPeople aggs)) ->
                      key b <> Js.entry_key e) ->
           ((forall b, In b (buckets (agg_filteredPeople aggs)) ->
                       key b <> "__proto__") ->
            Js.entry_meta e
            = if Js.is_member (Js.entry_key e)
              then Js.Inherited (Js.entry_key e)
              else Js.Undefined)
           /\ forall b,
                plain_prototypes (buckets (agg_filteredPeople aggs)) ->
                last_with_key key (buckets (agg_filteredPeople aggs)) b ->
                key b = "__proto__" ->
                exists h,
                  top_hit b = Some h
                  /\ Js.entry_meta e
                     = match dict_get (Js.entry_key e) (_source h) with
                       | Some v => Js.Primitive v
                       | None =>
                           if Js.is_member (Js.entry_key e)
                           then Js.Inherited (Js.entry_key e)
                           else Js.Undefined
                       end).
Proof.
  intros Hpm. split.
  - intros e [He|He]; now apply Js_percentages_entry in He.
  - intros e He.
    assert (Hkey : Js.entry_key e <> "__proto__").
    { apply (in_map Js.entry_key) in He.
      rewrite Js_people_entries_keys, Js_keys_In in He.
      now apply (Js_parse_keys _) in He. }
    unfold Js._buildPersonMap in Hpm.
    apply Js_buildPersonMap_fold in Hpm as [Hall ->].
    set (bs := buckets (agg_filteredPeople aggs)) in *.
    assert (Htop : forall b, In b bs ->
                             exists h, top_hit b = Some h
                                       /\ top_source b = _source h).
    { intros b Hb. unfold top_source.
      destruct (top_hit b) as [h|] eqn:Hh; [eauto | destruct (Hall b Hb Hh)]. }
    assert (Hlast : forall b, last_with_key key bs b -> In b bs).
    { intros b (pre & post & -> & _). apply in_or_app. right. now left. }
    unfold Js.people_entries in He. apply in_map_iff in He as (d & <- & _).
    simpl in *. unfold Js.person_get.
    rewrite (Js_person_fold_get _ _ Hkey). simpl Js.own.
    split; [exact Hkey|]. split.
    + intros b Hb Hk. destruct (Htop b (Hlast b Hb)) as (h & Hh & Hs).
      exists h. split; [exact Hh|].
      rewrite <- Hk, (fold_set_last key top_source), Hs; [reflexivity|].
      apply settable_last; [exact Hb | now rewrite Hk].
    + intros Hn.
      rewrite fold_set_absent
        by (intros b Hb; apply settable_In in Hb as [Hb _]; now apply Hn).
      simpl dict_get. split.
      * intros Hproto. now rewrite Js_person_fold_proto_same.
      * intros b Hplain Hb Hk. destruct (Htop b (Hlast b Hb)) as (h & Hh & Hs).
        exists h. split; [exact Hh|].
        rewrite (Js_person_fold_proto_last _ _ (Js.mkPersonMap [] None)
                   Hb Hk Hplain eq_refl), Hs.
        now rewrite (proj2 (String.eqb_neq _ _) Hkey).
Qed.

Lemma people_meta_witness :
  exists personMap,
    Js._buildPersonMap (agg_filteredPeople example_aggregations)
    = Normal personMap
    /\ forall e,
         In e (Js.people_entries example_aggregations personMap) ->
         Js.entry_key e <> "__proto__".
Proof.
  eexists. split; [reflexivity|]. intros e He.
  exact (proj1 (proj2 (people_meta example_aggregations _ eq_refl) e He)).
Defined.

(** With a speaker called [__proto__], the [meta] of a speaker whose
    bucket is entered under its [key_as_string] is a field of the
    document of the former. *)
Example people_meta_of_another :
  exists personMap,
    Js._buildPersonMap (agg_filteredPeople example_prototype_people)
    = Normal personMap
    /\ map (fun e => (Js.entry_key e, Js.entry_meta e))
           (Js.people_entries example_prototype_people personMap)
       = [("party", Js.Primitive (VStr "A"))].
Proof. eexists. split; reflexivity. Qed.

(** When the stored document that has become the prototype has a field
    [__proto__], the assignment for a later bucket called [__proto__]
    creates a property of the map, and the prototype stays. *)
Example people_meta_shadowed :
  Js._buildPersonMap (agg_filteredPeople example_shadowed_people)
  = Normal (Js.mkPersonMap
              [("__proto__", [("external_id", VStr "ON"); ("party", VStr "NKP")]);
               ("7", [("external_id", VStr "QN"); ("party", VStr "H")])]
              (Some [("__proto__", VStr "x"); ("party", VStr "A")]))
  /\ forall personMap,
       Js._buildPersonMap (agg_filteredPeople example_shadowed_people)
       = Normal personMap ->
       map (fun e => (Js.entry_key e, Js.entry_meta e))
           (Js.people_entries example_shadowed_people personMap)
       = [("party", Js.Primitive (VStr "A"))].
Proof.
  split; [reflexivity|]. intros personMap H. injection H as <-. reflexivity.
Qed.

(** ** The context of a speech and the cache *)

Lemma getContext_state {V} (es_search : request -> promise response)
    (id : string) (start end_ : Z) (st : state V) :
  snd (getContext es_search id start end_ st)
  = log_request (context_request id start end_) st.
Proof. reflexivity. Qed.

Lemma context_after_call (es_search : request -> promise response)
    (name : string) (req : obj -> request)
    (build : obj -> response -> completion result)
    (id : string) (start end_ : Z)
    (r : loc) (o : obj) (v : result) (st st1 : state result) :
  heap st !! r = Some o ->
  (0 < lru_max (cache st))%nat ->
  normalized_call name (round_trip es_search req build) r st
  = (Normal (Fulfilled v), st1) ->
  exists st3,
    normalized_call name (round_trip es_search req build) r
      (snd (getContext es_search id start end_ st1))
    = (Normal (Fulfilled v), st3)
    /\ es_log st3 = (es_log st1 ++ [context_request id start end_])%list.
Proof.
  intros Hr Hmax Hcall.
  destruct (normalized_call_fulfilled_state _ _ _ _ _ _ _ _ _ Hr Hmax Hcall)
    as (i & Hi & Hheap & Hpeek).
  pose proof (proj2 (proj1 (intervalFrom_normal _ _) Hi)) as Hallowed.
  rewrite getContext_state.
  destruct (normalized_call_answered es_search name req build r o i v
              (log_request (context_request id start end_) st1))
    as (st3 & Hcall3 & Hlog); auto.
  - simpl. rewrite Hheap. apply lookup_insert_eq.
  - exists st3. split; [exact Hcall3 | exact Hlog].
Qed.

(** X14: [getContext] goes to the index every time: it sends its one
    request, also for an empty range, reads and writes neither the cache
    nor an option bag, hands a rejection on, and is fulfilled with the
    stored documents of the hits, or with an empty list when the
    response has no list of hits.  The same call made twice sends the
    request twice.  A call of [getContext] between two calls of
    [summary] or of [hits] with one option bag leaves the second of them
    answered from the cache. *)
Theorem getContext_uncached (es_search : request -> promise response)
    (isCurrent : string -> bool) (instant : string -> Z)
    (id : string) (start end_ : Z) (st : state result) :
  (heap (snd (getContext es_search id start end_ st)) = heap st
   /\ cache (snd (getContext es_search id start end_ st)) = cache st
   /\ es_log (snd (getContext es_search id start end_ st))
      = (es_log st ++ [context_request id start end_])%list)
  /\ fst (getContext es_search id start end_ st)
     = match es_search (context_request id start end_) with
       | Fulfilled resp =>
           Fulfilled (match hits_hits resp with
                      | Some hs => map _source hs
                      | None => []
                      end)
       | Rejected e => Rejected e
       end
  /\ es_log (snd (getContext es_search id start end_
                    (snd (getContext es_search id start end_ st))))
     = (es_log st ++ [context_request id start end_;
                      context_request id start end_])%list
  /\ forall r o v st1,
       heap st !! r = Some o ->
       (0 < lru_max (cache st))%nat ->
       (summary es_search isCurrent instant r st = (Normal (Fulfilled v), st1) ->
        exists st3,
          summary es_search isCurrent instant r
            (snd (getContext es_search id start end_ st1))
          = (Normal (Fulfilled v), st3)
          /\ es_log st3 = (es_log st1 ++ [context_request id start end_])%list)
       /\ (hits es_search r st = (Normal (Fulfilled v), st1) ->
           exists st3,
             hits es_search r (snd (getContext es_search id start end_ st1))
             = (Normal (Fulfilled v), st3)
             /\ es_log st3 = (es_log st1 ++ [context_request id start end_])%list).
Proof.
  split; [|split; [|split]].
  - rewrite getContext_state. auto.
  - unfold getContext, search. simpl. fold (context_request id start end_).
    destruct (es_search _) as [resp|e]; simpl; [|reflexivity].
    now destruct (hits_hits resp).
  - rewrite !getContext_state. simpl. now rewrite <- app_assoc.
  - intros r o v st1 Hr Hmax.
    rewrite summary_normalized, hits_normalized.
    split; intros Hcall; eapply context_after_call; eauto.
Qed.

Lemma getContext_uncached_witness :
  exists v st1,
    summary example_es example_isCurrent example_instant 0%nat
      (new_SearchAPI (<[0%nat := [("query", VStr "skatt")]]> ∅))
    = (Normal (Fulfilled v), st1)
    /\ exists st3,
         summary example_es example_isCurrent example_instant 0%nat
           (snd (getContext example_es "T1" 3 5 st1))
         = (Normal (Fulfilled v), st3)
         /\ es_log st3 = (es_log st1 ++ [context_request "T1" 3 5])%list.
Proof.
  assert (H0 : heap (new_SearchAPI (<[0%nat := [("query", VStr "skatt")]]> ∅)
                     : state result) !! 0%nat
               = Some [("query", VStr "skatt")]) by reflexivity.
  destruct (summary_fulfilled example_es example_isCurrent example_instant 0%nat
              [("query", VStr "skatt")]
              (new_SearchAPI (<[0%nat := [("query", VStr "skatt")]]> ∅))
              example_response example_aggregations H0)
    as (v & st1 & Hcall).
  - simpl. auto.
  - intros req. reflexivity.
  - reflexivity.
  - intros b [<-|[<-|[]]]; simpl; eauto.
  - exists v, st1. split; [exact Hcall|].
    assert (Hmax : (0 < lru_max (cache (new_SearchAPI
                                          (<[0%nat := [("query", VStr "skatt")]]> ∅)
                                        : state result)))%nat) by (simpl; lia).
    pose proof (getContext_uncached example_es example_isCurrent example_instant
                  "T1" 3 5
                  (new_SearchAPI (<[0%nat := [("query", VStr "skatt")]]> ∅)))
      as (_ & _ & _ & Hafter).
    apply (proj1 (Hafter 0%nat [("query", VStr "skatt")] v st1 H0 Hmax)).
    exact Hcall.
Defined.

(** ** A service in use *)





Section Invariant.
Variable es_search : request -> promise response.
Variable isCurrent : string -> bool.
Variable instant : string -> Z.




End Invariant.



(** ** Agreement of the two embeddings *)

(** X16: on objects of which every property name is ordinary, no array
    index and no member of [Object.prototype], [_calculatePercentages]
    as embedded with exact percentages and as embedded in [Js] give
    entries that agree one by one: the same keys in the same order, the
    same count and total, both numbers, and, for counts below [2^53], a
    percentage in [Js] that is a double within the fraction [2^-51] of
    the exact percentage. *)
Theorem percentages_agree (subset set : dict nat) (combineKeys : bool) :
  (forall k, In k (Object_keys subset) \/ In k (Object_keys set) ->
             ordinary_name k) ->
  Forall2 agree (_calculatePercentages subset set combineKeys)
                (Js._calculatePercentages subset set combineKeys).
Proof.
  intros H. unfold _calculatePercentages, Js._calculatePercentages.
  rewrite !Js_keys_ordinary by (intros k Hk; apply H; tauto).
  set (keys := if combineKeys then _ else _).
  assert (Hkeys : forall k, In k keys -> ordinary_name k).
  { intros k Hk. apply H. unfold keys in Hk. destruct combineKeys.
    - apply combined_keys, in_app_iff in Hk. exact Hk.
    - now left. }
  clearbody keys. induction keys as [|k keys IH]; simpl; constructor.
  - assert (Hk : ordinary_name k) by (apply Hkeys; now left).
    unfold agree. simpl. rewrite !Js_count_ordinary by exact Hk.
    split; [reflexivity|]. split; [reflexivity|]. split; [reflexivity|].
    intros Hc Ht. destruct (count_or_zero k set) as [|t] eqn:Et.
    + exists 0. split; [reflexivity|]. simpl. split; lra.
    + change (Nat.eqb (S t) 0) with false. cbv iota.
      apply percentage_accurate; [discriminate | exact Hc | exact Ht].
  - apply IH. intros k' Hk'. apply Hkeys. now right.
Qed.

Lemma percentages_agree_witness :
  Forall2 agree
          (_calculatePercentages [("A", 7%nat)] [("A", 100%nat); ("H", 3%nat)]
                                 true)
          (Js._calculatePercentages [("A", 7%nat)]
                                    [("A", 100%nat); ("H", 3%nat)] true).
Proof.
  apply percentages_agree.
  intros k [[<-|[]]|[<-|[<-|[]]]]; split; reflexivity.
Defined.
